(** * Hexagonal Chinese Checkers: the core rules, embedded and verified

    A shallow embedding of the rule-bearing JavaScript of the game
    (coordinates, board topology, board state, move calculator, turn and win
    rules, what the controller does to the game state, the event emitter)
    together with the properties its specification states about it and
    further properties read off the code.

    Conventions of the embedding.
    - JavaScript numbers that hold integers are [Z]. A number is a double:
      it holds an integer exactly, and adds, negates and multiplies
      integers exactly, as long as every value has magnitude at most 2^53.
      The cells of a board lie within 8 of the centre, and a position so
      far out that a double rounds is off the board like its neighbours;
      where a law of the coordinate arithmetic is stated for every
      position, it carries the bound [exactRange].
    - A [Map] keyed by position keys is a [gmap string _]; a [Set] of keys is
      a [gset string].
    - A method that mutates [this] returns the new state; a method that
      mutates and returns a value returns a pair.
    - A cell owns its piece by value: every [Piece] object sits in at most
      one cell (pieces are created one per cell and only relocated).
    - The event emitter is observed through the log of emitted events.
    - The controller's reference to the selected piece is the position of
      the cell that holds the piece; the completion callback of an
      animation is the triple that its closure has captured.
    - A number that JavaScript computes as NaN has no counterpart: the call
      that computes it has no result ([None]).
    - The recursion of the move search takes a budget ([fuel]); [None] is
      a search that ran out of it. [findValidMoves] is shown to return with
      the budget it uses, and a larger budget gives the same moves. *)

From Stdlib Require Import ZArith List Lia Bool Ascii String.
From stdpp Require Import base option list strings pretty gmap fin_maps fin_sets.

Local Open Scope Z_scope.

(* ====================================================================== *)
(** ** core/hexUtils.js : HexPosition *)
(* ====================================================================== *)

Record HexPosition := mkHex { q : Z; r : Z }.

Global Instance HexPosition_eq_dec : EqDecision HexPosition.
Proof. solve_decision. Defined.

Module Hex.

(** [get key() { return `${this.q},${this.r}`; }] *)
Definition key (p : HexPosition) : string :=
  pretty (q p) +:+ "," +:+ pretty (r p).

(** [equals(other)] *)
Definition equals (p other : HexPosition) : bool :=
  (q p =? q other) && (r p =? r other).

(** [add(other)] *)
Definition add (p other : HexPosition) : HexPosition :=
  mkHex (q p + q other) (r p + r other).

(** [subtract(other)] *)
Definition subtract (p other : HexPosition) : HexPosition :=
  mkHex (q p - q other) (r p - r other).

(** [scale(factor)] *)
Definition scale (p : HexPosition) (factor : Z) : HexPosition :=
  mkHex (q p * factor) (r p * factor).

(** [rotate60CCW()] *)
Definition rotate60CCW (p : HexPosition) : HexPosition :=
  mkHex (- r p) (q p + r p).

(** [rotate60CW()] *)
Definition rotate60CW (p : HexPosition) : HexPosition :=
  mkHex (q p + r p) (- q p).

(** [rotateN(n)]: the loop [for (i = 0; i < n; i++)] runs [max 0 n]
    times. *)
Definition rotateN (p : HexPosition) (n : Z) : HexPosition :=
  Nat.iter (Z.to_nat n) rotate60CCW p.

End Hex.

(** [HexDirection] and [HEX_DIRECTIONS = Object.values(HexDirection)]. *)
Module HexDirection.
Definition EAST      := mkHex 1 0.
Definition NORTHEAST := mkHex 1 (-1).
Definition NORTHWEST := mkHex 0 (-1).
Definition WEST      := mkHex (-1) 0.
Definition SOUTHWEST := mkHex (-1) 1.
Definition SOUTHEAST := mkHex 0 1.
End HexDirection.

Definition HEX_DIRECTIONS : list HexPosition :=
[ HexDirection.EAST; HexDirection.NORTHEAST; HexDirection.NORTHWEST;
  HexDirection.WEST; HexDirection.SOUTHWEST; HexDirection.SOUTHEAST ].

(* ====================================================================== *)
(** ** core/types.js : match phase, move records, events *)
(* ====================================================================== *)

Inductive MatchPhase := WaitingToStart | InProgress | GameOver.

(** The [type] field of a MoveInfo: ['move'] or ['jump']. *)
Inductive MoveType := move | jump.

Global Instance MoveType_eq_dec : EqDecision MoveType.
Proof. solve_decision. Defined.

Record MoveInfo := mkMove {
  targetPos : HexPosition;
  type : MoveType;
  jumpPath : list HexPosition
}.

Global Instance MoveInfo_eq_dec : EqDecision MoveInfo.
Proof. solve_decision. Defined.

(** [createSimpleMove(targetPos)] *)
Definition createSimpleMove (targetPos : HexPosition) : MoveInfo :=
  mkMove targetPos move [].

(** [createJumpMove(targetPos, jumpPath)] *)
Definition createJumpMove (targetPos : HexPosition)
    (jumpPath : list HexPosition) : MoveInfo :=
  mkMove targetPos jump jumpPath.

(** JavaScript array indexing by a number: [undefined] outside the array. *)
Definition js_index {A} (l : list A) (i : Z) : option A :=
  if 0 <=? i then l !! Z.to_nat i else None.

(* ====================================================================== *)
(** ** actors : Piece and BoardCell *)
(* ====================================================================== *)

(** The [isVisible] flag that both classes inherit from [Actor] is only
    read by the renderer and is left out. *)
Module Piece.

Record t := mk {
  position : HexPosition;
  ownerPlayerIndex : Z;
  isSelected : bool
}.

(** [constructor(position, ownerPlayerIndex)] *)
Definition new (position : HexPosition) (ownerPlayerIndex : Z) : t :=
  mk position ownerPlayerIndex false.

Definition getPosition (p : t) : HexPosition := position p.

Definition setPosition (p : t) (pos : HexPosition) : t :=
  mk pos (ownerPlayerIndex p) (isSelected p).

Definition getOwnerPlayerIndex (p : t) : Z := ownerPlayerIndex p.

Definition belongsTo (p : t) (playerIndex : Z) : bool :=
  ownerPlayerIndex p =? playerIndex.

End Piece.

Module BoardCell.

Record t := mk {
  position : HexPosition;
  homeIndex : Z;
  piece : option Piece.t
}.

(** [constructor(position, homeIndex = -1)] *)
Definition new (position : HexPosition) (homeIndex : Z) : t :=
  mk position homeIndex None.

Definition getHomeIndex (c : t) : Z := homeIndex c.

(** [hasPiece() { return this.piece !== null; }] *)
Definition hasPiece (c : t) : bool :=
  match piece c with Some _ => true | None => false end.

Definition getPiece (c : t) : option Piece.t := piece c.

(** [setPiece(piece)]: stores the piece and, when it is not null, moves the
    piece's own position to this cell's. *)
Definition setPiece (c : t) (p : option Piece.t) : t :=
  mk (position c) (homeIndex c)
     (match p with
      | Some pc => Some (Piece.setPosition pc (position c))
      | None => None
      end).

(** [removePiece()]: returns the piece and the emptied cell. *)
Definition removePiece (c : t) : option Piece.t * t :=
  (piece c, mk (position c) (homeIndex c) None).

End BoardCell.

(** Payloads of the three named events of the game state. *)
Inductive GameEvent :=
| pieceMoved (from to : HexPosition) (piece : Piece.t)
| turnChanged (playerIndex : option Z)
| stateReset.

(* ====================================================================== *)
(** ** core/config.js : TriangleGenerator and GameConfig *)
(* ====================================================================== *)

Module TriangleGenerator.

Definition baseTriangle : list HexPosition :=
  [ mkHex 4 (-8);
    mkHex 3 (-7); mkHex 4 (-7);
    mkHex 2 (-6); mkHex 3 (-6); mkHex 4 (-6);
    mkHex 1 (-5); mkHex 2 (-5); mkHex 3 (-5); mkHex 4 (-5) ].

(** [generateTriangle(rotationCount)]; JavaScript's [%] truncates, as
    [Z.rem] does. *)
Definition generateTriangle (rotationCount : Z) : list HexPosition :=
  let ccwRotation := Z.rem (6 - rotationCount) 6 in
  map (fun pos => Hex.rotateN pos ccwRotation) baseTriangle.

(** [generateAllTriangles()] *)
Definition generateAllTriangles : list (list HexPosition) :=
  map generateTriangle [0; 1; 2; 3; 4; 5].

End TriangleGenerator.

Module GameConfig.

(** [getPlayerTriangleIndices(playerCount)] *)
Definition getPlayerTriangleIndices (playerCount : Z) : list Z :=
  if playerCount =? 2 then [0; 3]
  else if playerCount =? 3 then [1; 3; 5]
  else if playerCount =? 4 then [0; 1; 3; 4]
  else if playerCount =? 5 then [0; 1; 2; 3; 4]
  else [0; 1; 2; 3; 4; 5].

(** [getGoalTriangleIndex(homeIndex)] *)
Definition getGoalTriangleIndex (homeIndex : Z) : Z :=
  Z.rem (homeIndex + 3) 6.

Definition clockwiseFrom6 : list Z := [3; 4; 5; 0; 1; 2].

(** [Array.prototype.includes] on numbers. *)
Definition includes (l : list Z) (x : Z) : bool :=
  existsb (Z.eqb x) l.

(** [getTurnOrder(playerIndices)] *)
Definition getTurnOrder (playerIndices : list Z) : list Z :=
  List.filter (fun idx => includes playerIndices idx) clockwiseFrom6.

End GameConfig.

(* ====================================================================== *)
(** ** game/PlayerState.js (state part) *)
(* ====================================================================== *)

Module PlayerState.

(** The display properties read from the style sheet (colour name, colour,
    wood tint) carry no rule and are left out. *)
Record t := mk {
  playerIndex : Z;
  homeTriangleIndex : Z;
  goalTriangleIndex : Z;
  piecePositions : gset string
}.

(** [constructor(playerIndex, homeTriangleIndex)], for a home triangle
    index from 0 to 5: the constructor reads the display properties from
    a table of six entries and throws for any other index. The set-up of
    a game passes the indices of [getPlayerTriangleIndices] only. *)
Definition new (playerIndex homeTriangleIndex : Z) : t :=
  mk playerIndex homeTriangleIndex
     (GameConfig.getGoalTriangleIndex homeTriangleIndex) ∅.

(** [addPiecePosition(positionKey)] *)
Definition addPiecePosition (p : t) (positionKey : string) : t :=
  mk (playerIndex p) (homeTriangleIndex p) (goalTriangleIndex p)
     ({[positionKey]} ∪ piecePositions p).

(** [removePiecePosition(positionKey)] *)
Definition removePiecePosition (p : t) (positionKey : string) : t :=
  mk (playerIndex p) (homeTriangleIndex p) (goalTriangleIndex p)
     (piecePositions p ∖ {[positionKey]}).

(** [updatePiecePosition(fromKey, toKey)]: delete, then add. *)
Definition updatePiecePosition (p : t) (fromKey toKey : string) : t :=
  addPiecePosition (removePiecePosition p fromKey) toKey.

End PlayerState.

(* ====================================================================== *)
(** ** game/GameState.js *)
(* ====================================================================== *)

Record GameState := mkGameState {
  board : gmap string BoardCell.t;
  players : list PlayerState.t;
  turnIndex : Z;
  turnOrder : list Z;
  matchPhase : MatchPhase;
  homeSpaces : list (list HexPosition);
  events : list GameEvent
}.

Module GS.

(** [constructor()] *)
Definition new : GameState :=
  mkGameState ∅ [] 0 [] WaitingToStart
    TriangleGenerator.generateAllTriangles [].

Definition set_board (gs : GameState) (b : gmap string BoardCell.t) :=
  mkGameState b (players gs) (turnIndex gs) (turnOrder gs) (matchPhase gs)
    (homeSpaces gs) (events gs).

Definition set_players (gs : GameState) (ps : list PlayerState.t) :=
  mkGameState (board gs) ps (turnIndex gs) (turnOrder gs) (matchPhase gs)
    (homeSpaces gs) (events gs).

Definition set_turnOrder (gs : GameState) (o : list Z) :=
  mkGameState (board gs) (players gs) (turnIndex gs) o (matchPhase gs)
    (homeSpaces gs) (events gs).

Definition set_matchPhase (gs : GameState) (ph : MatchPhase) :=
  mkGameState (board gs) (players gs) (turnIndex gs) (turnOrder gs) ph
    (homeSpaces gs) (events gs).

(** [this.events.emit(event, data)], observed as a log. *)
Definition emit (gs : GameState) (e : GameEvent) :=
  mkGameState (board gs) (players gs) (turnIndex gs) (turnOrder gs)
    (matchPhase gs) (homeSpaces gs) (events gs ++ [e]).

(** [getBoardCell(pos) { return this.board.get(pos.key) || null; }] *)
Definition getBoardCell (gs : GameState) (pos : HexPosition)
  : option BoardCell.t :=
  board gs !! Hex.key pos.

(** [getPieceAt(pos)] *)
Definition getPieceAt (gs : GameState) (pos : HexPosition)
  : option Piece.t :=
  match getBoardCell gs pos with
  | Some cell => BoardCell.getPiece cell
  | None => None
  end.

(** [isPositionOnBoard(pos) { return this.board.has(pos.key); }] *)
Definition isPositionOnBoard (gs : GameState) (pos : HexPosition) : bool :=
  bool_decide (is_Some (board gs !! Hex.key pos)).

(** [isPositionOccupied(pos)] *)
Definition isPositionOccupied (gs : GameState) (pos : HexPosition) : bool :=
  match getBoardCell gs pos with
  | Some cell => BoardCell.hasPiece cell
  | None => false
  end.

(** [this.players.find(p => p.homeTriangleIndex === owner)], with the index
    of the player found, since that player object is then updated in
    place. *)
Definition findPlayer (gs : GameState) (owner : Z)
  : option (nat * PlayerState.t) :=
  list_find (fun p => PlayerState.homeTriangleIndex p = owner) (players gs).

(** [movePiece(fromPos, toPos)]: the returned boolean and the state after
    the call. *)
Definition movePiece (gs : GameState) (fromPos toPos : HexPosition)
  : bool * GameState :=
  match getBoardCell gs fromPos, getBoardCell gs toPos with
  | Some fromCell, Some toCell =>
      if negb (BoardCell.hasPiece fromCell) || BoardCell.hasPiece toCell
      then (false, gs)
      else
        let '(piece, fromCell') := BoardCell.removePiece fromCell in
        let toCell' := BoardCell.setPiece toCell piece in
        let gs1 :=
          set_board gs (<[Hex.key toPos := toCell']>
                          (<[Hex.key fromPos := fromCell']> (board gs))) in
        match BoardCell.getPiece toCell' with
        | Some piece' =>
            let gs2 :=
              match findPlayer gs1 (Piece.getOwnerPlayerIndex piece') with
              | Some (i, player) =>
                  set_players gs1
                    (<[i := PlayerState.updatePiecePosition player
                              (Hex.key fromPos) (Hex.key toPos)]>
                       (players gs1))
              | None => gs1
              end in
            (true, emit gs2 (pieceMoved fromPos toPos piece'))
        | None => (false, gs) (* not reached: fromCell holds a piece *)
        end
  | _, _ => (false, gs)
  end.

(** [placePiece(pos, piece)] *)
Definition placePiece (gs : GameState) (pos : HexPosition)
    (piece : Piece.t) : GameState :=
  match getBoardCell gs pos with
  | Some cell =>
      set_board gs
        (<[Hex.key pos := BoardCell.setPiece cell (Some piece)]> (board gs))
  | None => gs
  end.

(** [removePieceAt(pos)] *)
Definition removePieceAt (gs : GameState) (pos : HexPosition)
  : option Piece.t * GameState :=
  match getBoardCell gs pos with
  | Some cell =>
      let '(piece, cell') := BoardCell.removePiece cell in
      (piece, set_board gs (<[Hex.key pos := cell']> (board gs)))
  | None => (None, gs)
  end.

(** The cells of the central hexagon, in the order the two nested loops of
    [initializeBoard] visit them. *)
Definition centerPositions : list HexPosition :=
  qv ← seqZ (-4) 9;
  rv ← seqZ (-4) 9;
  let s := - qv - rv in
  if Z.abs s <=? 4 then [mkHex qv rv] else [].

(** [this.board.set(pos.key, new BoardCell(pos, homeIndex))] *)
Definition setCell (homeIndex : Z) (b : gmap string BoardCell.t)
    (pos : HexPosition) : gmap string BoardCell.t :=
  <[Hex.key pos := BoardCell.new pos homeIndex]> b.

(** [initializeBoard()] *)
Definition initializeBoard (gs : GameState) : GameState :=
  let centre := foldl (setCell (-1)) ∅ centerPositions in
  let withTriangles :=
    foldl (fun b '(triangleIndex, triangle) =>
             foldl (setCell (Z.of_nat triangleIndex)) b triangle)
          centre (imap pair (homeSpaces gs)) in
  set_board gs withTriangles.

(** [getTrianglePositions(triangleIndex)] *)
Definition getTrianglePositions (gs : GameState) (triangleIndex : Z)
  : option (list HexPosition) :=
  js_index (homeSpaces gs) triangleIndex.

(** [reset()] *)
Definition reset (gs : GameState) : GameState :=
  emit
    (mkGameState (snd ∘ BoardCell.removePiece <$> board gs) [] 0 []
       WaitingToStart (homeSpaces gs) (events gs))
    stateReset.

Definition set_turnIndex (gs : GameState) (i : Z) :=
  mkGameState (board gs) (players gs) i (turnOrder gs) (matchPhase gs)
    (homeSpaces gs) (events gs).

Definition set_events (gs : GameState) (log : list GameEvent) :=
  mkGameState (board gs) (players gs) (turnIndex gs) (turnOrder gs)
    (matchPhase gs) (homeSpaces gs) log.

(** [get currentPlayerIndex() { return this.turnOrder[this.turnIndex]; }];
    [None] is [undefined]. *)
Definition currentPlayerIndex (gs : GameState) : option Z :=
  js_index (turnOrder gs) (turnIndex gs).

(** [getCurrentPlayer()]: an undefined triangle index equals no player's
    home index, so [find] returns [undefined]. *)
Definition getCurrentPlayer (gs : GameState) : option PlayerState.t :=
  triangleIndex ← currentPlayerIndex gs;
  List.find (fun p => PlayerState.homeTriangleIndex p =? triangleIndex)
    (players gs).

(** [nextTurn()]. With an empty turn order [(turnIndex + 1) % 0] is NaN,
    which is no integer: that call has no result here. *)
Definition nextTurn (gs : GameState) : option GameState :=
  let n := Z.of_nat (length (turnOrder gs)) in
  if n =? 0 then None
  else
    let gs1 := set_turnIndex gs (Z.rem (turnIndex gs + 1) n) in
    Some (emit gs1 (turnChanged (currentPlayerIndex gs1))).

(** [getHomeIndex(pos)] *)
Definition getHomeIndex (gs : GameState) (pos : HexPosition) : Z :=
  match getBoardCell gs pos with
  | Some cell => BoardCell.getHomeIndex cell
  | None => -1
  end.

End GS.

(** [PlayerState.hasWon(gameState)]. The loop over the goal triangle. *)
Fixpoint hasWon_loop (gs : GameState) (homeTriangleIndex : Z)
    (goalTriangle : list HexPosition) : bool :=
  match goalTriangle with
  | [] => true
  | pos :: rest =>
      match GS.getBoardCell gs pos with
      | None => false
      | Some cell =>
          if negb (BoardCell.hasPiece cell) then false
          else
            match BoardCell.getPiece cell with
            | Some piece =>
                if negb (Piece.getOwnerPlayerIndex piece
                           =? homeTriangleIndex)
                then false
                else hasWon_loop gs homeTriangleIndex rest
            | None => false (* not reached: the cell has a piece *)
            end
      end
  end.

(** [hasWon(gameState)]; [None] is the TypeError of iterating an undefined
    goal triangle. *)
Definition hasWon (p : PlayerState.t) (gs : GameState) : option bool :=
  goalTriangle ← GS.getTrianglePositions gs (PlayerState.goalTriangleIndex p);
  Some (hasWon_loop gs (PlayerState.homeTriangleIndex p) goalTriangle).

(* ====================================================================== *)
(** ** game/MoveCalculator.js *)
(* ====================================================================== *)

(** The two accumulators threaded through the search: the [visited] set of
    position keys and the [moves] array. Both are mutated in place by the
    source; here every call returns them. *)
Definition SearchState : Type := gset string * list MoveInfo.

(** A call that may run out of recursion budget returns [None]. *)
Definition SearchResult : Type := option SearchState.

Section ForEach.

Context {A : Type} (body : A → SearchState → SearchResult).

(** [array.forEach(x => body)] with the accumulators threaded through. *)
Fixpoint forEach (l : list A) (st : SearchState) : SearchResult :=
  match l with
  | [] => Some st
  | x :: l' =>
      match body x st with
      | Some st' => forEach l' st'
      | None => None
      end
  end.

End ForEach.

Section CheckJump.

Variable gs : GameState.

(** The recursive call [this._findMoves(startPos, checkPos, true, newPath,
    visited, moves)] made from inside the scan. *)
Variable findMoves_rec :
  HexPosition → HexPosition → bool → list HexPosition →
  SearchState → SearchResult.

Variables (startPos currentPos dir : HexPosition).
Variable currentPath : list HexPosition.

(** The body of [while (distance <= limit)]: [n] counts the iterations that
    are left, so that [distance + n = limit + 1] throughout. [break] and the
    normal exit both return the accumulators. *)
Fixpoint jumpScan (n : nat) (distance : Z) (foundPiece : bool)
    (pieceDistance : Z) (st : SearchState) : SearchResult :=
  match n with
  | O => Some st
  | S n' =>
      let checkPos := Hex.add currentPos (Hex.scale dir distance) in
      if negb (GS.isPositionOnBoard gs checkPos) then Some st
      else
        let isOccupied := GS.isPositionOccupied gs checkPos in
        if negb foundPiece then
          if isOccupied then
            if Hex.equals checkPos startPos then Some st
            else jumpScan n' (distance + 1) true distance st
          else jumpScan n' (distance + 1) foundPiece pieceDistance st
        else
          if isOccupied then Some st
          else if distance =? pieceDistance * 2 then
            if negb (bool_decide (Hex.key checkPos ∈ st.1)) then
              let newPath := currentPath ++ [checkPos] in
              findMoves_rec startPos checkPos true newPath
                (st.1, st.2 ++ [createJumpMove checkPos newPath])
            else Some st
          else jumpScan n' (distance + 1) foundPiece pieceDistance st
  end.

(** The scan with the loop bound as a parameter: distances [1 .. limit]. *)
Definition checkJumpWithin (limit : nat) (st : SearchState) : SearchResult :=
  jumpScan limit 1 false 0 st.

(** [_checkJumpInDirection(startPos, currentPos, dir, currentPath, visited,
    moves)]: [let distance = 1; while (distance <= 16) ...]. *)
Definition _checkJumpInDirection (st : SearchState) : SearchResult :=
  checkJumpWithin 16 st.

End CheckJump.

Section FindMoves.

Variable gs : GameState.

(** The step check at the head of the [forEach] body of [_findMoves]. *)
Definition stepCheck (currentPos dir : HexPosition) (hasJumped : bool)
    (st : SearchState) : SearchState :=
  let adjPos := Hex.add currentPos dir in
  if GS.isPositionOnBoard gs adjPos then
    if negb (GS.isPositionOccupied gs adjPos) && negb hasJumped
    then (st.1, st.2 ++ [createSimpleMove adjPos])
    else st
  else st.

(** [_findMoves(startPos, currentPos, hasJumped, currentPath, visited,
    moves)], with the scan's loop bound as parameter [limit]. [fuel] bounds
    the depth of the recursion. *)
Fixpoint findMovesWithin (limit : nat) (fuel : nat)
    (startPos currentPos : HexPosition) (hasJumped : bool)
    (currentPath : list HexPosition) (st : SearchState) : SearchResult :=
  match fuel with
  | O => None
  | S fuel' =>
      if bool_decide (Hex.key currentPos ∈ st.1) then Some st
      else
        forEach
          (fun dir st' =>
             checkJumpWithin gs (findMovesWithin limit fuel')
               startPos currentPos dir currentPath limit
               (stepCheck currentPos dir hasJumped st'))
          HEX_DIRECTIONS
          ({[Hex.key currentPos]} ∪ st.1, st.2)
  end.

(** [_findMoves] of the source: the scan is bounded by 16. *)
Definition _findMoves := findMovesWithin 16.

(** The recursion never goes deeper than one call for the start position
    and one for every board cell. *)
Definition searchDepth : nat := S (size (board gs)).

(** [findValidMoves(startPos)] *)
Definition findValidMoves (startPos : HexPosition)
  : option (list MoveInfo) :=
  snd <$> _findMoves searchDepth startPos startPos false [] (∅, []).

(** [isValidMove(fromPos, toPos)] *)
Definition isValidMove (fromPos toPos : HexPosition)
  : option (option MoveInfo) :=
  validMoves ← findValidMoves fromPos;
  Some (List.find (fun m => Hex.equals (targetPos m) toPos) validMoves).

End FindMoves.

(* ====================================================================== *)
(** ** game/GameMode.js (rules part) *)
(* ====================================================================== *)

Module GameMode.

(** [this.homeSpaces], set once by the constructor. *)
Definition homeSpaces : list (list HexPosition) :=
  TriangleGenerator.generateAllTriangles.

(** One round of the loop of [spawnPiecesForPlayer]: a new piece is placed
    and its key is added to the player object, which is entry [i] of the
    player list. *)
Definition spawnPiece (i : nat) (home : Z) (gs : GameState)
    (pos : HexPosition) : GameState :=
  let piece := Piece.new pos home in
  let gs1 := GS.placePiece gs pos piece in
  match players gs1 !! i with
  | Some playerState =>
      GS.set_players gs1
        (<[i := PlayerState.addPiecePosition playerState (Hex.key pos)]>
           (players gs1))
  | None => gs1
  end.

(** [spawnPiecesForPlayer(playerState)] for the player at entry [i];
    [None] is the TypeError of [undefined.forEach]. *)
Definition spawnPiecesForPlayer (gs : GameState) (i : nat)
  : option GameState :=
  playerState ← players gs !! i;
  let home := PlayerState.homeTriangleIndex playerState in
  homeTriangle ← js_index homeSpaces home;
  Some (foldl (spawnPiece i home) gs homeTriangle).

(** [initGame(playerCount)] *)
Definition initGame (gs : GameState) (playerCount : Z)
  : option GameState :=
  let gs1 := GS.initializeBoard (GS.reset gs) in
  let triangleIndices := GameConfig.getPlayerTriangleIndices playerCount in
  let gs2 :=
    GS.set_players gs1
      (players gs1 ++
       imap (fun playerIndex triangleIndex =>
               PlayerState.new (Z.of_nat playerIndex) triangleIndex)
            triangleIndices) in
  let gs3 := GS.set_turnOrder gs2 (GameConfig.getTurnOrder triangleIndices) in
  gs4 ← foldl (fun acc i => acc ≫= fun g => spawnPiecesForPlayer g i)
          (Some gs3) (seq 0 (length (players gs3)));
  Some (GS.set_matchPhase gs4 InProgress).

(** [checkWinCondition()]: the first player of the list who has won. *)
Fixpoint checkWinCondition_loop (gs : GameState)
    (ps : list PlayerState.t) : option (option PlayerState.t) :=
  match ps with
  | [] => Some None
  | playerState :: rest =>
      won ← hasWon playerState gs;
      if won : bool then Some (Some playerState)
      else checkWinCondition_loop gs rest
  end.

Definition checkWinCondition (gs : GameState)
  : option (option PlayerState.t) :=
  checkWinCondition_loop gs (players gs).

(** [endMatch(winner)]: the phase change; the redraw and the delayed alert
    are left to the presentation. *)
Definition endMatch (gs : GameState) (winner : PlayerState.t) : GameState :=
  GS.set_matchPhase gs GameOver.

(** [resetGame()], as far as the game state goes. *)
Definition resetGame (gs : GameState) : option GameState :=
  let playerCount := Z.of_nat (length (players gs)) in
  initGame gs (if 0 <? playerCount then playerCount else 2).

(** [setPlayerCount(count)], as far as the game state goes. *)
Definition setPlayerCount (gs : GameState) (count : Z) : option GameState :=
  initGame gs count.

(** [getValidMovesForPiece(piece)] *)
Definition getValidMovesForPiece (gs : GameState) (piece : Piece.t)
  : option (list MoveInfo) :=
  findValidMoves gs (Piece.getPosition piece).

(** [validateMove(fromPos, toPos)] *)
Definition validateMove (gs : GameState) (fromPos toPos : HexPosition)
  : option (option MoveInfo) :=
  isValidMove gs fromPos toPos.

(** [executeMove(fromPos, toPos)] *)
Definition executeMove (gs : GameState) (fromPos toPos : HexPosition)
  : bool * GameState :=
  GS.movePiece gs fromPos toPos.

(** [advanceTurn()] *)
Definition advanceTurn (gs : GameState) : option GameState :=
  GS.nextTurn gs.

End GameMode.

(* ====================================================================== *)
(** ** game/PlayerController.js *)
(* ====================================================================== *)

Module PlayerController.

(** [onMoveComplete()]: the turn advances, then the win condition is
    checked and the match ended if somebody has won. *)
Definition onMoveComplete (gs : GameState) : option GameState :=
  gs1 ← GameMode.advanceTurn gs;
  result ← GameMode.checkWinCondition gs1;
  match result with
  | Some winner => Some (GameMode.endMatch gs1 winner)
  | None => Some gs1
  end.

(** [executeSimpleMove(fromPos, toPos)]: the result of [executeMove] is not
    looked at. *)
Definition executeSimpleMove (gs : GameState) (fromPos toPos : HexPosition)
  : option GameState :=
  onMoveComplete (GameMode.executeMove gs fromPos toPos).2.

(** [executeJumpMove(fromPos, toPos, piece, jumpPath)] up to the start of
    the animation: the piece is taken off the board. The flag is
    [isAnimating]. *)
Definition executeJumpMove_start (gs : GameState) (fromPos : HexPosition)
  : bool * GameState :=
  (true, (GS.removePieceAt gs fromPos).2).

(** The completion callback of the animation, before [onMoveComplete]:
    the piece is put on its destination and the owner's key set updated. *)
Definition executeJumpMove_land (gs : GameState)
    (fromPos toPos : HexPosition) (piece : Piece.t) : bool * GameState :=
  let gs1 := GS.placePiece gs toPos piece in
  let gs2 :=
    match GS.findPlayer gs1 (Piece.getOwnerPlayerIndex piece) with
    | Some (i, player) =>
        GS.set_players gs1
          (<[i := PlayerState.updatePiecePosition player
                    (Hex.key fromPos) (Hex.key toPos)]> (players gs1))
    | None => gs1
    end in
  (false, gs2).

(** The whole completion callback. *)
Definition executeJumpMove_done (gs : GameState)
    (fromPos toPos : HexPosition) (piece : Piece.t)
  : option (bool * GameState) :=
  let '(isAnimating, gs1) := executeJumpMove_land gs fromPos toPos piece in
  gs2 ← onMoveComplete gs1;
  Some (isAnimating, gs2).

(** The controller's own fields. A reference to a [Piece] object that sits
    on the board is modelled by the position of the cell that holds the
    object: [selectedPiece] is that position, and what the source reads
    from or writes to the selected piece is read from or written to the
    piece in that cell. *)
Record t := mk {
  selectedPiece : option HexPosition;
  validMoves : list MoveInfo;
  isAnimating : bool
}.

(** [constructor(gameMode, renderer)] *)
Definition new : t := mk None [] false.

(** What the completion callback of an animation has captured: [fromPos],
    [toPos] and [piece]. *)
Definition Callback : Type := HexPosition * HexPosition * Piece.t.

(** [piece.select()] and [piece.deselect()] as they change a piece. *)
Definition flagged (piece : Piece.t) (flag : bool) : Piece.t :=
  Piece.mk (Piece.position piece) (Piece.ownerPlayerIndex piece) flag.

(** [piece.select()] and [piece.deselect()] for the piece object in the
    cell at [loc]. *)
Definition setSelected (gs : GameState) (loc : HexPosition) (flag : bool)
  : GameState :=
  match GS.getBoardCell gs loc with
  | Some cell =>
      match BoardCell.piece cell with
      | Some piece =>
          GS.set_board gs
            (<[Hex.key loc :=
                 BoardCell.mk (BoardCell.position cell)
                   (BoardCell.homeIndex cell) (Some (flagged piece flag))]>
               (board gs))
      | None => gs
      end
  | None => gs
  end.

(** [if (this.selectedPiece) this.selectedPiece.deselect()] *)
Definition deselectOld (gs : GameState) (c : t) : GameState :=
  match selectedPiece c with
  | Some old => setSelected gs old false
  | None => gs
  end.

(** [selectPiece(piece)] for the piece object in the cell at [loc], of
    which [piece] is the value read there. [None]: the move search ran out
    of budget. *)
Definition selectPiece (gs : GameState) (c : t) (loc : HexPosition)
    (piece : Piece.t) : option (GameState * t) :=
  let gs1 := deselectOld gs c in
  let gs2 := setSelected gs1 loc true in
  moves ← GameMode.getValidMovesForPiece gs2 (flagged piece true);
  Some (gs2, mk (Some loc) moves (isAnimating c)).

(** [deselectPiece()] *)
Definition deselectPiece (gs : GameState) (c : t) : GameState * t :=
  (deselectOld gs c, mk None [] (isAnimating c)).

(** [clickedPiece && clickedPiece.belongsTo(currentPlayerIndex)]: an
    undefined player index equals no owner. *)
Definition belongsToCurrent (gs : GameState) (piece : option Piece.t)
  : bool :=
  match piece, GS.currentPlayerIndex gs with
  | Some p, Some playerIndex => Piece.belongsTo p playerIndex
  | _, _ => false
  end.

(** [canSelectPiece(piece)] *)
Definition canSelectPiece (gs : GameState) (piece : option Piece.t) : bool :=
  belongsToCurrent gs piece.

(** [requestMove(move)]. The result is the game state, the controller and,
    when an animation was started, the completion callback handed to the
    renderer. [None] is the TypeError of a null [selectedPiece]; it also
    stands for a selected piece that is no longer in the cell where it was
    selected, which positions as references cannot follow. *)
Definition requestMove (gs : GameState) (c : t) (move : MoveInfo)
  : option (GameState * t * option Callback) :=
  sel ← selectedPiece c;
  piece ← GS.getPieceAt gs sel;
  let fromPos := Piece.getPosition piece in
  let toPos := targetPos move in
  let gs1 := setSelected gs sel false in
  match (type move, jumpPath move) with
  | (jump, _ :: _) =>
      let '(animating, gs2) := executeJumpMove_start gs1 fromPos in
      Some (gs2, mk None [] animating,
            Some (fromPos, toPos, flagged piece false))
  | _ =>
      gs2 ← executeSimpleMove gs1 fromPos toPos;
      Some (gs2, mk None [] (isAnimating c), None)
  end.

(** [handleClick(pixelX, pixelY)] from the clicked position on: the
    conversion of the pixel to [clickedPos] is the renderer's. *)
Definition handleClick (gs : GameState) (c : t) (clickedPos : HexPosition)
  : option (GameState * t * option Callback) :=
  if negb (GS.isPositionOnBoard gs clickedPos) then Some (gs, c, None)
  else
    let clickedPiece := GS.getPieceAt gs clickedPos in
    match selectedPiece c with
    | Some _ =>
        match List.find (fun m => Hex.equals (targetPos m) clickedPos)
                (validMoves c) with
        | Some found => requestMove gs c found
        | None =>
            match clickedPiece with
            | Some piece =>
                if belongsToCurrent gs clickedPiece then
                  '(gs', c') ← selectPiece gs c clickedPos piece;
                  Some (gs', c', None)
                else
                  let '(gs', c') := deselectPiece gs c in Some (gs', c', None)
            | None =>
                let '(gs', c') := deselectPiece gs c in Some (gs', c', None)
            end
        end
    | None =>
        match clickedPiece with
        | Some piece =>
            if belongsToCurrent gs clickedPiece then
              '(gs', c') ← selectPiece gs c clickedPos piece;
              Some (gs', c', None)
            else Some (gs, c, None)
        | None => Some (gs, c, None)
        end
    end.

(** [_handleClick(event)]: clicks during an animation are ignored. *)
Definition _handleClick (gs : GameState) (c : t) (clickedPos : HexPosition)
  : option (GameState * t * option Callback) :=
  if isAnimating c then Some (gs, c, None) else handleClick gs c clickedPos.

(** The completion callback of an animation, run by the renderer. *)
Definition animationDone (gs : GameState) (c : t) (callback : Callback)
  : option (GameState * t) :=
  let '(fromPos, toPos, piece) := callback in
  '(animating, gs') ← executeJumpMove_done gs fromPos toPos piece;
  Some (gs', mk (selectedPiece c) (validMoves c) animating).

(** [reset()], as [resetGame] and [setPlayerCount] call it after the new
    set-up: the piece object that was selected is not on the new board, so
    that deselecting it changes nothing there. *)
Definition reset (c : t) : t := mk None [] false.

End PlayerController.

(* ====================================================================== *)
(** ** core/types.js : EventEmitter *)
(* ====================================================================== *)

(** Callbacks are compared by identity, as a JavaScript [Set] does: they are
    taken from any type with decidable equality. A [Set] keeps insertion
    order and no duplicates; it is a list here. [emit] is observed through
    the callbacks it invokes, in order; what a callback does when invoked,
    also to the emitter itself, is outside this model. *)
Module EventEmitter.

Section Emitter.

Context {C : Type} `{EqDecision C}.

Definition t : Type := gmap string (list C).

(** [constructor()] *)
Definition new : t := ∅.

(** [Set.prototype.add] *)
Definition set_add (l : list C) (callback : C) : list C :=
  if decide (callback ∈ l) then l else l ++ [callback].

(** [Set.prototype.delete] *)
Definition set_delete (l : list C) (callback : C) : list C :=
  List.filter (fun c => negb (bool_decide (c = callback))) l.

(** [subscribe(event, callback)] *)
Definition subscribe (e : t) (event : string) (callback : C) : t :=
  let e1 := if bool_decide (is_Some (e !! event)) then e
            else <[event := []]> e in
  match e1 !! event with
  | Some l => <[event := set_add l callback]> e1
  | None => e1 (* not reached: the entry was just made *)
  end.

(** [unsubscribe(event, callback)] *)
Definition unsubscribe (e : t) (event : string) (callback : C) : t :=
  match e !! event with
  | Some l => <[event := set_delete l callback]> e
  | None => e
  end.

(** [emit(event, data)]: the callbacks invoked, in order. *)
Definition emit (e : t) (event : string) : list C :=
  match e !! event with
  | Some l => l
  | None => []
  end.

End Emitter.

End EventEmitter.

(* ====================================================================== *)
(** ** Vocabulary of the specification *)
(* ====================================================================== *)

(** The positions on which the coordinate arithmetic of the code is
    exact: both coordinates have magnitude at most 2^51, so that every sum
    of coordinates that a rotation or an addition forms stays within 2^53,
    where a double holds every integer. *)
Definition exactRange (p : HexPosition) : Prop :=
  Z.abs (q p) ≤ 2 ^ 51 ∧ Z.abs (r p) ≤ 2 ^ 51.

(** Both coordinates of [p] and their sum have magnitude at most
    [bound]: the greatest of the three is the distance of [p] from the
    centre. *)
Definition within (bound : Z) (p : HexPosition) : Prop :=
  Z.abs (q p) ≤ bound ∧ Z.abs (r p) ≤ bound ∧ Z.abs (q p + r p) ≤ bound.

(** Characters of a string, and the separator of a key. *)
Fixpoint chars (s : string) : list ascii :=
  match s with
  | EmptyString => []
  | String c s' => c :: chars s'
  end.

Definition comma : ascii := ","%char.

(** The cell at [distance] from [currentPos] along [dir], as the scan
    computes it: [currentPos.add(dir.scale(distance))]. *)
Definition cellAt (currentPos dir : HexPosition) (distance : Z)
  : HexPosition :=
  Hex.add currentPos (Hex.scale dir distance).

Definition onBoard (gs : GameState) (p : HexPosition) : Prop :=
  GS.isPositionOnBoard gs p = true.

Definition occupied (gs : GameState) (p : HexPosition) : Prop :=
  GS.isPositionOccupied gs p = true.

Definition unoccupied (gs : GameState) (p : HexPosition) : Prop :=
  GS.isPositionOccupied gs p = false.

(** The cells at distances [a .. b-1] are all on the board and empty. *)
Definition clearRun (gs : GameState) (P D : HexPosition) (a b : Z) : Prop :=
  ∀ k, a ≤ k < b → onBoard gs (cellAt P D k) ∧ unoccupied gs (cellAt P D k).

(** What the scan finds by itself, whatever the visited set: a pivot at
    distance [d] and a free landing at [2d], within the loop bound. *)
Definition pivotAndLanding (gs : GameState) (startPos P D : HexPosition)
    (limit : nat) (d : Z) : Prop :=
  1 ≤ d ∧ 2 * d ≤ Z.of_nat limit ∧
  clearRun gs P D 1 d ∧
  onBoard gs (cellAt P D d) ∧ occupied gs (cellAt P D d) ∧
  cellAt P D d ≠ startPos ∧
  clearRun gs P D (d + 1) (2 * d + 1).

(** The legality of a jump over a pivot at distance [d], in the words of
    the specification. *)
Definition jumpLegal (gs : GameState) (startPos P D : HexPosition)
    (visited : gset string) (d : Z) : Prop :=
  1 ≤ d ∧
  (∀ k, 1 ≤ k < d →
        onBoard gs (cellAt P D k) ∧ unoccupied gs (cellAt P D k)) ∧
  onBoard gs (cellAt P D d) ∧ occupied gs (cellAt P D d) ∧
  cellAt P D d ≠ startPos ∧
  (∀ k, d < k < 2 * d → unoccupied gs (cellAt P D k)) ∧
  onBoard gs (cellAt P D (2 * d)) ∧ unoccupied gs (cellAt P D (2 * d)) ∧
  Hex.key (cellAt P D (2 * d)) ∉ visited.

(** The scan from [P] along [D] records, as its first new move, the jump
    landing at distance [2d]. *)
Definition jumpRecorded (P D : HexPosition) (path : list HexPosition)
    (d : Z) (st st' : SearchState) : Prop :=
  ∃ rest,
    st'.2 = st.2 ++
      createJumpMove (cellAt P D (2 * d)) (path ++ [cellAt P D (2 * d)])
      :: rest.

(** The distance at which the scan reaches its landing branch, if it does:
    the loop of [jumpScan] without the accumulators. *)
Fixpoint landingDistance (gs : GameState) (startPos P D : HexPosition)
    (n : nat) (distance : Z) (foundPiece : bool) (pieceDistance : Z)
  : option Z :=
  match n with
  | O => None
  | S n' =>
      let checkPos := cellAt P D distance in
      if negb (GS.isPositionOnBoard gs checkPos) then None
      else if negb foundPiece then
        if GS.isPositionOccupied gs checkPos then
          if Hex.equals checkPos startPos then None
          else landingDistance gs startPos P D n' (distance + 1) true distance
        else landingDistance gs startPos P D n' (distance + 1)
               foundPiece pieceDistance
      else if GS.isPositionOccupied gs checkPos then None
      else if distance =? pieceDistance * 2 then Some distance
      else landingDistance gs startPos P D n' (distance + 1)
             foundPiece pieceDistance
  end.

(** What the scan does once it stands on a free landing cell. *)
Definition landOn (findMoves_rec :
      HexPosition → HexPosition → bool → list HexPosition →
      SearchState → SearchResult)
    (startPos checkPos : HexPosition) (currentPath : list HexPosition)
    (st : SearchState) : SearchResult :=
  if bool_decide (Hex.key checkPos ∈ st.1) then Some st
  else findMoves_rec startPos checkPos true (currentPath ++ [checkPos])
         (st.1, st.2 ++ [createJumpMove checkPos (currentPath ++ [checkPos])]).

(** Following the specification: the scan "outward along the direction at
    distances 1, 2, 3, ... until off-board", with no bound on the distance.
    [scanUntilOffBoard ... distance foundPiece pieceDistance st res] says
    that the scan, standing at [distance], ends with [res]. *)
Inductive scanUntilOffBoard (gs : GameState)
    (findMoves_rec : HexPosition → HexPosition → bool →
                     list HexPosition → SearchState → SearchResult)
    (startPos P D : HexPosition) (path : list HexPosition)
  : Z → bool → Z → SearchState → SearchResult → Prop :=
| scan_offBoard k found pd st :
    ¬ onBoard gs (cellAt P D k) →
    scanUntilOffBoard gs findMoves_rec startPos P D path k found pd st
      (Some st)
| scan_origin k pd st :
    onBoard gs (cellAt P D k) → occupied gs (cellAt P D k) →
    cellAt P D k = startPos →
    scanUntilOffBoard gs findMoves_rec startPos P D path k false pd st
      (Some st)
| scan_pivot k pd st res :
    onBoard gs (cellAt P D k) → occupied gs (cellAt P D k) →
    cellAt P D k ≠ startPos →
    scanUntilOffBoard gs findMoves_rec startPos P D path (k + 1) true k st
      res →
    scanUntilOffBoard gs findMoves_rec startPos P D path k false pd st res
| scan_empty k pd st res :
    onBoard gs (cellAt P D k) → unoccupied gs (cellAt P D k) →
    scanUntilOffBoard gs findMoves_rec startPos P D path (k + 1) false pd st
      res →
    scanUntilOffBoard gs findMoves_rec startPos P D path k false pd st res
| scan_blocked k pd st :
    onBoard gs (cellAt P D k) → occupied gs (cellAt P D k) →
    scanUntilOffBoard gs findMoves_rec startPos P D path k true pd st
      (Some st)
| scan_landing k pd st :
    onBoard gs (cellAt P D k) → unoccupied gs (cellAt P D k) →
    k = 2 * pd →
    scanUntilOffBoard gs findMoves_rec startPos P D path k true pd st
      (landOn findMoves_rec startPos (cellAt P D k) path st)
| scan_before_landing k pd st res :
    onBoard gs (cellAt P D k) → unoccupied gs (cellAt P D k) →
    k ≠ 2 * pd →
    scanUntilOffBoard gs findMoves_rec startPos P D path (k + 1) true pd st
      res →
    scanUntilOffBoard gs findMoves_rec startPos P D path k true pd st res.

(** The board as [initializeBoard] lays it out: 121 cells. *)
Definition starBoard : gmap string BoardCell.t :=
  board (GS.initializeBoard GS.new).

Definition starCells : list HexPosition :=
  GS.centerPositions ++ concat TriangleGenerator.generateAllTriangles.

(** The cell map of a game state of the program, with any pieces: the star
    once [initializeBoard] has run, and no cell at all before. *)
Definition realBoard (gs : GameState) : Prop :=
  dom (board gs) = dom starBoard ∨ dom (board gs) = ∅.

(** Membership of a position in a cell map. *)
Definition cellIn (b : gmap string BoardCell.t) (p : HexPosition) : bool :=
  bool_decide (is_Some (b !! Hex.key p)).

(** The first distance from [P] along [D] that leaves the cell map [b]
    (0 when there is none up to 16). *)
Definition lineEnd (b : gmap string BoardCell.t) (P D : HexPosition) : Z :=
  default 0 (List.find (fun k => negb (cellIn b (cellAt P D k))) (seqZ 1 16)).

(** The cells of [b] beyond [P] along [D] form one unbroken run that ends
    before distance 13. *)
Definition lineOk (b : gmap string BoardCell.t) (P D : HexPosition) : bool :=
  let e := lineEnd b P D in
  (1 <=? e) && (e <=? 13) &&
  forallb (fun k => Bool.eqb (cellIn b (cellAt P D k)) (k <? e)) (seqZ 1 16).

(** All lines of the star, from every cell and in every direction. *)
Definition starLinesOk : bool :=
  let b := starBoard in
  forallb (fun p => forallb (lineOk b p) HEX_DIRECTIONS) starCells.

(** Two positions that differ by an even amount in both coordinates: every
    jump keeps the piece in its parity class. *)
Definition sameParity (a b : HexPosition) : Prop :=
  ∃ i j, b = Hex.add a (mkHex (2 * i) (2 * j)).

(** Number of board cells whose key is not in the visited set: the measure
    of the search. *)
Definition unvisitedCells (gs : GameState) (visited : gset string) : nat :=
  size (dom (board gs) ∖ visited).

(** A step-move that the loop of [_findMoves] over the directions [ds] may
    have recorded at [cur]. *)
Definition stepNew (gs : GameState) (cur : HexPosition) (hasJumped : bool)
    (ds : list HexPosition) (m : MoveInfo) : Prop :=
  hasJumped = false ∧
  ∃ D, D ∈ ds ∧ m = createSimpleMove (Hex.add cur D) ∧
       onBoard gs (Hex.add cur D) ∧ unoccupied gs (Hex.add cur D).

(** A jump-move recorded while the visited set grew from [v] to [v']. *)
Definition jumpNew (cur : HexPosition) (v v' : gset string)
    (m : MoveInfo) : Prop :=
  type m = jump ∧
  (Hex.key (targetPos m) ∈ v') ∧ (Hex.key (targetPos m) ∉ v) ∧
  sameParity cur (targetPos m).

(** How the accumulators evolve over part of the exploration at [cur]. *)
Definition extends (gs : GameState) (cur : HexPosition) (hasJumped : bool)
    (ds : list HexPosition) (st st' : SearchState) : Prop :=
  st.1 ⊆ st'.1 ∧
  ∃ new,
    st'.2 = st.2 ++ new ∧
    NoDup (targetPos <$> new) ∧
    Forall (fun m => stepNew gs cur hasJumped ds m ∨ jumpNew cur st.1 st'.1 m)
      new ∧
    (∀ D, D ∈ ds → hasJumped = false →
          onBoard gs (Hex.add cur D) → unoccupied gs (Hex.add cur D) →
          createSimpleMove (Hex.add cur D) ∈ new).

(** What the loop of [_findMoves] asks of the recursive call: started on an
    unvisited board cell with at most [K] cells left to visit, it returns
    and has only recorded new jumps. *)
Definition exploresWell (gs : GameState) (K : nat)
    (findMoves_rec : HexPosition → HexPosition → bool →
                     list HexPosition → SearchState → SearchResult)
    (startPos : HexPosition) : Prop :=
  ∀ L path st,
    onBoard gs L → Hex.key L ∉ st.1 → (unvisitedCells gs st.1 ≤ K)%nat →
    ∃ st', findMoves_rec startPos L true path st = Some st' ∧
           extends gs L true HEX_DIRECTIONS ({[Hex.key L]} ∪ st.1, st.2) st'.

(** A goal cell that counts for the player whose home is [home]. *)
Definition heldBy (gs : GameState) (home : Z) (pos : HexPosition) : Prop :=
  ∃ cell piece,
    GS.getBoardCell gs pos = Some cell ∧
    BoardCell.getPiece cell = Some piece ∧
    Piece.getOwnerPlayerIndex piece = home.

(** The home-triangle indices of the players, in player-list order. *)
Definition homesOf (gs : GameState) : list Z :=
  PlayerState.homeTriangleIndex <$> players gs.

(** The opening position of a two-player game, used in the examples. *)
Definition openingState : GameState :=
  default GS.new (GameMode.initGame GS.new 2).

(** The empty star with pieces (of player 0) put on the given cells, for
    hand-built positions. *)
Definition boardWith (pieces : list HexPosition) : GameState :=
  foldl (fun g p => GS.placePiece g p (Piece.new p 0))
    (GS.initializeBoard GS.new) pieces.

(** A recursive call that never returns a result: a scan whose result does
    not depend on it did not make the call. *)
Definition noRecursion :
  HexPosition → HexPosition → bool → list HexPosition →
  SearchState → SearchResult :=
  fun _ _ _ _ _ => None.

(* ====================================================================== *)
(** ** Vocabulary of the further properties *)
(* ====================================================================== *)

(** One legal hop of the piece that started at [startPos]: from [P] over a
    pivot to the landing [L], as one scan of the source finds it. *)
Definition hop (gs : GameState) (startPos P L : HexPosition) : Prop :=
  ∃ D d, D ∈ HEX_DIRECTIONS ∧ pivotAndLanding gs startPos P D 16 d ∧
         L = cellAt P D (2 * d).

(** A path whose every leg is a legal hop, the first one leaving [from]. *)
Fixpoint hopChain (gs : GameState) (startPos from : HexPosition)
    (path : list HexPosition) : Prop :=
  match path with
  | [] => True
  | L :: rest => hop gs startPos from L ∧ hopChain gs startPos L rest
  end.

(** [L] is reached from the start by one or more legal hops. *)
Definition hopsTo (gs : GameState) (startPos L : HexPosition) : Prop :=
  ∃ path, path ≠ [] ∧ hopChain gs startPos startPos path ∧
          last path = Some L.

(** What a returned move promises about its path. *)
Definition pathSound (gs : GameState) (startPos : HexPosition)
    (m : MoveInfo) : Prop :=
  match type m with
  | move => jumpPath m = []
  | jump => jumpPath m ≠ [] ∧
            hopChain gs startPos startPos (jumpPath m) ∧
            last (jumpPath m) = Some (targetPos m)
  end.

(** A move whose target can take the piece, with a sound path. *)
Definition moveSound (gs : GameState) (startPos : HexPosition)
    (m : MoveInfo) : Prop :=
  onBoard gs (targetPos m) ∧ unoccupied gs (targetPos m) ∧
  pathSound gs startPos m.

(** The path handed to an exploration leads from the start to the position
    it explores. *)
Definition pathTo (gs : GameState) (startPos cur : HexPosition)
    (path : list HexPosition) : Prop :=
  hopChain gs startPos startPos path ∧ default startPos (last path) = cur.

(** Every cell visited between [v] and [v'] has all its hop successors in
    [v']. *)
Definition closedUnder (gs : GameState) (startPos : HexPosition)
    (v v' : gset string) : Prop :=
  ∀ P L, Hex.key P ∈ v' → Hex.key P ∉ v → hop gs startPos P L →
         Hex.key L ∈ v'.

(** Every cell visited between [v] and [v'], but for [cur], is the target
    of a recorded jump. *)
Definition jumpsRecorded (cur : HexPosition) (v v' : gset string)
    (moves : list MoveInfo) : Prop :=
  ∀ P, Hex.key P ∈ v' → Hex.key P ∉ v → P ≠ cur →
       ∃ m, m ∈ moves ∧ type m = jump ∧ targetPos m = P.

(** What an exploration of [cur] leaves behind. *)
Definition explored (gs : GameState) (startPos cur : HexPosition)
    (st st' : SearchState) : Prop :=
  st.1 ⊆ st'.1 ∧ Hex.key cur ∈ st'.1 ∧
  (∀ m, m ∈ st.2 → m ∈ st'.2) ∧
  closedUnder gs startPos st.1 st'.1 ∧
  jumpsRecorded cur st.1 st'.1 st'.2.

(** What the loop over the directions has achieved after the directions
    [ds]. *)
Definition loopExplored (gs : GameState) (startPos cur : HexPosition)
    (ds : list HexPosition) (s0 s : SearchState) : Prop :=
  s0.1 ⊆ s.1 ∧
  (∀ m, m ∈ s0.2 → m ∈ s.2) ∧
  closedUnder gs startPos s0.1 s.1 ∧
  jumpsRecorded cur s0.1 s.1 s.2 ∧
  (∀ D d, D ∈ ds → pivotAndLanding gs startPos cur D 16 d →
          Hex.key (cellAt cur D (2 * d)) ∈ s.1).

(** The key [k] names a cell that holds a piece of the player whose home is
    [home]. *)
Definition holdsPieceOf (gs : GameState) (home : Z) (k : string) : Prop :=
  ∃ cell piece,
    board gs !! k = Some cell ∧ BoardCell.piece cell = Some piece ∧
    Piece.ownerPlayerIndex piece = home.

(** The players' key sets are the index of the board that they are meant to
    be: no two players share a home, and a key is in a player's set exactly
    when its cell holds one of that player's pieces. *)
Definition consistent (gs : GameState) : Prop :=
  NoDup (homesOf gs) ∧
  ∀ p, p ∈ players gs →
    ∀ k, k ∈ PlayerState.piecePositions p ↔
         holdsPieceOf gs (PlayerState.homeTriangleIndex p) k.

(** The keys of the cells that hold a piece of [home], computed. *)
Definition ownedKeys (gs : GameState) (home : Z) : gset string :=
  dom (filter
         (fun kc : string * BoardCell.t =>
            Piece.ownerPlayerIndex <$> BoardCell.piece kc.2 = Some home)
         (board gs)).

(** [consistent], computed. *)
Definition consistentb (gs : GameState) : bool :=
  bool_decide (NoDup (homesOf gs)) &&
  forallb
    (fun p => bool_decide
                (PlayerState.piecePositions p =
                 ownedKeys gs (PlayerState.homeTriangleIndex p)))
    (players gs).

(** [k] turns in a row. *)
Fixpoint advance (k : nat) (gs : GameState) : option GameState :=
  match k with
  | O => Some gs
  | S k' => gs1 ← GS.nextTurn gs; advance k' gs1
  end.

(** The set-up of a game for a player count, from a fresh game state. *)
Definition setupFor (playerCount : Z) : GameState :=
  default GS.new (GameMode.initGame GS.new playerCount).

(** The states of a game in play: set up by [initGame] on a game state with
    the generated triangle table, then changed by what the controller and
    the game mode do to it: [movePiece], the two halves of an animated jump
    (for the piece that stands on [fromPos], to a free cell of the board, as
    [requestMove] calls it), [nextTurn] and [endMatch]. *)
Inductive played : GameState → Prop :=
| played_init gs playerCount gs' :
    homeSpaces gs = TriangleGenerator.generateAllTriangles →
    GameMode.initGame gs playerCount = Some gs' →
    played gs'
| played_move gs fromPos toPos :
    played gs → played (GS.movePiece gs fromPos toPos).2
| played_jump gs fromPos toPos piece :
    played gs →
    GS.getPieceAt gs fromPos = Some piece →
    onBoard gs toPos → unoccupied gs toPos →
    played
      (PlayerController.executeJumpMove_land
         (PlayerController.executeJumpMove_start gs fromPos).2
         fromPos toPos piece).2
| played_turn gs gs' :
    played gs → GS.nextTurn gs = Some gs' → played gs'
| played_end gs winner :
    played gs → played (GameMode.endMatch gs winner).

(** The centre of the board: the hexagon of radius 4. *)
Definition inCentre (p : HexPosition) : Prop :=
  Z.abs (q p) ≤ 4 ∧ Z.abs (r p) ≤ 4 ∧ Z.abs (- q p - r p) ≤ 4.

(** The point reflection through the centre. *)
Definition negate (p : HexPosition) : HexPosition :=
  mkHex (- q p) (- r p).

Global Instance MatchPhase_eq_dec : EqDecision MatchPhase.
Proof. solve_decision. Defined.

Global Instance Piece_eq_dec : EqDecision Piece.t.
Proof. solve_decision. Defined.

Global Instance BoardCell_eq_dec : EqDecision BoardCell.t.
Proof. solve_decision. Defined.

Global Instance PlayerState_eq_dec : EqDecision PlayerState.t.
Proof. solve_decision. Defined.

(** The player object of the player at entry [playerIndex] of the player
    list, at home in triangle [home], with all pieces on the home
    triangle. *)
Definition seatedPlayer (playerIndex : nat) (home : Z) : PlayerState.t :=
  PlayerState.mk (Z.of_nat playerIndex) home
    (GameConfig.getGoalTriangleIndex home)
    (list_to_set (Hex.key <$> TriangleGenerator.generateTriangle home)).

(** A cell as a set-up leaves it: it holds a new piece of its triangle's
    player when that triangle is the home of a player, and is empty
    otherwise. *)
Definition cellSetUp (homes : list Z) (cell : BoardCell.t) : Prop :=
  BoardCell.piece cell =
    if bool_decide (BoardCell.homeIndex cell ∈ homes)
    then Some (Piece.new (BoardCell.position cell) (BoardCell.homeIndex cell))
    else None.

Global Instance cellSetUp_dec homes cell : Decision (cellSetUp homes cell).
Proof. unfold cellSetUp. apply _. Defined.

(** The state a set-up for the home triangles [homes] leaves, but for the
    turn order and the event log. *)
Definition setUp (homes : list Z) (gs : GameState) : Prop :=
  players gs = imap seatedPlayer homes ∧
  snd ∘ BoardCell.removePiece <$> board gs = starBoard ∧
  (∀ k cell, board gs !! k = Some cell → cellSetUp homes cell) ∧
  turnIndex gs = 0 ∧ matchPhase gs = InProgress ∧
  homeSpaces gs = TriangleGenerator.generateAllTriangles.

(** [setUp], computed. *)
Definition setUpb (homes : list Z) (gs : GameState) : bool :=
  bool_decide (players gs = imap seatedPlayer homes) &&
  bool_decide (snd ∘ BoardCell.removePiece <$> board gs = starBoard) &&
  forallb (fun kc : string * BoardCell.t => bool_decide (cellSetUp homes kc.2))
    (map_to_list (board gs)) &&
  bool_decide (turnIndex gs = 0) && bool_decide (matchPhase gs = InProgress) &&
  bool_decide (homeSpaces gs = TriangleGenerator.generateAllTriangles).

(** Every cell sits under the key of its own position, and a piece knows
    the position of the cell that holds it. *)
Definition cellsCoherent (gs : GameState) : Prop :=
  ∀ k cell, board gs !! k = Some cell →
    k = Hex.key (BoardCell.position cell) ∧
    ∀ piece, BoardCell.piece cell = Some piece →
             Piece.position piece = BoardCell.position cell.

(** [cellsCoherent], computed. *)
Definition cellsCoherentb (gs : GameState) : bool :=
  forallb
    (fun kc : string * BoardCell.t =>
       bool_decide (kc.1 = Hex.key (BoardCell.position kc.2)) &&
       match BoardCell.piece kc.2 with
       | Some piece =>
           bool_decide (Piece.position piece = BoardCell.position kc.2)
       | None => true
       end)
    (map_to_list (board gs)).

(** What every state of a game in play satisfies. *)
Definition wellFormed (gs : GameState) : Prop :=
  consistent gs ∧ cellsCoherent gs ∧
  dom (board gs) = dom starBoard ∧
  homeSpaces gs = TriangleGenerator.generateAllTriangles ∧
  (∀ p, p ∈ players gs →
     size (PlayerState.piecePositions p) = 10%nat ∧
     0 ≤ PlayerState.homeTriangleIndex p ≤ 5 ∧
     PlayerState.goalTriangleIndex p =
       GameConfig.getGoalTriangleIndex (PlayerState.homeTriangleIndex p)) ∧
  homesOf gs =
    GameConfig.getPlayerTriangleIndices (Z.of_nat (length (players gs))) ∧
  turnOrder gs ≡ₚ homesOf gs ∧
  0 ≤ turnIndex gs < Z.of_nat (length (turnOrder gs)).

(** The part of [wellFormed] that a set-up is checked for by computation. *)
Definition wellFormedb (gs : GameState) : bool :=
  consistentb gs && cellsCoherentb gs &&
  forallb
    (fun p =>
       bool_decide (size (PlayerState.piecePositions p) = 10%nat) &&
       (0 <=? PlayerState.homeTriangleIndex p) &&
       (PlayerState.homeTriangleIndex p <=? 5) &&
       bool_decide (PlayerState.goalTriangleIndex p =
                    GameConfig.getGoalTriangleIndex
                      (PlayerState.homeTriangleIndex p)))
    (players gs).

(** The keys of the cells of a triangle. *)
Definition triangleKeys (triangleIndex : Z) : gset string :=
  list_to_set (Hex.key <$> TriangleGenerator.generateTriangle triangleIndex).

(** The owner of the piece on a position, if there is one. *)
Definition ownerAt (gs : GameState) (pos : HexPosition) : option Z :=
  Piece.ownerPlayerIndex <$> GS.getPieceAt gs pos.

(** A cell and what it is after pieces have been selected or deselected:
    the same cell with the same piece, but for the piece's selection
    flag. *)
Definition sameCell (cell cell' : BoardCell.t) : Prop :=
  BoardCell.position cell' = BoardCell.position cell ∧
  BoardCell.homeIndex cell' = BoardCell.homeIndex cell ∧
  match BoardCell.piece cell, BoardCell.piece cell' with
  | Some piece, Some piece' =>
      Piece.position piece' = Piece.position piece ∧
      Piece.ownerPlayerIndex piece' = Piece.ownerPlayerIndex piece
  | None, None => True
  | _, _ => False
  end.

(** Two game states that differ in the selection flags of pieces only. *)
Definition sameButFlags (gs gs' : GameState) : Prop :=
  (∀ k, match board gs !! k, board gs' !! k with
        | Some cell, Some cell' => sameCell cell cell'
        | None, None => True
        | _, _ => False
        end) ∧
  players gs' = players gs ∧ turnIndex gs' = turnIndex gs ∧
  turnOrder gs' = turnOrder gs ∧ matchPhase gs' = matchPhase gs ∧
  homeSpaces gs' = homeSpaces gs ∧ events gs' = events gs.

(** Two game states with the same cells on the board and the same cells
    occupied. *)
Definition sameOccupancy (gs gs' : GameState) : Prop :=
  ∀ p, GS.isPositionOnBoard gs' p = GS.isPositionOnBoard gs p ∧
       GS.isPositionOccupied gs' p = GS.isPositionOccupied gs p.

(** What the controller has selected is a piece of the player to move, and
    the moves it holds are the valid moves of that piece in the position as
    it is. *)
Definition selectionOk (gs : GameState) (c : PlayerController.t) : Prop :=
  match PlayerController.selectedPiece c with
  | Some loc =>
      ∃ piece, GS.getPieceAt gs loc = Some piece ∧
               GS.currentPlayerIndex gs
                 = Some (Piece.ownerPlayerIndex piece) ∧
               findValidMoves gs loc = Some (PlayerController.validMoves c)
  | None => PlayerController.validMoves c = []
  end.

(** The state of the application: the game state, the controller and the
    completion callback of the animation that runs, if one does. It starts
    as [Application.initialize] sets it up, and changes by clicks on the
    canvas, by the completion of the animation, and by the reset button and
    the player count selector while no animation runs. *)
Inductive running :
  GameState → PlayerController.t → option PlayerController.Callback → Prop :=
| running_start gs :
    GameMode.initGame GS.new 2 = Some gs →
    running gs PlayerController.new None
| running_click gs c clickedPos gs' c' callback :
    running gs c None →
    PlayerController._handleClick gs c clickedPos = Some (gs', c', callback) →
    running gs' c' callback
| running_ignored gs c callback clickedPos gs' c' started :
    running gs c (Some callback) →
    PlayerController._handleClick gs c clickedPos = Some (gs', c', started) →
    running gs' c' (Some callback)
| running_landed gs c callback gs' c' :
    running gs c (Some callback) →
    PlayerController.animationDone gs c callback = Some (gs', c') →
    running gs' c' None
| running_reset gs c gs' :
    running gs c None →
    GameMode.resetGame gs = Some gs' →
    running gs' (PlayerController.reset c) None
| running_count gs c count gs' :
    running gs c None →
    GameMode.setPlayerCount gs count = Some gs' →
    running gs' (PlayerController.reset c) None.

Global Instance GameEvent_eq_dec : EqDecision GameEvent.
Proof. solve_decision. Defined.

Global Instance GameState_eq_dec : EqDecision GameState.
Proof. solve_decision. Defined.

Global Instance Controller_eq_dec : EqDecision PlayerController.t.
Proof. solve_decision. Defined.

(** A two-player game after a click on the piece at (-2, 6), which belongs
    to the player who moves first, and after a second click on (-2, 4), to
    which that piece can jump. *)
Definition afterSelect
  : GameState * PlayerController.t * option PlayerController.Callback :=
  default (GS.new, PlayerController.new, None)
    (PlayerController._handleClick (setupFor 2) PlayerController.new
       (mkHex (-2) 6)).

Definition afterJumpClick
  : GameState * PlayerController.t * option PlayerController.Callback :=
  default (GS.new, PlayerController.new, None)
    (PlayerController._handleClick afterSelect.1.1 afterSelect.1.2
       (mkHex (-2) 4)).

(** What every state of the running application satisfies. *)
Definition appInv (gs : GameState) (c : PlayerController.t)
    (callback : option PlayerController.Callback) : Prop :=
  match callback with
  | None =>
      wellFormed gs ∧ PlayerController.isAnimating c = false ∧
      selectionOk gs c
  | Some (fromPos, toPos, piece) =>
      PlayerController.isAnimating c = true ∧
      PlayerController.selectedPiece c = None ∧
      PlayerController.validMoves c = [] ∧
      ∃ gs0 moves m,
        wellFormed gs0 ∧
        gs = (PlayerController.executeJumpMove_start gs0 fromPos).2 ∧
        GS.getPieceAt gs0 fromPos = Some piece ∧
        GS.currentPlayerIndex gs0 = Some (Piece.ownerPlayerIndex piece) ∧
        findValidMoves gs0 fromPos = Some moves ∧
        m ∈ moves ∧ targetPos m = toPos
  end.

(* ====================================================================== *)
(** ** Facts about keys *)
(* ====================================================================== *)

Section KeyFacts.

Lemma chars_app s t : chars (s +:+ t) = chars s ++ chars t.
Proof. induction s as [|c s IH]; simpl; [done | by rewrite IH]. Qed.

Lemma pretty_N_char_not_comma x : pretty_N_char x ≠ comma.
Proof. unfold pretty_N_char, comma. by repeat case_match. Qed.

Lemma pretty_N_go_no_comma x s :
  comma ∉ chars s → comma ∉ chars (pretty_N_go x s).
Proof.
  revert s. induction (N.lt_wf_0 x) as [x _ IH]; intros s Hs.
  destruct (decide (x = 0)%N) as [-> | Hx].
  - by rewrite pretty_N_go_0.
  - rewrite pretty_N_go_step by lia.
    apply IH.
    + apply N.div_lt; lia.
    + simpl. rewrite not_elem_of_cons. split; [|done].
      intros Heq. by apply (pretty_N_char_not_comma (x `mod` 10)%N).
Qed.

Lemma pretty_N_no_comma (x : N) : comma ∉ chars (pretty x).
Proof.
  unfold pretty, pretty_N. case_decide.
  - simpl. rewrite not_elem_of_cons. split; [done | apply not_elem_of_nil].
  - apply pretty_N_go_no_comma. simpl. apply not_elem_of_nil.
Qed.

Lemma pretty_Z_no_comma (x : Z) : comma ∉ chars (pretty x).
Proof.
  unfold pretty, pretty_Z. destruct x as [|p|p].
  - simpl. rewrite not_elem_of_cons. split; [done | apply not_elem_of_nil].
  - apply pretty_N_no_comma.
  - rewrite chars_app. simpl. rewrite not_elem_of_cons. split; [done|].
    apply pretty_N_no_comma.
Qed.

(** A string is split in only one way at its first comma. *)
Lemma split_at_comma s1 s2 t1 t2 :
  comma ∉ chars s1 → comma ∉ chars s2 →
  s1 +:+ String comma t1 = s2 +:+ String comma t2 →
  s1 = s2 ∧ t1 = t2.
Proof.
  revert s2. induction s1 as [|c s1 IH]; intros [|c2 s2] H1 H2 Heq;
    simpl in *.
  - by inversion Heq.
  - inversion Heq; subst. exfalso. apply H2. left.
  - inversion Heq; subst. exfalso. apply H1. left.
  - inversion Heq; subst.
    rewrite not_elem_of_cons in H1. rewrite not_elem_of_cons in H2.
    destruct (IH s2) as [-> ->]; tauto.
Qed.

(** The canonical key is lossless. *)
Lemma key_inj p1 p2 : Hex.key p1 = Hex.key p2 → p1 = p2.
Proof.
  destruct p1 as [q1 r1], p2 as [q2 r2]. unfold Hex.key. simpl. intros H.
  apply split_at_comma in H; try apply pretty_Z_no_comma.
  destruct H as [Hq Hr].
  apply (inj pretty) in Hq. apply (inj pretty) in Hr. by subst.
Qed.

Lemma key_ne p1 p2 : p1 ≠ p2 → Hex.key p1 ≠ Hex.key p2.
Proof. intros Hne Heq. by apply Hne, key_inj. Qed.

Lemma equals_true p1 p2 : Hex.equals p1 p2 = true ↔ p1 = p2.
Proof.
  destruct p1, p2. unfold Hex.equals. simpl.
  rewrite andb_true_iff, !Z.eqb_eq. split.
  - by intros [-> ->].
  - by inversion 1.
Qed.

Lemma equals_false p1 p2 : Hex.equals p1 p2 = false ↔ p1 ≠ p2.
Proof.
  rewrite <- equals_true. destruct (Hex.equals p1 p2); split; congruence.
Qed.

End KeyFacts.

(* ====================================================================== *)
(** ** Rotations and the triangle generator *)
(* ====================================================================== *)

Section Rotation.

Lemma rotate_ccw_cw p : Hex.rotate60CCW (Hex.rotate60CW p) = p.
Proof.
  destruct p as [a b]. unfold Hex.rotate60CCW, Hex.rotate60CW. simpl.
  f_equal; lia.
Qed.

Lemma rotate_cw_ccw p : Hex.rotate60CW (Hex.rotate60CCW p) = p.
Proof.
  destruct p as [a b]. unfold Hex.rotate60CCW, Hex.rotate60CW. simpl.
  f_equal; lia.
Qed.

(** Six counter-clockwise steps are a full turn. *)
Lemma rotate_ccw_six p : Nat.iter 6 Hex.rotate60CCW p = p.
Proof.
  destruct p as [a b]. simpl. unfold Hex.rotate60CCW. simpl. f_equal; lia.
Qed.

Lemma small_index (N : Z) :
  0 ≤ N ≤ 5 → N = 0 ∨ N = 1 ∨ N = 2 ∨ N = 3 ∨ N = 4 ∨ N = 5.
Proof. lia. Qed.

Lemma rotateN_inverts (N : Z) (p : HexPosition) :
  0 ≤ N ≤ 5 →
  Hex.rotateN p ((6 - N) `mod` 6) = Nat.iter (Z.to_nat N) Hex.rotate60CW p.
Proof.
  intros HN. destruct p as [a b].
  destruct (small_index N HN) as [->|[->|[->|[->|[->| ->]]]]];
    unfold Hex.rotateN; simpl;
    unfold Hex.rotate60CCW, Hex.rotate60CW; simpl; f_equal; lia.
Qed.

(** A position in the exact range lies within 2^52 of the centre, and a
    rotation, either way and any number of times, keeps a position within
    the distance it has: the rotations of a position in the exact range
    form no number beyond 2^52. *)
Lemma exactRange_within p : exactRange p → within (2 ^ 52) p.
Proof. destruct p as [a b]. unfold exactRange, within. simpl. lia. Qed.

Lemma rotate60CCW_within bound p :
  within bound p → within bound (Hex.rotate60CCW p).
Proof.
  destruct p as [a b]. unfold within, Hex.rotate60CCW. simpl. lia.
Qed.

Lemma rotate60CW_within bound p :
  within bound p → within bound (Hex.rotate60CW p).
Proof.
  destruct p as [a b]. unfold within, Hex.rotate60CW. simpl. lia.
Qed.

Lemma rotations_within bound p (j : nat) :
  within bound p →
  within bound (Nat.iter j Hex.rotate60CCW p) ∧
  within bound (Nat.iter j Hex.rotate60CW p).
Proof.
  intros Hp. induction j as [|j [IH1 IH2]]; [done|]. simpl.
  split; [by apply rotate60CCW_within | by apply rotate60CW_within].
Qed.

End Rotation.

(** C9. For a rotation count [N] in 0..5 and a position [p] whose
    coordinates have magnitude at most 2^51, where the code computes the
    rotations exactly, rotating counter-clockwise by [(6 - N) mod 6] steps
    is rotating clockwise by [N] steps; and [generateTriangle N] is a
    function of [N] alone: it is the frozen base triangle with every cell
    turned clockwise [N] times. *)
Theorem C9_ccw_by_complement_is_cw (N : Z) (p : HexPosition) :
  0 ≤ N ≤ 5 →
  (exactRange p →
     Hex.rotateN p ((6 - N) `mod` 6) =
       Nat.iter (Z.to_nat N) Hex.rotate60CW p) ∧
  TriangleGenerator.generateTriangle N =
    map (Nat.iter (Z.to_nat N) Hex.rotate60CW) TriangleGenerator.baseTriangle.
Proof.
  intros HN. split; [by intros _; apply rotateN_inverts|].
  unfold TriangleGenerator.generateTriangle.
  apply map_ext. intros pos.
  rewrite <- rotateN_inverts by done. f_equal.
  rewrite Z.rem_mod_nonneg; lia.
Qed.

Lemma C9_ccw_by_complement_is_cw_witness :
  0 ≤ 2 ≤ 5 ∧ exactRange (mkHex 4 (-8)) ∧
  Hex.rotateN (mkHex 4 (-8)) ((6 - 2) `mod` 6) =
    Nat.iter (Z.to_nat 2) Hex.rotate60CW (mkHex 4 (-8)) ∧
  TriangleGenerator.generateTriangle 2 =
    map (Nat.iter (Z.to_nat 2) Hex.rotate60CW) TriangleGenerator.baseTriangle.
Proof.
  assert (Hcount : 0 ≤ 2 ≤ 5) by lia.
  assert (Hrange : exactRange (mkHex 4 (-8))).
  { unfold exactRange. simpl. lia. }
  destruct (C9_ccw_by_complement_is_cw 2 (mkHex 4 (-8)) Hcount)
    as [Hrot Htri].
  split; [exact Hcount|]. split; [exact Hrange|].
  split; [exact (Hrot Hrange) | exact Htri].
Defined.

(* ====================================================================== *)
(** ** Win detection *)
(* ====================================================================== *)

Section Win.

Variable gs : GameState.

Lemma hasWon_loop_true home tri :
  hasWon_loop gs home tri = true ↔ Forall (heldBy gs home) tri.
Proof.
  induction tri as [|pos rest IH]; simpl.
  - split; [constructor | done].
  - rewrite Forall_cons, <- IH. unfold heldBy.
    destruct (GS.getBoardCell gs pos) as [cell|] eqn:Hcell.
    + unfold BoardCell.hasPiece, BoardCell.getPiece.
      destruct (BoardCell.piece cell) as [piece|] eqn:Hp; simpl.
      * destruct (Z.eqb_spec (Piece.getOwnerPlayerIndex piece) home)
          as [Heq|Hne]; simpl.
        -- split; [|tauto]. intros H. split; [|done].
           exists cell, piece. by rewrite Hp.
        -- split; [done|]. intros [(c & pc & Hc & Hpc & Ho) _].
           congruence.
      * split; [done|]. intros [(c & pc & Hc & Hpc & Ho) _]. congruence.
    + split; [done|]. intros [(c & pc & Hc & _) _]. congruence.
Qed.

Lemma allTriangles_index (i : Z) :
  0 ≤ i ≤ 5 →
  js_index TriangleGenerator.generateAllTriangles i =
    Some (TriangleGenerator.generateTriangle i).
Proof.
  intros Hi.
  by destruct (small_index i Hi) as [->|[->|[->|[->|[->| ->]]]]].
Qed.

Lemma generateTriangle_length i :
  length (TriangleGenerator.generateTriangle i) = 10%nat.
Proof. unfold TriangleGenerator.generateTriangle. by rewrite length_map. Qed.

Lemma goalIndex_mod home :
  0 ≤ home → GameConfig.getGoalTriangleIndex home = (home + 3) `mod` 6.
Proof.
  intros. unfold GameConfig.getGoalTriangleIndex.
  rewrite Z.rem_mod_nonneg; lia.
Qed.

End Win.

(** C6. In a game state whose triangle table is the generated one, for a
    player whose home index is in 0..5 and whose goal index was set by the
    constructor, the win check returns a boolean; it is [true] exactly when
    each of the 10 coordinates of triangle [(home + 3) mod 6] holds a cell
    with a piece owned by [home]; one goal coordinate whose cell is
    missing, empty or held by another owner makes it [false]. *)
Theorem C6_hasWon_exact (gs : GameState) (p : PlayerState.t) :
  homeSpaces gs = TriangleGenerator.generateAllTriangles →
  0 ≤ PlayerState.homeTriangleIndex p ≤ 5 →
  PlayerState.goalTriangleIndex p =
    GameConfig.getGoalTriangleIndex (PlayerState.homeTriangleIndex p) →
  let home := PlayerState.homeTriangleIndex p in
  let goal := TriangleGenerator.generateTriangle ((home + 3) `mod` 6) in
  GS.getTrianglePositions gs (PlayerState.goalTriangleIndex p) = Some goal ∧
  length goal = 10%nat ∧
  ∃ won, hasWon p gs = Some won ∧
    (won = true ↔ ∀ pos, pos ∈ goal → heldBy gs home pos) ∧
    (∀ pos, pos ∈ goal →
       GS.getBoardCell gs pos = None ∨
       (∃ cell, GS.getBoardCell gs pos = Some cell ∧
                (BoardCell.getPiece cell = None ∨
                 ∃ piece, BoardCell.getPiece cell = Some piece ∧
                          Piece.getOwnerPlayerIndex piece ≠ home)) →
       won = false).
Proof.
  intros Hspaces Hhome Hgoal home goal.
  assert (Htri : GS.getTrianglePositions gs (PlayerState.goalTriangleIndex p)
                 = Some goal).
  { unfold GS.getTrianglePositions. rewrite Hspaces, Hgoal.
    rewrite goalIndex_mod by lia.
    apply allTriangles_index.
    pose proof (Z.mod_pos_bound (home + 3) 6). subst home. lia. }
  split; [done|]. split; [apply generateTriangle_length|].
  exists (hasWon_loop gs home goal).
  split; [unfold hasWon; by rewrite Htri|].
  assert (Hiff : hasWon_loop gs home goal = true ↔
                 ∀ pos, pos ∈ goal → heldBy gs home pos).
  { by rewrite hasWon_loop_true, Forall_forall. }
  split; [done|].
  intros pos Hpos Hbad.
  destruct (hasWon_loop gs home goal) eqn:Hw; [|done].
  exfalso. destruct (proj1 Hiff eq_refl pos Hpos) as (c & pc & Hc & Hpc & Ho).
  destruct Hbad as [Hnone | (c' & Hc' & [Hempty | (pc' & Hpc' & Hne)])];
    congruence.
Qed.

Lemma C6_hasWon_exact_witness :
  homeSpaces openingState = TriangleGenerator.generateAllTriangles ∧
  0 ≤ 3 ≤ 5 ∧
  ∃ won, hasWon (PlayerState.new 1 3) openingState = Some won ∧
    (won = true ↔
     ∀ pos, pos ∈ TriangleGenerator.generateTriangle ((3 + 3) `mod` 6) →
            heldBy openingState 3 pos).
Proof.
  split; [reflexivity|]. split; [lia|].
  destruct (C6_hasWon_exact openingState (PlayerState.new 1 3))
    as (_ & _ & won & Hwon & Hiff & _).
  - reflexivity.
  - simpl. lia.
  - reflexivity.
  - exists won. split; [exact Hwon | exact Hiff].
Defined.

(* ====================================================================== *)
(** ** Relocating a piece *)
(* ====================================================================== *)

Section MovePiece.

Variable gs : GameState.

Lemma onBoard_cell pos :
  onBoard gs pos ↔ ∃ cell, GS.getBoardCell gs pos = Some cell.
Proof.
  unfold onBoard, GS.isPositionOnBoard, GS.getBoardCell.
  by rewrite bool_decide_eq_true.
Qed.

Lemma not_onBoard_cell pos :
  ¬ onBoard gs pos ↔ GS.getBoardCell gs pos = None.
Proof.
  rewrite onBoard_cell. destruct (GS.getBoardCell gs pos) as [c|].
  - split; [|done]. intros H. destruct H. eauto.
  - split; [done|]. by intros _ [c Hc].
Qed.

Lemma occupied_cell pos :
  occupied gs pos ↔
  ∃ cell piece, GS.getBoardCell gs pos = Some cell ∧
                BoardCell.piece cell = Some piece.
Proof.
  unfold occupied, GS.isPositionOccupied, BoardCell.hasPiece.
  destruct (GS.getBoardCell gs pos) as [cell|].
  - destruct (BoardCell.piece cell) as [piece|] eqn:Hp.
    + split; [|done]. intros _. by exists cell, piece.
    + split; [done|]. intros (c & pc & Hc & Hpc). congruence.
  - split; [done|]. by intros (c & pc & Hc & _).
Qed.


Lemma occupied_onBoard pos : occupied gs pos → onBoard gs pos.
Proof.
  rewrite occupied_cell, onBoard_cell. intros (c & _ & Hc & _). eauto.
Qed.

End MovePiece.


(* ====================================================================== *)
(** ** Game set-up: players and turn order *)
(* ====================================================================== *)

Section InitGame.

Lemma placePiece_frame gs pos piece :
  players (GS.placePiece gs pos piece) = players gs ∧
  turnOrder (GS.placePiece gs pos piece) = turnOrder gs ∧
  dom (board (GS.placePiece gs pos piece)) = dom (board gs).
Proof.
  unfold GS.placePiece, GS.getBoardCell.
  destruct (board gs !! Hex.key pos) as [cell|] eqn:Hcell; [|done].
  simpl. split_and!; [done..|].
  rewrite dom_insert_L. apply elem_of_dom_2 in Hcell.
  apply set_eq. intros k. rewrite elem_of_union, elem_of_singleton.
  split; [intros [-> | Hk]; done | by right].
Qed.

Lemma spawnPiece_frame i home gs pos :
  homesOf (GameMode.spawnPiece i home gs pos) = homesOf gs ∧
  turnOrder (GameMode.spawnPiece i home gs pos) = turnOrder gs ∧
  dom (board (GameMode.spawnPiece i home gs pos)) = dom (board gs).
Proof.
  unfold GameMode.spawnPiece, homesOf.
  destruct (placePiece_frame gs pos (Piece.new pos home)) as (Hp & Ht & Hd).
  rewrite Hp.
  destruct (players gs !! i) as [ps|] eqn:Hps; simpl;
    [|split_and!; [by rewrite Hp | done | done]].
  split_and!; [|done..].
  rewrite list_fmap_insert. simpl. apply list_insert_id.
  by rewrite list_lookup_fmap, Hps.
Qed.

Lemma spawnPieces_frame i home tri : ∀ gs,
  homesOf (foldl (GameMode.spawnPiece i home) gs tri) = homesOf gs ∧
  turnOrder (foldl (GameMode.spawnPiece i home) gs tri) = turnOrder gs ∧
  dom (board (foldl (GameMode.spawnPiece i home) gs tri)) = dom (board gs).
Proof.
  induction tri as [|pos tri IH]; intros gs; simpl; [done|].
  destruct (IH (GameMode.spawnPiece i home gs pos)) as (-> & -> & ->).
  apply spawnPiece_frame.
Qed.

Lemma spawnPiecesForPlayer_frame gs i :
  (i < length (homesOf gs))%nat →
  Forall (fun h => 0 ≤ h ≤ 5) (homesOf gs) →
  ∃ gs', GameMode.spawnPiecesForPlayer gs i = Some gs' ∧
         homesOf gs' = homesOf gs ∧ turnOrder gs' = turnOrder gs ∧
         dom (board gs') = dom (board gs).
Proof.
  intros Hi Hhomes. unfold GameMode.spawnPiecesForPlayer.
  unfold homesOf in Hi. rewrite length_fmap in Hi.
  destruct (lookup_lt_is_Some_2 _ _ Hi) as [ps Hps]. rewrite Hps. simpl.
  assert (Hh : 0 ≤ PlayerState.homeTriangleIndex ps ≤ 5).
  { rewrite Forall_forall in Hhomes. apply Hhomes.
    unfold homesOf. apply list_elem_of_fmap. exists ps.
    split; [done|]. by eapply list_elem_of_lookup_2. }
  unfold GameMode.homeSpaces. rewrite (allTriangles_index _ Hh).
  eexists. split; [reflexivity|]. apply spawnPieces_frame.
Qed.

Lemma spawnAll_frame (l : list nat) : ∀ gs,
  Forall (fun i => (i < length (homesOf gs))%nat) l →
  Forall (fun h => 0 ≤ h ≤ 5) (homesOf gs) →
  ∃ gs',
    foldl (fun acc i => acc ≫= fun g => GameMode.spawnPiecesForPlayer g i)
      (Some gs) l = Some gs' ∧
    homesOf gs' = homesOf gs ∧ turnOrder gs' = turnOrder gs ∧
    dom (board gs') = dom (board gs).
Proof.
  induction l as [|i l IH]; intros gs Hl Hhomes; simpl.
  - by exists gs.
  - apply Forall_cons in Hl as [Hi Hl].
    destruct (spawnPiecesForPlayer_frame gs i Hi Hhomes)
      as (gs1 & -> & Hh1 & Ht1 & Hd1).
    destruct (IH gs1) as (gs' & Hrun & Hh & Ht & Hd).
    + by rewrite Hh1.
    + by rewrite Hh1.
    + exists gs'. split; [done|]. split_and!; congruence.
Qed.

Lemma triangleIndices_small playerCount :
  Forall (fun h => 0 ≤ h ≤ 5)
    (GameConfig.getPlayerTriangleIndices playerCount).
Proof.
  unfold GameConfig.getPlayerTriangleIndices.
  repeat case_match; repeat constructor; lia.
Qed.

Lemma imap_homes (l : list Z) :
  PlayerState.homeTriangleIndex <$>
    imap (fun playerIndex triangleIndex =>
            PlayerState.new (Z.of_nat playerIndex) triangleIndex) l = l.
Proof.
  rewrite fmap_imap. simpl.
  induction l as [|x l IH]; simpl; [done|]. f_equal.
  rewrite <- IH at 2. apply imap_ext. done.
Qed.

(** What [initGame] leaves behind, for every state it is called in. *)
Lemma initGame_spec gs playerCount :
  ∃ gs', GameMode.initGame gs playerCount = Some gs' ∧
    homesOf gs' = GameConfig.getPlayerTriangleIndices playerCount ∧
    turnOrder gs' =
      GameConfig.getTurnOrder
        (GameConfig.getPlayerTriangleIndices playerCount) ∧
    dom (board gs') = dom (board (GS.initializeBoard (GS.reset gs))).
Proof.
  unfold GameMode.initGame.
  set (gs3 := GS.set_turnOrder _ _).
  assert (Hhomes3 : homesOf gs3 =
                    GameConfig.getPlayerTriangleIndices playerCount).
  { unfold homesOf, gs3. simpl. apply imap_homes. }
  destruct (spawnAll_frame (seq 0 (length (players gs3))) gs3)
    as (gs4 & -> & Hh & Ht & Hd).
  - apply Forall_forall. intros i Hi%elem_of_seq.
    unfold homesOf. rewrite length_fmap. lia.
  - rewrite Hhomes3. apply triangleIndices_small.
  - eexists. split; [reflexivity|].
    change (homesOf (GS.set_matchPhase gs4 InProgress)) with (homesOf gs4).
    change (turnOrder (GS.set_matchPhase gs4 InProgress))
      with (turnOrder gs4).
    change (board (GS.set_matchPhase gs4 InProgress)) with (board gs4).
    rewrite Hh, Ht, Hd. split_and!; [exact Hhomes3 | reflexivity..].
Qed.

Lemma getTurnOrder_filter (active : list Z) :
  GameConfig.getTurnOrder active =
  List.filter (fun idx => bool_decide (idx ∈ active)) [3; 4; 5; 0; 1; 2].
Proof.
  unfold GameConfig.getTurnOrder, GameConfig.clockwiseFrom6.
  apply filter_ext. intros idx.
  unfold GameConfig.includes.
  destruct (existsb _ _) eqn:Hex.
  - symmetry. apply bool_decide_eq_true.
    apply existsb_exists in Hex as (x & Hx & ->%Z.eqb_eq).
    by apply list_elem_of_In.
  - symmetry. apply bool_decide_eq_false. intros Hin.
    apply not_true_iff_false in Hex. apply Hex.
    apply existsb_exists. exists idx. split; [by apply list_elem_of_In|].
    apply Z.eqb_refl.
Qed.

End InitGame.

(** C8. For every player count, [initGame] sets the turn order to the
    fixed sequence [3, 4, 5, 0, 1, 2] filtered to the triangle indices that
    are active for that count; with three players the active triangles are
    1, 3 and 5 and the turn order is exactly [3, 5, 1]. *)
Theorem C8_turn_order (gs : GameState) (playerCount : Z) :
  (∃ gs', GameMode.initGame gs playerCount = Some gs' ∧
     let active := GameConfig.getPlayerTriangleIndices playerCount in
     PlayerState.homeTriangleIndex <$> players gs' = active ∧
     turnOrder gs' = List.filter (fun idx => bool_decide (idx ∈ active))
                       [3; 4; 5; 0; 1; 2]) ∧
  (∃ gs3, GameMode.initGame gs 3 = Some gs3 ∧
     PlayerState.homeTriangleIndex <$> players gs3 = [1; 3; 5] ∧
     turnOrder gs3 = [3; 5; 1]).
Proof.
  split.
  - destruct (initGame_spec gs playerCount) as (gs' & Hinit & Hh & Ht & _).
    exists gs'. split; [done|]. cbv zeta. split; [done|].
    rewrite Ht. apply getTurnOrder_filter.
  - destruct (initGame_spec gs 3) as (gs3 & Hinit & Hh & Ht & _).
    exists gs3. split; [done|]. split; [exact Hh | exact Ht].
Qed.

(* ====================================================================== *)
(** ** The outward scan of one direction *)
(* ====================================================================== *)

Section Scan.

Variable gs : GameState.
Variable findMoves_rec :
  HexPosition → HexPosition → bool → list HexPosition →
  SearchState → SearchResult.
Variables (startPos P D : HexPosition).
Variable path : list HexPosition.

Lemma clearRun_empty a b : b ≤ a → clearRun gs P D a b.
Proof. intros Hab k Hk. lia. Qed.

Lemma clearRun_first a b :
  a < b →
  clearRun gs P D a b ↔
  onBoard gs (cellAt P D a) ∧ unoccupied gs (cellAt P D a) ∧
  clearRun gs P D (a + 1) b.
Proof.
  intros Hab. split.
  - intros H. split_and!; [apply H; lia | apply H; lia |].
    intros k Hk. apply H. lia.
  - intros (Hon & Hun & H) k Hk.
    destruct (decide (k = a)) as [-> | Hne]; [done|]. apply H. lia.
Qed.

(** The scan is its landing distance followed by the landing action. *)
Lemma jumpScan_landing n : ∀ distance foundPiece pieceDistance st,
  jumpScan gs findMoves_rec startPos P D path n distance foundPiece
    pieceDistance st =
  match landingDistance gs startPos P D n distance foundPiece pieceDistance
  with
  | Some k => landOn findMoves_rec startPos (cellAt P D k) path st
  | None => Some st
  end.
Proof.
  induction n as [|n IH]; intros distance foundPiece pieceDistance st;
    simpl; [done|].
  fold (cellAt P D distance).
  destruct (GS.isPositionOnBoard gs (cellAt P D distance)); simpl; [|done].
  destruct foundPiece; simpl.
  - destruct (GS.isPositionOccupied gs (cellAt P D distance)); [done|].
    destruct (distance =? pieceDistance * 2); [|apply IH].
    unfold landOn.
    by destruct (bool_decide (Hex.key (cellAt P D distance) ∈ st.1)).
  - destruct (GS.isPositionOccupied gs (cellAt P D distance)); [|apply IH].
    destruct (Hex.equals (cellAt P D distance) startPos); [done | apply IH].
Qed.

(** After the pivot: the landing at [2 * pd] is reached exactly when every
    cell from [distance] to the landing is on the board and empty. *)
Lemma landing_after_pivot n : ∀ distance pd k,
  distance ≤ 2 * pd →
  landingDistance gs startPos P D n distance true pd = Some k ↔
  k = 2 * pd ∧ 2 * pd < distance + Z.of_nat n ∧
  clearRun gs P D distance (2 * pd + 1).
Proof.
  induction n as [|n IH]; intros distance pd k Hle; simpl.
  - split; [done | lia].
  - rewrite (clearRun_first distance) by lia.
    unfold onBoard, unoccupied.
    destruct (GS.isPositionOnBoard gs (cellAt P D distance)); simpl;
      [|split; [done | by intros (_ & _ & ? & _)]].
    destruct (GS.isPositionOccupied gs (cellAt P D distance));
      [split; [done | by intros (_ & _ & _ & ? & _)]|].
    destruct (Z.eqb_spec distance (pd * 2)) as [Heq | Hne].
    + split.
      * intros [= <-]. split_and!; try done; try lia.
        apply clearRun_empty. lia.
      * intros (-> & _). f_equal. lia.
    + rewrite IH by lia. split.
      * intros (-> & Hlt & Hrun). split_and!; try done; lia.
      * intros (-> & Hlt & _ & _ & Hrun). split_and!; try done; lia.
Qed.

(** Before the pivot. *)
Lemma landing_before_pivot n : ∀ distance pd0 k,
  1 ≤ distance →
  landingDistance gs startPos P D n distance false pd0 = Some k ↔
  ∃ d, distance ≤ d ∧ k = 2 * d ∧ 2 * d < distance + Z.of_nat n ∧
       clearRun gs P D distance d ∧
       onBoard gs (cellAt P D d) ∧ occupied gs (cellAt P D d) ∧
       cellAt P D d ≠ startPos ∧
       clearRun gs P D (d + 1) (2 * d + 1).
Proof.
  induction n as [|n IH]; intros distance pd0 k Hpos; simpl.
  - split; [done|]. intros (d & ? & ? & ? & _). lia.
  - destruct (GS.isPositionOnBoard gs (cellAt P D distance)) eqn:Hon; simpl.
    2:{ split; [done|].
        intros (d & Hd & _ & _ & Hrun & Hond & _). exfalso.
        destruct (decide (d = distance)) as [-> | Hne].
        - unfold onBoard in Hond. congruence.
        - destruct (Hrun distance) as [Hon' _]; [lia|].
          unfold onBoard in Hon'. congruence. }
    destruct (GS.isPositionOccupied gs (cellAt P D distance)) eqn:Hocc.
    + (* the first occupied cell *)
      assert (Hfirst : ∀ d, distance ≤ d → clearRun gs P D distance d →
                            d = distance).
      { intros d Hd Hrun. destruct (decide (d = distance)); [done|].
        destruct (Hrun distance) as [_ Hun]; [lia|].
        unfold unoccupied in Hun. congruence. }
      destruct (Hex.equals (cellAt P D distance) startPos) eqn:Heq.
      * split; [done|].
        intros (d & Hd & _ & _ & Hrun & _ & _ & Hne & _). exfalso.
        rewrite (Hfirst d Hd Hrun) in Hne.
        by apply equals_true in Heq.
      * apply equals_false in Heq.
        rewrite landing_after_pivot by lia. split.
        -- intros (-> & Hlt & Hrun). exists distance.
           split_and!; try done; try lia. apply clearRun_empty. lia.
        -- intros (d & Hd & -> & Hlt & Hrun & _ & _ & _ & Hrun2).
           rewrite (Hfirst d Hd Hrun) in *. split_and!; try done; lia.
    + rewrite IH by lia. split.
      * intros (d & Hd & -> & Hlt & Hrun & Hond & Hocd & Hne & Hrun2).
        exists d. split_and!; try done; try lia.
        apply clearRun_first; [lia|]. done.
      * intros (d & Hd & -> & Hlt & Hrun & Hond & Hocd & Hne & Hrun2).
        assert (d ≠ distance).
        { intros ->. unfold occupied in Hocd. congruence. }
        exists d. split_and!; try done; try lia.
        apply clearRun_first in Hrun; [|lia]. apply Hrun.
Qed.

(** The whole scan: it reaches the landing branch at [k] exactly when [k]
    is twice the distance of a pivot with a free run behind it. *)
Lemma landing_spec (limit : nat) (k : Z) :
  landingDistance gs startPos P D limit 1 false 0 = Some k ↔
  ∃ d, k = 2 * d ∧ pivotAndLanding gs startPos P D limit d.
Proof.
  rewrite landing_before_pivot by lia. unfold pivotAndLanding. split.
  - intros (d & Hd & -> & Hlt & Hrun & Hond & Hocd & Hne & Hrun2).
    exists d. split_and!; try done; lia.
  - intros (d & -> & Hd & Hlt & Hrun & Hond & Hocd & Hne & Hrun2).
    exists d. split_and!; try done; lia.
Qed.

(** At most one distance qualifies as pivot distance. *)
Lemma pivot_unique d1 d2 :
  clearRun gs P D 1 d1 → occupied gs (cellAt P D d1) → 1 ≤ d1 →
  clearRun gs P D 1 d2 → occupied gs (cellAt P D d2) → 1 ≤ d2 →
  d1 = d2.
Proof.
  intros Hr1 Ho1 H1 Hr2 Ho2 H2.
  destruct (Z.lt_trichotomy d1 d2) as [Hlt | [Heq | Hgt]]; [|done|].
  - destruct (Hr2 d1) as [_ Hun]; [lia|].
    unfold occupied, unoccupied in *. congruence.
  - destruct (Hr1 d2) as [_ Hun]; [lia|].
    unfold occupied, unoccupied in *. congruence.
Qed.

(** The scan either leaves the accumulators alone or lands. *)
Lemma checkJumpWithin_cases (limit : nat) st :
  (checkJumpWithin gs findMoves_rec startPos P D path limit st = Some st ∧
   ∀ d, ¬ pivotAndLanding gs startPos P D limit d) ∨
  (∃ d, pivotAndLanding gs startPos P D limit d ∧
        checkJumpWithin gs findMoves_rec startPos P D path limit st =
        landOn findMoves_rec startPos (cellAt P D (2 * d)) path st).
Proof.
  unfold checkJumpWithin. rewrite jumpScan_landing.
  destruct (landingDistance gs startPos P D limit 1 false 0) as [k|] eqn:Hk.
  - right. apply landing_spec in Hk as (d & -> & Hd). by exists d.
  - left. split; [done|]. intros d Hd.
    assert (landingDistance gs startPos P D limit 1 false 0 = Some (2 * d))
      as Hsome by (apply landing_spec; eauto).
    congruence.
Qed.

End Scan.

(** C4. When the first occupied cell met by the scan from [P] along [D] is
    the original start position, the scan returns the accumulators as they
    were: no move is recorded and no recursive exploration is started, for
    every exploration position, visited set and path (so also in the
    middle of a chain). *)
Theorem C4_never_jumps_over_origin (gs : GameState)
    (findMoves_rec : HexPosition → HexPosition → bool →
                     list HexPosition → SearchState → SearchResult)
    (startPos P D : HexPosition) (path : list HexPosition)
    (st : SearchState) (d : Z) :
  1 ≤ d →
  clearRun gs P D 1 d →
  onBoard gs (cellAt P D d) → occupied gs (cellAt P D d) →
  cellAt P D d = startPos →
  _checkJumpInDirection gs findMoves_rec startPos P D path st = Some st.
Proof.
  intros Hd Hrun Hon Hocc Hstart. unfold _checkJumpInDirection.
  destruct (checkJumpWithin_cases gs findMoves_rec startPos P D path 16 st)
    as [[Hsame _] | (d' & Hpl & _)]; [done|].
  exfalso. destruct Hpl as (Hd' & _ & Hrun' & _ & Hocc' & Hne & _).
  apply Hne. rewrite <- Hstart. f_equal.
  by apply (pivot_unique gs P D d' d).
Qed.

(* ====================================================================== *)
(** ** Geometry of directions *)
(* ====================================================================== *)

Lemma direction_cases D :
  D ∈ HEX_DIRECTIONS →
  D = HexDirection.EAST ∨ D = HexDirection.NORTHEAST ∨
  D = HexDirection.NORTHWEST ∨ D = HexDirection.WEST ∨
  D = HexDirection.SOUTHWEST ∨ D = HexDirection.SOUTHEAST.
Proof.
  unfold HEX_DIRECTIONS. rewrite !elem_of_cons, elem_of_nil. tauto.
Qed.

(** Case analysis on a direction known to be one of the six. *)
Ltac each_direction HD :=
  match type of HD with
  | ?D ∈ HEX_DIRECTIONS =>
      destruct (direction_cases D HD) as [->|[->|[->|[->|[->| ->]]]]]
  end.

Lemma directions_NoDup : NoDup HEX_DIRECTIONS.
Proof.
  unfold HEX_DIRECTIONS. repeat (apply NoDup_cons; split);
    [rewrite ?elem_of_cons, elem_of_nil; intros H;
     repeat (destruct H as [H | H]; [discriminate H|]); done ..
    | apply NoDup_nil_2].
Qed.

Lemma add_cancel cur D1 D2 : Hex.add cur D1 = Hex.add cur D2 → D1 = D2.
Proof.
  destruct cur, D1, D2. unfold Hex.add. simpl. intros [= ? ?].
  f_equal; lia.
Qed.

Lemma cellAt_inj P D a b :
  D ∈ HEX_DIRECTIONS → cellAt P D a = cellAt P D b → a = b.
Proof.
  intros HD Heq. unfold cellAt in Heq. apply add_cancel in Heq.
  unfold Hex.scale in Heq. injection Heq as Hq Hr.
  each_direction HD; simpl in *; lia.
Qed.

Lemma sameParity_trans a b c :
  sameParity a b → sameParity b c → sameParity a c.
Proof.
  intros (i & j & ->) (i' & j' & ->). exists (i + i'), (j + j').
  destruct a. unfold Hex.add. simpl. f_equal; lia.
Qed.

Lemma sameParity_landing P D d : sameParity P (cellAt P D (2 * d)).
Proof.
  exists (q D * d), (r D * d). unfold cellAt, Hex.scale.
  f_equal. f_equal; lia.
Qed.

Lemma step_changes_parity cur D :
  D ∈ HEX_DIRECTIONS → ¬ sameParity cur (Hex.add cur D).
Proof.
  intros HD (i & j & Heq). apply add_cancel in Heq.
  each_direction HD; injection Heq; lia.
Qed.

(* ====================================================================== *)
(** ** The measure of the search *)
(* ====================================================================== *)

Section Measure.

Variable gs : GameState.

Lemma onBoard_dom p : onBoard gs p ↔ Hex.key p ∈ dom (board gs).
Proof.
  unfold onBoard, GS.isPositionOnBoard.
  by rewrite bool_decide_eq_true, elem_of_dom.
Qed.

Lemma unvisited_mono (v v' : gset string) :
  v ⊆ v' → (unvisitedCells gs v' ≤ unvisitedCells gs v)%nat.
Proof.
  intros Hsub. unfold unvisitedCells. apply subseteq_size.
  intros k. rewrite !elem_of_difference. intros [Hk Hv]. split; [done|].
  intros Hin. by apply Hv, Hsub.
Qed.

Lemma unvisited_insert (v : gset string) L :
  onBoard gs L → Hex.key L ∉ v →
  (unvisitedCells gs ({[Hex.key L]} ∪ v) < unvisitedCells gs v)%nat.
Proof.
  intros Hon%onBoard_dom Hv. unfold unvisitedCells. apply subset_size.
  split.
  - intros k. rewrite !elem_of_difference, elem_of_union. intros [Hk Hn].
    split; [done|]. intros Hin. apply Hn. by right.
  - intros Hsub. specialize (Hsub (Hex.key L)).
    rewrite !elem_of_difference, elem_of_union, elem_of_singleton in Hsub.
    destruct Hsub as [_ Hn]; [done|]. apply Hn. by left.
Qed.

Lemma unvisited_le_size (v : gset string) :
  (unvisitedCells gs v ≤ size (board gs))%nat.
Proof.
  unfold unvisitedCells. rewrite <- size_dom. apply subseteq_size.
  intros k. rewrite elem_of_difference. tauto.
Qed.

End Measure.

(* ====================================================================== *)
(** ** How the accumulators grow *)
(* ====================================================================== *)

Section Extends.

Variable gs : GameState.
Variable cur : HexPosition.

Lemma extends_refl hasJumped st : extends gs cur hasJumped [] st st.
Proof.
  split; [done|]. exists []. split_and!.
  - by rewrite app_nil_r.
  - constructor.
  - constructor.
  - intros D HD. by apply elem_of_nil in HD.
Qed.

Lemma stepNew_weaken hasJumped ds ds' m :
  ds ⊆ ds' → stepNew gs cur hasJumped ds m → stepNew gs cur hasJumped ds' m.
Proof.
  intros Hsub (Hj & D & HD & Hrest). split; [done|]. exists D.
  split; [by apply Hsub | done].
Qed.

Lemma jumpNew_weaken c (v0 v1 v2 v3 : gset string) m :
  v0 ⊆ v1 → v2 ⊆ v3 → jumpNew c v1 v2 m → jumpNew c v0 v3 m.
Proof.
  intros H01 H23 (Ht & Hin & Hout & Hpar). split_and!; [done | | | done].
  - by apply H23.
  - intros H. by apply Hout, H01.
Qed.

(** A step and a jump never share their target; two steps do only when
    they go in the same direction; two jumps recorded in successive
    stretches of the search never do. *)
Lemma new_moves_apart hasJumped ds1 ds2 (va vb vc : gset string) m1 m2 :
  (∀ D, D ∈ ds1 → D ∈ ds2 → False) →
  (∀ D, D ∈ ds1 ++ ds2 → D ∈ HEX_DIRECTIONS) →
  stepNew gs cur hasJumped ds1 m1 ∨ jumpNew cur va vb m1 →
  stepNew gs cur hasJumped ds2 m2 ∨ jumpNew cur vb vc m2 →
  targetPos m1 ≠ targetPos m2.
Proof.
  intros Hdisj Hdirs H1 H2 Heq.
  destruct H1 as [(_ & D1 & HD1 & -> & _) | (_ & Hin1 & _ & Hpar1)];
    destruct H2 as [(_ & D2 & HD2 & -> & _) | (_ & _ & Hout2 & Hpar2)];
    simpl in *.
  - apply add_cancel in Heq. subst D2. by apply (Hdisj D1).
  - rewrite <- Heq in Hpar2. apply (step_changes_parity cur D1); [|done].
    apply Hdirs, elem_of_app. by left.
  - rewrite Heq in Hpar1. apply (step_changes_parity cur D2); [|done].
    apply Hdirs, elem_of_app. by right.
  - apply Hout2. by rewrite <- Heq.
Qed.

Lemma extends_trans hasJumped ds1 ds2 a b c :
  (∀ D, D ∈ ds1 → D ∈ ds2 → False) →
  (∀ D, D ∈ ds1 ++ ds2 → D ∈ HEX_DIRECTIONS) →
  extends gs cur hasJumped ds1 a b →
  extends gs cur hasJumped ds2 b c →
  extends gs cur hasJumped (ds1 ++ ds2) a c.
Proof.
  intros Hdisj Hdirs (Hab & new1 & Hm1 & Hnd1 & Hall1 & Hcomp1)
    (Hbc & new2 & Hm2 & Hnd2 & Hall2 & Hcomp2).
  split; [by etrans|]. exists (new1 ++ new2). split_and!.
  - by rewrite Hm2, Hm1, app_assoc.
  - rewrite fmap_app. apply NoDup_app. split_and!; [done | | done].
    intros t (m1 & -> & Hin1)%list_elem_of_fmap
      (m2 & Heq & Hin2)%list_elem_of_fmap.
    rewrite Forall_forall in Hall1. rewrite Forall_forall in Hall2.
    by apply (new_moves_apart hasJumped ds1 ds2 a.1 b.1 c.1 m1 m2
                Hdisj Hdirs (Hall1 m1 Hin1) (Hall2 m2 Hin2)).
  - apply Forall_app. split.
    + eapply Forall_impl; [exact Hall1|]. intros m [Hs | Hj].
      * left. eapply stepNew_weaken; [|done].
        intros D HD. apply elem_of_app. by left.
      * right. by apply (jumpNew_weaken cur a.1 a.1 b.1 c.1).
    + eapply Forall_impl; [exact Hall2|]. intros m [Hs | Hj].
      * left. eapply stepNew_weaken; [|done].
        intros D HD. apply elem_of_app. by right.
      * right. by apply (jumpNew_weaken cur a.1 b.1 c.1 c.1).
  - intros D [HD | HD]%elem_of_app Hj Hon Hun; apply elem_of_app.
    + left. by apply Hcomp1.
    + right. by apply Hcomp2.
Qed.

Lemma stepCheck_extends hasJumped D st :
  extends gs cur hasJumped [D] st (stepCheck gs cur D hasJumped st).
Proof.
  unfold stepCheck.
  destruct (GS.isPositionOnBoard gs (Hex.add cur D)) eqn:Hon;
    [destruct (GS.isPositionOccupied gs (Hex.add cur D)) eqn:Hocc;
     [|destruct hasJumped]|]; simpl.
  1,2,4: split; [done|]; exists []; split_and!;
    [by rewrite app_nil_r | constructor | constructor |];
    intros D' ->%list_elem_of_singleton Hj Hon' Hun';
    unfold onBoard, unoccupied in *; congruence.
  split; [done|]. exists [createSimpleMove (Hex.add cur D)]. split_and!.
  - done.
  - apply NoDup_singleton.
  - apply Forall_singleton. left. split; [done|]. exists D.
    split_and!; [apply list_elem_of_singleton | | |]; done.
  - intros D' ->%list_elem_of_singleton _ _ _. apply list_elem_of_singleton.
    done.
Qed.

End Extends.

(* ====================================================================== *)
(** ** The exploration *)
(* ====================================================================== *)

Section Exploration.

Variable gs : GameState.
Variable limit : nat.
Variable startPos : HexPosition.

Section Loop.

Variable K : nat.
Variable findMoves_rec :
  HexPosition → HexPosition → bool → list HexPosition →
  SearchState → SearchResult.
Hypothesis rec_ok : exploresWell gs K findMoves_rec startPos.

(** One scan returns, and records jumps only. *)
Lemma scan_extends cur D path hasJumped st :
  (unvisitedCells gs st.1 ≤ K)%nat →
  ∃ st', checkJumpWithin gs findMoves_rec startPos cur D path limit st
         = Some st' ∧
         extends gs cur hasJumped [] st st'.
Proof.
  intros HK.
  destruct (checkJumpWithin_cases gs findMoves_rec startPos cur D path
              limit st) as [[-> _] | (d & Hpl & ->)].
  { exists st. split; [done | apply extends_refl]. }
  unfold landOn. set (L := cellAt cur D (2 * d)).
  case_bool_decide as Hvis.
  { exists st. split; [done | apply extends_refl]. }
  assert (HonL : onBoard gs L).
  { destruct Hpl as (Hd & _ & _ & _ & _ & _ & Hrun).
    apply (Hrun (2 * d)). lia. }
  destruct (rec_ok L (path ++ [L])
              (st.1, st.2 ++ [createJumpMove L (path ++ [L])]) HonL Hvis HK)
    as (st' & Hrun & Hsub & new & Hm & Hnd & Hall & _).
  simpl in *. exists st'. split; [done|]. split.
  { intros k Hk. apply Hsub, elem_of_union. by right. }
  assert (HL' : Hex.key L ∈ st'.1).
  { apply Hsub, elem_of_union. left. by apply elem_of_singleton. }
  assert (Hjumps : ∀ m, m ∈ new →
            jumpNew L ({[Hex.key L]} ∪ st.1) st'.1 m).
  { rewrite Forall_forall in Hall. intros m Hin.
    destruct (Hall m Hin) as [(? & _) | ?]; [done | done]. }
  exists (createJumpMove L (path ++ [L]) :: new). split_and!.
  - by rewrite Hm, <- app_assoc.
  - rewrite fmap_cons. apply NoDup_cons. split; [|done]. simpl.
    intros (m & Heq & Hin)%list_elem_of_fmap.
    destruct (Hjumps m Hin) as (_ & _ & Hout & _).
    apply Hout, elem_of_union. left. apply elem_of_singleton.
    by rewrite Heq.
  - apply Forall_cons. split.
    + right. split_and!; [done | done | done |].
      apply sameParity_landing.
    + apply Forall_forall. intros m Hin. right.
      destruct (Hjumps m Hin) as (Ht & Hi & Ho & Hp).
      split_and!; [done | done | |].
      * intros H. apply Ho, elem_of_union. by right.
      * eapply sameParity_trans; [apply sameParity_landing | exact Hp].
  - intros D' HD'. by apply elem_of_nil in HD'.
Qed.

(** The loop over the directions returns; its steps and jumps are as
    [extends] says. *)
Lemma forEach_extends cur hasJumped path (ds : list HexPosition) :
  NoDup ds → (∀ D, D ∈ ds → D ∈ HEX_DIRECTIONS) →
  ∀ st, (unvisitedCells gs st.1 ≤ K)%nat →
  ∃ st',
    forEach
      (fun dir st' =>
         checkJumpWithin gs findMoves_rec startPos cur dir path limit
           (stepCheck gs cur dir hasJumped st'))
      ds st = Some st' ∧
    extends gs cur hasJumped ds st st'.
Proof.
  induction ds as [|D ds IH]; intros Hnd Hdirs st HK; simpl.
  { exists st. split; [done | apply extends_refl]. }
  apply NoDup_cons in Hnd as [HD Hnd].
  pose proof (stepCheck_extends gs cur hasJumped D st) as Hstep.
  set (s0 := stepCheck gs cur D hasJumped st) in *.
  assert (HK0 : (unvisitedCells gs s0.1 ≤ K)%nat).
  { etrans; [apply unvisited_mono, Hstep | done]. }
  destruct (scan_extends cur D path hasJumped s0 HK0) as (s1 & -> & Hscan).
  assert (H01 : extends gs cur hasJumped [D] st s1).
  { rewrite <- (app_nil_r [D]). eapply extends_trans; [| |done|done].
    - intros D' _ HD'. by apply elem_of_nil in HD'.
    - intros D' HD'. rewrite app_nil_r in HD'.
      apply list_elem_of_singleton in HD' as ->. apply Hdirs. left. }
  destruct (IH Hnd) with (st := s1) as (st' & -> & Hrest).
  - intros D' HD'. apply Hdirs. by right.
  - etrans; [apply unvisited_mono, H01 | done].
  - exists st'. split; [done|].
    change (D :: ds) with ([D] ++ ds).
    eapply extends_trans; [| |done|done].
    + intros D' ->%list_elem_of_singleton HD'. done.
    + intros D' HD'. by apply Hdirs.
Qed.

End Loop.

(** With enough fuel the exploration returns. Called on a visited cell it
    changes nothing; otherwise it marks the cell and runs the loop. *)
Lemma findMoves_extends (fuel : nat) : ∀ cur hasJumped path st,
  (unvisitedCells gs ({[Hex.key cur]} ∪ st.1) < fuel)%nat →
  ∃ st',
    findMovesWithin gs limit fuel startPos cur hasJumped path st = Some st' ∧
    (((Hex.key cur ∈ st.1) ∧ st' = st) ∨
     ((Hex.key cur ∉ st.1) ∧
      extends gs cur hasJumped HEX_DIRECTIONS
        ({[Hex.key cur]} ∪ st.1, st.2) st')).
Proof.
  induction fuel as [|fuel IH]; intros cur hasJumped path st Hfuel; [lia|].
  simpl. case_bool_decide as Hvis.
  { exists st. split; [done|]. by left. }
  assert (Hrec : exploresWell gs fuel
                   (findMovesWithin gs limit fuel) startPos).
  { intros L path' st1 HonL HL HK.
    destruct (IH L true path' st1) as (st' & Hrun & [[Hin _] | [_ Hext]]).
    - pose proof (unvisited_insert gs st1.1 L HonL HL). lia.
    - done.
    - by exists st'. }
  destruct (forEach_extends fuel (findMovesWithin gs limit fuel) Hrec
              cur hasJumped path HEX_DIRECTIONS directions_NoDup
              (fun D HD => HD) ({[Hex.key cur]} ∪ st.1, st.2))
    as (st' & Hrun & Hext).
  - simpl. lia.
  - exists st'. split; [done|]. by right.
Qed.

(** The recursive call is what the loop asks for. *)
Lemma findMoves_exploresWell (fuel : nat) :
  exploresWell gs fuel (findMovesWithin gs limit fuel) startPos.
Proof.
  intros L path st HonL HL HK.
  destruct (findMoves_extends fuel L true path st)
    as (st' & Hrun & [[Hin _] | [_ Hext]]).
  - pose proof (unvisited_insert gs st.1 L HonL HL). lia.
  - done.
  - by exists st'.
Qed.

(** More fuel does not change a result. *)
Lemma jumpScan_fuel_mono
    (rec1 rec2 : HexPosition → HexPosition → bool → list HexPosition →
                 SearchState → SearchResult) cur D path :
  (∀ L path' st res, rec1 startPos L true path' st = Some res →
                     rec2 startPos L true path' st = Some res) →
  ∀ n distance foundPiece pieceDistance st res,
    jumpScan gs rec1 startPos cur D path n distance foundPiece
      pieceDistance st = Some res →
    jumpScan gs rec2 startPos cur D path n distance foundPiece
      pieceDistance st = Some res.
Proof.
  intros Hrec. induction n as [|n IH];
    intros distance foundPiece pieceDistance st res; simpl; [done|].
  repeat case_match; eauto.
Qed.

Lemma forEach_fuel_mono {A} (body1 body2 : A → SearchState → SearchResult) :
  (∀ x st res, body1 x st = Some res → body2 x st = Some res) →
  ∀ l st res, forEach body1 l st = Some res → forEach body2 l st = Some res.
Proof.
  intros Hbody. induction l as [|x l IH]; intros st res; simpl; [done|].
  destruct (body1 x st) as [st1|] eqn:H1; [|done].
  rewrite (Hbody _ _ _ H1). apply IH.
Qed.

Lemma findMovesWithin_S fuel cur hasJumped path st :
  findMovesWithin gs limit (S fuel) startPos cur hasJumped path st =
  if bool_decide (Hex.key cur ∈ st.1) then Some st
  else forEach
         (fun dir st' =>
            checkJumpWithin gs (findMovesWithin gs limit fuel)
              startPos cur dir path limit
              (stepCheck gs cur dir hasJumped st'))
         HEX_DIRECTIONS ({[Hex.key cur]} ∪ st.1, st.2).
Proof. reflexivity. Qed.

Lemma findMoves_fuel_mono (fuel : nat) : ∀ cur hasJumped path st res,
  findMovesWithin gs limit fuel startPos cur hasJumped path st = Some res →
  findMovesWithin gs limit (S fuel) startPos cur hasJumped path st
  = Some res.
Proof.
  induction fuel as [|fuel IH]; intros cur hasJumped path st res; [done|].
  rewrite (findMovesWithin_S (S fuel)), (findMovesWithin_S fuel).
  case_bool_decide; [done|].
  apply forEach_fuel_mono. intros D st1 res1.
  apply jumpScan_fuel_mono. intros L path' st2 res2. apply IH.
Qed.

Lemma findMoves_fuel_le (fuel fuel' : nat) cur hasJumped path st res :
  (fuel ≤ fuel')%nat →
  findMovesWithin gs limit fuel startPos cur hasJumped path st = Some res →
  findMovesWithin gs limit fuel' startPos cur hasJumped path st = Some res.
Proof.
  induction 1 as [|fuel' Hle IH]; [done|].
  intros Hrun. by apply findMoves_fuel_mono, IH.
Qed.

(** The scan uses the recursive call through its results only. *)
Lemma jumpScan_rec_ext
    (rec1 rec2 : HexPosition → HexPosition → bool → list HexPosition →
                 SearchState → SearchResult) cur D path :
  (∀ L path' st, rec1 startPos L true path' st
                 = rec2 startPos L true path' st) →
  ∀ n distance foundPiece pieceDistance st,
    jumpScan gs rec1 startPos cur D path n distance foundPiece
      pieceDistance st =
    jumpScan gs rec2 startPos cur D path n distance foundPiece
      pieceDistance st.
Proof.
  intros Hrec n distance foundPiece pieceDistance st.
  rewrite !jumpScan_landing.
  destruct (landingDistance _ _ _ _ _ _ _ _); [|done].
  unfold landOn. by rewrite Hrec.
Qed.

Lemma forEach_ext {A} (body1 body2 : A → SearchState → SearchResult)
    (l : list A) :
  (∀ x st, x ∈ l → body1 x st = body2 x st) →
  ∀ st, forEach body1 l st = forEach body2 l st.
Proof.
  induction l as [|x l IH]; intros Hbody st; simpl; [done|].
  rewrite Hbody by left. destruct (body2 x st); [|done].
  apply IH. intros y st' Hy. apply Hbody. by right.
Qed.

End Exploration.

(** The same unfolding for the source's bound, in the source's shape. *)
Lemma _findMoves_S gs startPos fuel cur hasJumped path st :
  _findMoves gs (S fuel) startPos cur hasJumped path st =
  if bool_decide (Hex.key cur ∈ st.1) then Some st
  else forEach
         (fun dir st' =>
            _checkJumpInDirection gs (_findMoves gs fuel)
              startPos cur dir path
              (stepCheck gs cur dir hasJumped st'))
         HEX_DIRECTIONS ({[Hex.key cur]} ∪ st.1, st.2).
Proof.
  unfold _findMoves, _checkJumpInDirection. apply findMovesWithin_S.
Qed.

(* ====================================================================== *)
(** ** The moves returned for a start position *)
(* ====================================================================== *)

Section ValidMoves.

Variable gs : GameState.

(** [findValidMoves] returns, and what it returns is one stretch of the
    exploration from the start position. *)
Lemma findValidMoves_extends startPos :
  ∃ visited moves,
    findValidMoves gs startPos = Some moves ∧
    extends gs startPos false HEX_DIRECTIONS
      ({[Hex.key startPos]}, []) (visited, moves).
Proof.
  unfold findValidMoves, _findMoves, searchDepth.
  destruct (findMoves_extends gs 16 startPos (S (size (board gs)))
              startPos false [] (∅, []))
    as ([visited moves] & -> & [[Hin _] | [_ Hext]]).
  - pose proof (unvisited_le_size gs ({[Hex.key startPos]} ∪ ∅)).
    simpl. lia.
  - by apply elem_of_empty in Hin.
  - exists visited, moves. split; [done|].
    simpl in Hext. by rewrite (right_id_L ∅ (∪)) in Hext.
Qed.

(** Any larger recursion budget gives the same moves. *)
Lemma findValidMoves_fuel_independent startPos (fuel : nat) :
  (searchDepth gs ≤ fuel)%nat →
  snd <$> _findMoves gs fuel startPos startPos false [] (∅, [])
  = findValidMoves gs startPos.
Proof.
  intros Hfuel.
  destruct (findValidMoves_extends startPos) as (v & moves & Hrun & _).
  rewrite Hrun. unfold findValidMoves in Hrun.
  destruct (_findMoves gs (searchDepth gs) startPos startPos false []
              (∅, [])) as [res|] eqn:Hres; [|done].
  unfold _findMoves in *.
  by rewrite (findMoves_fuel_le gs 16 startPos _ fuel _ _ _ _ _ Hfuel Hres).
Qed.

End ValidMoves.

(** C1. [findValidMoves] returns a list of moves, and no two moves of the
    list, steps or jumps, have the same target position. This holds for
    every board state and every start coordinate (on the board or not). *)
Theorem C1_no_duplicate_targets (gs : GameState) (startPos : HexPosition) :
  ∃ moves, findValidMoves gs startPos = Some moves ∧
           NoDup (targetPos <$> moves).
Proof.
  destruct (findValidMoves_extends gs startPos)
    as (visited & moves & Hrun & _ & new & Hm & Hnd & _).
  exists moves. split; [done|]. simpl in Hm. by subst.
Qed.

(** C5. [findValidMoves] returns a list in which, for every direction
    [D], the step to the cell next to the start is present exactly when
    that cell is on the board and unoccupied, and every step-move of the
    list is such a step from the start; and an exploration entered with
    [hasJumped] true (a landing spot in the middle of a chain) records
    jump-moves only. *)
Theorem C5_steps_only_from_start (gs : GameState) (startPos : HexPosition) :
  (∃ moves, findValidMoves gs startPos = Some moves ∧
     (∀ D, D ∈ HEX_DIRECTIONS →
        createSimpleMove (Hex.add startPos D) ∈ moves ↔
        onBoard gs (Hex.add startPos D) ∧
        unoccupied gs (Hex.add startPos D)) ∧
     (∀ m, m ∈ moves → type m = move →
        ∃ D, D ∈ HEX_DIRECTIONS ∧ m = createSimpleMove (Hex.add startPos D))) ∧
  (∀ fuel landing path st,
     (unvisitedCells gs ({[Hex.key landing]} ∪ st.1) < fuel)%nat →
     ∃ st' new, _findMoves gs fuel startPos landing true path st = Some st' ∧
                st'.2 = st.2 ++ new ∧
                ∀ m, m ∈ new → type m = jump).
Proof.
  split.
  - destruct (findValidMoves_extends gs startPos)
      as (visited & moves & Hrun & _ & new & Hm & _ & Hall & Hcomp).
    simpl in Hm. subst new. rewrite Forall_forall in Hall.
    exists moves. split; [done|]. split.
    + intros D HD. split.
      * intros Hin.
        destruct (Hall _ Hin) as [(_ & D' & _ & Heq & Hon & Hun) | (Ht & _)];
          [|done].
        apply (f_equal targetPos) in Heq. simpl in Heq. by rewrite Heq.
      * intros [Hon Hun]. by apply Hcomp.
    + intros m Hin Ht.
      destruct (Hall _ Hin) as [(_ & D & HD & -> & _) | (Ht' & _)];
        [eauto | congruence].
  - intros fuel landing path st Hfuel.
    destruct (findMoves_extends gs 16 startPos fuel landing true path st)
      as (st' & Hrun & [[_ ->] | [_ (_ & new & Hm & _ & Hall & _)]]).
    + done.
    + exists st, []. split; [done|]. split; [by rewrite app_nil_r|].
      intros m Hin. by apply elem_of_nil in Hin.
    + exists st', new. split; [done|]. split; [done|].
      rewrite Forall_forall in Hall. intros m Hin.
      destruct (Hall m Hin) as [(? & _) | (? & _)]; done.
Qed.

(* ====================================================================== *)
(** ** The star-shaped board *)
(* ====================================================================== *)

Section Star.

Lemma starBoard_dom_dec :
  bool_decide (dom starBoard = list_to_set (Hex.key <$> starCells)) = true.
Proof. vm_compute. reflexivity. Qed.

Lemma starBoard_dom : dom starBoard = list_to_set (Hex.key <$> starCells).
Proof. exact (bool_decide_eq_true_1 _ starBoard_dom_dec). Qed.

Lemma starCells_box :
  Forall (fun p => -8 ≤ q p ≤ 8 ∧ -8 ≤ r p ≤ 8) starCells.
Proof.
  apply Forall_forall. intros p Hp.
  assert (Hb : forallb (fun p => (-8 <=? q p) && (q p <=? 8) &&
                                 (-8 <=? r p) && (r p <=? 8)) starCells
               = true) by (vm_compute; reflexivity).
  rewrite forallb_forall in Hb. specialize (Hb p).
  rewrite <- list_elem_of_In in Hb. specialize (Hb Hp).
  rewrite !andb_true_iff, !Z.leb_le in Hb. lia.
Qed.

Lemma star_lines_ok : starLinesOk = true.
Proof. vm_compute. reflexivity. Qed.

Lemma cellIn_star p : cellIn starBoard p = true ↔ p ∈ starCells.
Proof.
  unfold cellIn. rewrite bool_decide_eq_true, <- elem_of_dom, starBoard_dom.
  rewrite elem_of_list_to_set, list_elem_of_fmap. split.
  - intros (p' & Heq & Hin). by rewrite (key_inj _ _ Heq).
  - intros Hin. by exists p.
Qed.

Lemma star_onBoard gs p :
  dom (board gs) = dom starBoard → onBoard gs p ↔ p ∈ starCells.
Proof.
  intros Hstar. rewrite onBoard_dom, Hstar, <- cellIn_star.
  unfold cellIn. by rewrite bool_decide_eq_true, elem_of_dom.
Qed.

Lemma empty_onBoard gs p : dom (board gs) = ∅ → ¬ onBoard gs p.
Proof.
  intros Hempty. rewrite onBoard_dom, Hempty. apply not_elem_of_empty.
Qed.

(** Seventeen steps in any direction lead out of the star. *)
Lemma far_cells_off P D k :
  P ∈ starCells → D ∈ HEX_DIRECTIONS → 17 ≤ k → cellAt P D k ∉ starCells.
Proof.
  intros HP HD Hk Hin.
  pose proof starCells_box as Hbox. rewrite Forall_forall in Hbox.
  pose proof (Hbox _ HP) as HbP. pose proof (Hbox _ Hin) as HbC.
  each_direction HD; simpl in HbC; lia.
Qed.

Lemma star_line P D :
  P ∈ starCells → D ∈ HEX_DIRECTIONS →
  ∃ e, 1 ≤ e ≤ 13 ∧ ∀ k, 1 ≤ k → cellAt P D k ∈ starCells ↔ k < e.
Proof.
  intros HP HD. pose proof star_lines_ok as Hall.
  unfold starLinesOk in Hall. cbv zeta in Hall.
  rewrite forallb_forall in Hall. specialize (Hall P).
  rewrite <- list_elem_of_In in Hall. specialize (Hall HP).
  rewrite forallb_forall in Hall. specialize (Hall D).
  rewrite <- list_elem_of_In in Hall. specialize (Hall HD).
  unfold lineOk in Hall. cbv zeta in Hall.
  set (e := lineEnd starBoard P D) in *.
  rewrite !andb_true_iff, !Z.leb_le, forallb_forall in Hall.
  destruct Hall as [[He1 He2] Hline].
  exists e. split; [lia|]. intros k Hk.
  destruct (decide (k ≤ 16)) as [Hsmall | Hlarge].
  - specialize (Hline k). rewrite <- list_elem_of_In, elem_of_seqZ in Hline.
    specialize (Hline ltac:(lia)). apply eqb_prop in Hline.
    by rewrite <- cellIn_star, Hline, Z.ltb_lt.
  - split; [|lia]. intros Hin. exfalso.
    apply (far_cells_off P D k); [done | done | lia | done].
Qed.

(** The same for every game state of the program. *)
Lemma real_line gs P D :
  realBoard gs → onBoard gs P → D ∈ HEX_DIRECTIONS →
  ∃ e, 1 ≤ e ≤ 13 ∧ ∀ k, 1 ≤ k → onBoard gs (cellAt P D k) ↔ k < e.
Proof.
  intros [Hstar | Hempty] HP HD.
  - apply (star_onBoard gs P Hstar) in HP.
    destruct (star_line P D HP HD) as (e & He & Hline).
    exists e. split; [done|]. intros k Hk.
    rewrite (star_onBoard gs _ Hstar). by apply Hline.
  - by destruct (empty_onBoard gs P Hempty).
Qed.

End Star.

(* ====================================================================== *)
(** ** The bounded scan and the scan until off-board *)
(* ====================================================================== *)

Section BoundedScan.

Variable gs : GameState.
Variable findMoves_rec :
  HexPosition → HexPosition → bool → list HexPosition →
  SearchState → SearchResult.
Variables (startPos P D : HexPosition).
Variable path : list HexPosition.

Lemma onBoard_false p : ¬ onBoard gs p ↔ GS.isPositionOnBoard gs p = false.
Proof.
  unfold onBoard. destruct (GS.isPositionOnBoard gs p); split; congruence.
Qed.

(** A bounded scan that has an off-board cell within its reach does what
    the unbounded scan does. *)
Lemma jumpScan_follows_scan n : ∀ distance foundPiece pieceDistance st e,
  distance ≤ e < distance + Z.of_nat n →
  ¬ onBoard gs (cellAt P D e) →
  scanUntilOffBoard gs findMoves_rec startPos P D path
    distance foundPiece pieceDistance st
    (jumpScan gs findMoves_rec startPos P D path n
       distance foundPiece pieceDistance st).
Proof.
  induction n as [|n IH]; intros distance foundPiece pieceDistance st e
    He Hoff; [lia|].
  simpl. fold (cellAt P D distance).
  destruct (GS.isPositionOnBoard gs (cellAt P D distance)) eqn:Hon; simpl.
  2:{ apply scan_offBoard. by apply onBoard_false. }
  assert (Hnext : distance + 1 ≤ e < distance + 1 + Z.of_nat n).
  { destruct (decide (e = distance)) as [-> | Hne]; [|lia].
    apply onBoard_false in Hoff. congruence. }
  destruct foundPiece; simpl;
    destruct (GS.isPositionOccupied gs (cellAt P D distance)) eqn:Hocc.
  - by apply scan_blocked.
  - destruct (Z.eqb_spec distance (pieceDistance * 2)) as [Heq | Hne].
    + replace (if negb (bool_decide (Hex.key (cellAt P D distance) ∈ st.1))
               then _ else _)
        with (landOn findMoves_rec startPos (cellAt P D distance) path st)
        by (unfold landOn; by case_bool_decide).
      apply scan_landing; [done | done | lia].
    + apply scan_before_landing; [done | done | lia |].
      by apply (IH _ _ _ _ e).
  - destruct (Hex.equals (cellAt P D distance) startPos) eqn:Heq.
    + apply scan_origin; [done | done |]. by apply equals_true.
    + apply scan_pivot; [done | done | by apply equals_false |].
      by apply (IH _ _ _ _ e).
  - apply scan_empty; [done | done |]. by apply (IH _ _ _ _ e).
Qed.

(** The unbounded scan has one result at most. *)
Lemma scan_deterministic k found pd st res1 res2 :
  scanUntilOffBoard gs findMoves_rec startPos P D path k found pd st res1 →
  scanUntilOffBoard gs findMoves_rec startPos P D path k found pd st res2 →
  res1 = res2.
Proof.
  intros Hscan1. revert res2.
  induction Hscan1; intros res2 Hscan2; inversion Hscan2; subst;
    unfold onBoard, occupied, unoccupied in *;
    try done; try congruence; try lia; eauto.
Qed.

End BoundedScan.

Section ScanOnStar.

Variable gs : GameState.
Hypothesis star : realBoard gs.
Variables (startPos P D : HexPosition).
Hypothesis D_dir : D ∈ HEX_DIRECTIONS.

Lemma cellAt_shift k :
  cellAt (cellAt P D 1) D k = cellAt P D (k + 1).
Proof.
  destruct P, D. unfold cellAt, Hex.add, Hex.scale. simpl. f_equal; lia.
Qed.

(** A line that enters the star at its first cell stays in it for an
    unbroken run and has left it for good by distance 14, wherever [P]
    lies. *)
Lemma real_line_any :
  onBoard gs (cellAt P D 1) →
  ∃ e, 2 ≤ e ≤ 14 ∧ ∀ k, 1 ≤ k → onBoard gs (cellAt P D k) ↔ k < e.
Proof.
  intros Hfirst.
  destruct (real_line gs (cellAt P D 1) D star Hfirst D_dir)
    as (e & He & Hline).
  exists (e + 1). split; [lia|]. intros k Hk.
  destruct (decide (k = 1)) as [-> | Hne]; [split; [lia | done]|].
  replace k with ((k - 1) + 1) at 1 by lia.
  rewrite <- cellAt_shift, Hline by lia. lia.
Qed.

(** On the star the loop bound and the on-board tests between pivot and
    landing follow from the landing being on the board. *)
Lemma jumpLegal_on_star (visited : gset string) (d : Z) :
  jumpLegal gs startPos P D visited d ↔
  pivotAndLanding gs startPos P D 16 d ∧
  Hex.key (cellAt P D (2 * d)) ∉ visited.
Proof.
  unfold jumpLegal, pivotAndLanding. split.
  - intros (Hd & Hrun & Hon & Hocc & Hne & Hmid & Hland & Hfree & Hvis).
    assert (Hfirst : onBoard gs (cellAt P D 1)).
    { destruct (decide (d = 1)) as [-> | Hd1]; [done|]. apply Hrun. lia. }
    destruct (real_line_any Hfirst) as (e & He & Hline).
    assert (2 * d < e) by (apply Hline; [lia | done]).
    split; [|done]. split_and!; try done; try lia.
    intros k Hk. split; [apply Hline; lia|].
    destruct (decide (k = 2 * d)) as [-> | Hk']; [done|]. apply Hmid. lia.
  - intros [(Hd & Hlim & Hrun & Hon & Hocc & Hne & Hrun2) Hvis].
    split_and!; try done.
    + intros k Hk. apply Hrun2. lia.
    + apply Hrun2. lia.
    + apply Hrun2. lia.
Qed.

(** An off-board cell lies within reach of every scan of 16 or more
    iterations. *)
Lemma first_off_board :
  ∃ e, 1 ≤ e ≤ 14 ∧ ¬ onBoard gs (cellAt P D e) ∧
       ∀ k, 1 ≤ k < e → onBoard gs (cellAt P D k).
Proof.
  destruct (GS.isPositionOnBoard gs (cellAt P D 1)) eqn:Hfirst.
  - destruct (real_line_any Hfirst) as (e & He & Hline).
    exists e. split; [lia|]. split.
    + rewrite Hline by lia. lia.
    + intros k Hk. apply Hline; lia.
  - exists 1. split; [lia|]. split; [|lia].
    unfold onBoard. congruence.
Qed.

(** On the star, a scan of 16 or more iterations is the unbounded scan. *)
Lemma scan_agrees_with_unbounded
    (findMoves_rec : HexPosition → HexPosition → bool →
                     list HexPosition → SearchState → SearchResult)
    (path : list HexPosition) (st : SearchState) (limit : nat) :
  (16 ≤ limit)%nat →
  scanUntilOffBoard gs findMoves_rec startPos P D path 1 false 0 st
    (checkJumpWithin gs findMoves_rec startPos P D path limit st).
Proof.
  intros Hlimit. destruct first_off_board as (e & He & Hoff & _).
  unfold checkJumpWithin.
  apply (jumpScan_follows_scan _ _ _ _ _ _ _ _ _ _ _ e); [lia | done].
Qed.

Lemma scan_bound_irrelevant
    (findMoves_rec : HexPosition → HexPosition → bool →
                     list HexPosition → SearchState → SearchResult)
    (path : list HexPosition) (st : SearchState) (limit : nat) :
  (16 ≤ limit)%nat →
  checkJumpWithin gs findMoves_rec startPos P D path limit st =
  checkJumpWithin gs findMoves_rec startPos P D path 16 st.
Proof.
  intros Hlimit.
  eapply scan_deterministic; by apply scan_agrees_with_unbounded.
Qed.

End ScanOnStar.

(** On the star, the whole exploration does not depend on the bound of its
    scans once that bound is 16 or more. *)
Lemma findMoves_bound_irrelevant gs startPos (limit : nat) :
  realBoard gs → (16 ≤ limit)%nat →
  ∀ fuel cur hasJumped path st,
    findMovesWithin gs limit fuel startPos cur hasJumped path st =
    findMovesWithin gs 16 fuel startPos cur hasJumped path st.
Proof.
  intros Hstar Hlimit.
  induction fuel as [|fuel IH]; intros cur hasJumped path st; [done|].
  rewrite !findMovesWithin_S. case_bool_decide; [done|].
  apply forEach_ext. intros D st1 HD.
  rewrite (scan_bound_irrelevant gs Hstar startPos cur D HD _ _ _ limit)
    by done.
  unfold checkJumpWithin. apply jumpScan_rec_ext. intros L path' st2.
  apply IH.
Qed.


(** C3. In every board state of the program (the board laid out by
    [initializeBoard], with any pieces; or no board yet), for every
    exploration position [P] (every board cell, and any other
    position as well) and every direction [D]: the first off-board cell
    along [D] lies at a distance of at most 14 (so within 16, and within
    17), all cells before it being on the board; hence the scan bounded by
    16 has exactly the result of the scan that runs until it is off the
    board, every larger bound gives the same result, and so does the whole
    exploration with any larger bound. *)
Theorem C3_bound_never_cuts_scan (gs : GameState)
    (findMoves_rec : HexPosition → HexPosition → bool →
                     list HexPosition → SearchState → SearchResult)
    (startPos P D : HexPosition) (path : list HexPosition)
    (st : SearchState) :
  realBoard gs → D ∈ HEX_DIRECTIONS →
  (∃ e, 1 ≤ e ≤ 14 ∧ ¬ onBoard gs (cellAt P D e) ∧
        ∀ k, 1 ≤ k < e → onBoard gs (cellAt P D k)) ∧
  (∀ res,
     scanUntilOffBoard gs findMoves_rec startPos P D path 1 false 0 st res ↔
     _checkJumpInDirection gs findMoves_rec startPos P D path st = res) ∧
  (∀ limit, (16 ≤ limit)%nat →
     checkJumpWithin gs findMoves_rec startPos P D path limit st =
     _checkJumpInDirection gs findMoves_rec startPos P D path st) ∧
  (∀ limit fuel hasJumped, (16 ≤ limit)%nat →
     findMovesWithin gs limit fuel startPos P hasJumped path st =
     _findMoves gs fuel startPos P hasJumped path st).
Proof.
  intros Hstar HD. split_and!.
  - by apply first_off_board.
  - intros res. unfold _checkJumpInDirection. split.
    + intros Hres. symmetry.
      apply (scan_deterministic _ _ _ _ _ _ _ _ _ _ _ _ Hres).
      by apply scan_agrees_with_unbounded.
    + intros <-. by apply scan_agrees_with_unbounded.
  - intros limit Hlimit. by apply scan_bound_irrelevant.
  - intros limit fuel hasJumped Hlimit.
    by apply findMoves_bound_irrelevant.
Qed.

(** C2. In every board state of the program (the board laid out by
    [initializeBoard], with any pieces; or no board yet), for every
    exploration position [P], every direction [D] and every distance
    [d]: the scan from [P] along [D], run inside an exploration whose
    recursion budget covers the cells not yet visited, returns, and the
    jump landing at distance [2d] is the move it records exactly when the
    cells at distances 1..d-1 are on the board and unoccupied, the cell at
    [d] is on the board, occupied and not the start position, the cells at
    d+1..2d-1 are unoccupied, the cell at [2d] is on the board and
    unoccupied, and that cell is not yet visited. *)
Theorem C2_jump_recorded_iff_legal (gs : GameState)
    (startPos P D : HexPosition) (path : list HexPosition)
    (st : SearchState) (fuel : nat) :
  realBoard gs → D ∈ HEX_DIRECTIONS →
  (unvisitedCells gs st.1 ≤ fuel)%nat →
  ∃ st',
    _checkJumpInDirection gs (_findMoves gs fuel) startPos P D path st
    = Some st' ∧
    ∀ d, jumpRecorded P D path d st st' ↔
         jumpLegal gs startPos P D st.1 d.
Proof.
  intros Hstar HD Hfuel. unfold _checkJumpInDirection.
  pose proof (findMoves_exploresWell gs 16 startPos fuel) as Hrec.
  assert (Hnone : ∀ d, ¬ jumpRecorded P D path d st st).
  { intros d [rest Hrest]. apply (f_equal length) in Hrest.
    rewrite length_app in Hrest. simpl in Hrest. lia. }
  destruct (checkJumpWithin_cases gs (_findMoves gs fuel) startPos P D path
              16 st) as [[-> Hno] | (d0 & Hpl & ->)].
  { exists st. split; [done|]. intros d. split; [by intros ?%Hnone|].
    intros [Hd _]%(jumpLegal_on_star gs Hstar startPos P D HD).
    by destruct (Hno d). }
  assert (Hsame : ∀ d, pivotAndLanding gs startPos P D 16 d → d = d0).
  { intros d Hd.
    destruct Hd as (? & _ & ? & _ & ? & _), Hpl as (? & _ & ? & _ & ? & _).
    by apply (pivot_unique gs P D). }
  unfold landOn. set (L := cellAt P D (2 * d0)). case_bool_decide as Hvis.
  { exists st. split; [done|]. intros d. split; [by intros ?%Hnone|].
    intros [Hd Hfree]%(jumpLegal_on_star gs Hstar startPos P D HD).
    rewrite (Hsame d Hd) in Hfree. done. }
  assert (HonL : onBoard gs L).
  { destruct Hpl as (Hd & _ & _ & _ & _ & _ & Hrun). apply Hrun. lia. }
  destruct (Hrec L (path ++ [L])
              (st.1, st.2 ++ [createJumpMove L (path ++ [L])]) HonL Hvis
              Hfuel)
    as (st' & Hrun & _ & new & Hm & _).
  exists st'. split; [done|]. simpl in Hm.
  intros d. rewrite (jumpLegal_on_star gs Hstar startPos P D HD). split.
  - intros [rest Hrest]. rewrite Hm, <- app_assoc in Hrest.
    apply app_inv_head in Hrest. simpl in Hrest.
    injection Hrest as Hq Hr _ _.
    assert (d = d0) as ->.
    { assert (cellAt P D (2 * d0) = cellAt P D (2 * d)) as Hcell.
      { unfold cellAt, Hex.add, Hex.scale in *. simpl in *. f_equal; lia. }
      apply (cellAt_inj P D) in Hcell; [lia | done]. }
    done.
  - intros [Hd _]. rewrite (Hsame d Hd). exists new.
    by rewrite Hm, <- app_assoc.
Qed.

(* ====================================================================== *)
(** ** The cell set is fixed *)
(* ====================================================================== *)

Section FixedCells.

Lemma initializeBoard_star gs :
  homeSpaces gs = TriangleGenerator.generateAllTriangles →
  board (GS.initializeBoard gs) = starBoard.
Proof.
  intros Hspaces. unfold starBoard, GS.initializeBoard, GS.set_board.
  cbn [board]. rewrite Hspaces. reflexivity.
Qed.

(** A game set up by [initGame] is played on the star. *)
Lemma initGame_realBoard gs playerCount gs' :
  homeSpaces gs = TriangleGenerator.generateAllTriangles →
  GameMode.initGame gs playerCount = Some gs' → realBoard gs'.
Proof.
  intros Hspaces Hinit.
  destruct (initGame_spec gs playerCount) as (gs1 & Hinit1 & _ & _ & Hdom).
  rewrite Hinit in Hinit1. injection Hinit1 as <-.
  left. rewrite Hdom. by rewrite initializeBoard_star.
Qed.

(** Before the board is laid out there is no cell. *)
Lemma new_realBoard : realBoard GS.new.
Proof. right. apply dom_empty_L. Qed.

(** Relocating a piece keeps the cells. *)
Lemma movePiece_realBoard gs fromPos toPos :
  realBoard gs → realBoard (GS.movePiece gs fromPos toPos).2.
Proof.
  unfold realBoard. intros Hreal.
  assert (Hdom : dom (board (GS.movePiece gs fromPos toPos).2)
                 = dom (board gs)); [|by rewrite Hdom].
  unfold GS.movePiece, GS.getBoardCell.
  destruct (board gs !! Hex.key fromPos) as [fromCell|] eqn:Hfrom; [|done].
  destruct (board gs !! Hex.key toPos) as [toCell|] eqn:Hto; [|done].
  destruct (negb (BoardCell.hasPiece fromCell) || BoardCell.hasPiece toCell);
    [done|].
  destruct (BoardCell.removePiece fromCell) as [piece fromCell'].
  destruct (BoardCell.getPiece (BoardCell.setPiece toCell piece)); [|done].
  apply elem_of_dom_2 in Hfrom. apply elem_of_dom_2 in Hto.
  match goal with
  | |- context [GS.findPlayer ?g ?o] => destruct (GS.findPlayer g o) as [[i pl]|]
  end; cbn [snd board GS.emit GS.set_players GS.set_board];
    rewrite !dom_insert_L; apply set_eq; intros k;
    rewrite !elem_of_union, !elem_of_singleton;
    (split; [intros [-> | [-> | Hk]]; done | by (right; right)]).
Qed.

Lemma placePiece_realBoard gs pos piece :
  realBoard gs → realBoard (GS.placePiece gs pos piece).
Proof.
  unfold realBoard.
  destruct (placePiece_frame gs pos piece) as (_ & _ & ->). done.
Qed.

Lemma removePieceAt_realBoard gs pos :
  realBoard gs → realBoard (GS.removePieceAt gs pos).2.
Proof.
  unfold realBoard, GS.removePieceAt, GS.getBoardCell.
  destruct (board gs !! Hex.key pos) as [cell|] eqn:Hcell; [|done].
  cbn [BoardCell.removePiece snd board GS.set_board].
  rewrite dom_insert_L. apply elem_of_dom_2 in Hcell.
  assert ({[Hex.key pos]} ∪ dom (board gs) = dom (board gs)) as ->; [|done].
  apply set_eq. intros k. rewrite elem_of_union, elem_of_singleton.
  split; [intros [-> | Hk]; done | by right].
Qed.

Lemma reset_realBoard gs : realBoard gs → realBoard (GS.reset gs).
Proof.
  unfold realBoard, GS.reset, GS.emit. cbn [board].
  by rewrite dom_fmap_L.
Qed.

Lemma openingState_realBoard : realBoard openingState.
Proof.
  assert (Hdec : bool_decide (dom (board openingState) = dom starBoard)
                 = true) by (vm_compute; reflexivity).
  left. exact (bool_decide_eq_true_1 _ Hdec).
Qed.

End FixedCells.

(* ====================================================================== *)
(** ** The theorems at concrete positions *)
(* ====================================================================== *)

Lemma C2_jump_recorded_iff_legal_witness :
  realBoard openingState ∧
  HexDirection.SOUTHEAST ∈ HEX_DIRECTIONS ∧
  (unvisitedCells openingState {[Hex.key (mkHex 2 (-6))]} ≤ 120)%nat ∧
  ∃ st',
    _checkJumpInDirection openingState (_findMoves openingState 120)
      (mkHex 2 (-6)) (mkHex 2 (-6)) HexDirection.SOUTHEAST []
      ({[Hex.key (mkHex 2 (-6))]}, []) = Some st' ∧
    ∀ d, jumpRecorded (mkHex 2 (-6)) HexDirection.SOUTHEAST [] d
           ({[Hex.key (mkHex 2 (-6))]}, []) st' ↔
         jumpLegal openingState (mkHex 2 (-6)) (mkHex 2 (-6))
           HexDirection.SOUTHEAST {[Hex.key (mkHex 2 (-6))]} d.
Proof.
  assert (Hreal : realBoard openingState).
  { apply (bool_decide_eq_true_1 (realBoard openingState)).
    vm_compute. reflexivity. }
  assert (Hdir : HexDirection.SOUTHEAST ∈ HEX_DIRECTIONS).
  { unfold HEX_DIRECTIONS. rewrite !elem_of_cons. tauto. }
  assert (Hfuel :
    (unvisitedCells openingState {[Hex.key (mkHex 2 (-6))]} ≤ 120)%nat).
  { vm_compute. lia. }
  split_and!; [exact Hreal | exact Hdir | exact Hfuel |].
  exact (C2_jump_recorded_iff_legal openingState (mkHex 2 (-6))
           (mkHex 2 (-6)) HexDirection.SOUTHEAST []
           ({[Hex.key (mkHex 2 (-6))]}, []) 120 Hreal Hdir Hfuel).
Defined.

Lemma C3_bound_never_cuts_scan_witness :
  realBoard openingState ∧
  HexDirection.EAST ∈ HEX_DIRECTIONS ∧
  (∃ e, 1 ≤ e ≤ 14 ∧
        ¬ onBoard openingState (cellAt (mkHex (-4) 0) HexDirection.EAST e) ∧
        ∀ k, 1 ≤ k < e →
             onBoard openingState (cellAt (mkHex (-4) 0) HexDirection.EAST k)) ∧
  (∀ res,
     scanUntilOffBoard openingState noRecursion (mkHex (-4) 0) (mkHex (-4) 0)
       HexDirection.EAST [] 1 false 0 (∅, []) res ↔
     _checkJumpInDirection openingState noRecursion (mkHex (-4) 0)
       (mkHex (-4) 0) HexDirection.EAST [] (∅, []) = res) ∧
  (∀ limit, (16 ≤ limit)%nat →
     checkJumpWithin openingState noRecursion (mkHex (-4) 0) (mkHex (-4) 0)
       HexDirection.EAST [] limit (∅, []) =
     _checkJumpInDirection openingState noRecursion (mkHex (-4) 0)
       (mkHex (-4) 0) HexDirection.EAST [] (∅, [])) ∧
  (∀ limit fuel hasJumped, (16 ≤ limit)%nat →
     findMovesWithin openingState limit fuel (mkHex (-4) 0) (mkHex (-4) 0)
       hasJumped [] (∅, []) =
     _findMoves openingState fuel (mkHex (-4) 0) (mkHex (-4) 0)
       hasJumped [] (∅, [])).
Proof.
  assert (Hreal : realBoard openingState).
  { apply (bool_decide_eq_true_1 (realBoard openingState)).
    vm_compute. reflexivity. }
  assert (Hdir : HexDirection.EAST ∈ HEX_DIRECTIONS).
  { unfold HEX_DIRECTIONS. rewrite !elem_of_cons. tauto. }
  split; [exact Hreal|]. split; [exact Hdir|].
  exact (C3_bound_never_cuts_scan openingState noRecursion (mkHex (-4) 0)
           (mkHex (-4) 0) HexDirection.EAST [] (∅, []) Hreal Hdir).
Defined.

Lemma C4_never_jumps_over_origin_witness :
  1 ≤ 1 ∧
  clearRun openingState (mkHex 1 (-4)) HexDirection.NORTHWEST 1 1 ∧
  onBoard openingState (cellAt (mkHex 1 (-4)) HexDirection.NORTHWEST 1) ∧
  occupied openingState (cellAt (mkHex 1 (-4)) HexDirection.NORTHWEST 1) ∧
  cellAt (mkHex 1 (-4)) HexDirection.NORTHWEST 1 = mkHex 1 (-5) ∧
  _checkJumpInDirection openingState noRecursion (mkHex 1 (-5))
    (mkHex 1 (-4)) HexDirection.NORTHWEST [mkHex 1 (-4)] (∅, [])
  = Some (∅, []).
Proof.
  assert (Hrun : clearRun openingState (mkHex 1 (-4))
                   HexDirection.NORTHWEST 1 1).
  { intros k Hk. lia. }
  assert (Hon : onBoard openingState
                  (cellAt (mkHex 1 (-4)) HexDirection.NORTHWEST 1)).
  { vm_compute. reflexivity. }
  assert (Hocc : occupied openingState
                   (cellAt (mkHex 1 (-4)) HexDirection.NORTHWEST 1)).
  { vm_compute. reflexivity. }
  split_and!; [lia | exact Hrun | exact Hon | exact Hocc | reflexivity |].
  apply (C4_never_jumps_over_origin openingState noRecursion (mkHex 1 (-5))
           (mkHex 1 (-4)) HexDirection.NORTHWEST [mkHex 1 (-4)] (∅, []) 1);
    [lia | exact Hrun | exact Hon | exact Hocc | reflexivity].
Defined.

(* ====================================================================== *)
(** ** Worked positions *)
(* ====================================================================== *)

(** From the opening position a piece of the second row of the home
    triangle's base can only jump. *)
Example opening_jumps :
  findValidMoves openingState (mkHex 2 (-6)) =
  Some [ createJumpMove (mkHex 0 (-4)) [mkHex 0 (-4)];
         createJumpMove (mkHex 2 (-4)) [mkHex 2 (-4)] ].
Proof. vm_compute. reflexivity. Qed.

(** A chain of two hops: the second landing carries the whole path, and
    the occupied neighbour gives no step. *)
Example chain_of_two :
  findValidMoves (boardWith [mkHex 0 0; mkHex 1 0; mkHex 3 0]) (mkHex 0 0) =
  Some [ createJumpMove (mkHex 2 0) [mkHex 2 0];
         createJumpMove (mkHex 4 0) [mkHex 2 0; mkHex 4 0];
         createSimpleMove (mkHex 1 (-1)); createSimpleMove (mkHex 0 (-1));
         createSimpleMove (mkHex (-1) 0); createSimpleMove (mkHex (-1) 1);
         createSimpleMove (mkHex 0 1) ].
Proof. vm_compute. reflexivity. Qed.

(** A long jump over a pivot two cells away. *)
Example long_jump :
  findValidMoves (boardWith [mkHex 0 0; mkHex 0 2]) (mkHex 0 0) =
  Some [ createSimpleMove (mkHex 1 0); createSimpleMove (mkHex 1 (-1));
         createSimpleMove (mkHex 0 (-1)); createSimpleMove (mkHex (-1) 0);
         createSimpleMove (mkHex (-1) 1); createSimpleMove (mkHex 0 1);
         createJumpMove (mkHex 0 4) [mkHex 0 4] ].
Proof. vm_compute. reflexivity. Qed.

(** In the middle of a chain, at (0,-2), the scan towards the start meets
    the start as first occupied cell, two cells away: no jump over it to
    (0,2) is recorded. *)
Example no_jump_over_origin :
  findValidMoves (boardWith [mkHex 0 0; mkHex 1 (-1); mkHex 1 (-2)])
    (mkHex 0 0) =
  Some [ createSimpleMove (mkHex 1 0);
         createJumpMove (mkHex 2 (-2)) [mkHex 2 (-2)];
         createJumpMove (mkHex 0 (-2)) [mkHex 2 (-2); mkHex 0 (-2)];
         createSimpleMove (mkHex 0 (-1)); createSimpleMove (mkHex (-1) 0);
         createSimpleMove (mkHex (-1) 1); createSimpleMove (mkHex 0 1) ].
Proof. vm_compute. reflexivity. Qed.

(** Off the board, and before the board is laid out, there is no move. *)
Example off_board_start :
  findValidMoves openingState (mkHex 20 (-5)) = Some [] ∧
  findValidMoves GS.new (mkHex 2 (-5)) = Some [].
Proof. split; vm_compute; reflexivity. Qed.

(** Keys as JavaScript prints them. *)
Example key_negative : Hex.key (mkHex (-10) 25) = "-10,25".
Proof. vm_compute. reflexivity. Qed.

(** Three players sit on triangles 1, 3 and 5 and play in the order
    3, 5, 1. *)
Example three_players :
  (fun g => (homesOf g, turnOrder g)) <$> GameMode.initGame GS.new 3 =
  Some ([1; 3; 5], [3; 5; 1]).
Proof. vm_compute. reflexivity. Qed.

(** A step in the opening position, carried out. *)
Example opening_step :
  let res := GS.movePiece openingState (mkHex 2 (-5)) (mkHex 2 (-4)) in
  res.1 = true ∧
  GS.getPieceAt res.2 (mkHex 2 (-4)) = Some (Piece.mk (mkHex 2 (-4)) 0 false) ∧
  GS.getPieceAt res.2 (mkHex 2 (-5)) = None ∧
  events res.2 =
    [stateReset;
     pieceMoved (mkHex 2 (-5)) (mkHex 2 (-4)) (Piece.mk (mkHex 2 (-4)) 0 false)].
Proof. vm_compute. done. Qed.
(* ====================================================================== *)
(** ** Every returned move is sound *)
(* ====================================================================== *)

Section Invariants.

(** An invariant of the accumulators that every round of a loop keeps is
    kept by the loop. *)
Lemma forEach_invariant {A} (body : A → SearchState → SearchResult)
    (I : SearchState → Prop) (l : list A) :
  (∀ x s s', x ∈ l → I s → body x s = Some s' → I s') →
  ∀ st st', I st → forEach body l st = Some st' → I st'.
Proof.
  induction l as [|x l IH]; intros Hbody st st' HI Hrun; simpl in Hrun.
  - by injection Hrun as <-.
  - destruct (body x st) as [s1|] eqn:Hx; [|done].
    apply (IH (fun y s s' Hy => Hbody y s s' (list_elem_of_further _ _ _ Hy))
             s1 st'); [|done].
    eapply Hbody; [left | done | done].
Qed.

(** The same for a loop whose invariant depends on the rounds done. *)
Lemma forEach_progress {A} (body : A → SearchState → SearchResult)
    (I : list A → SearchState → Prop) (l : list A) :
  ∀ done,
  (∀ done' x s s', x ∈ l → I done' s → body x s = Some s' →
                   I (done' ++ [x]) s') →
  ∀ st st', I done st → forEach body l st = Some st' → I (done ++ l) st'.
Proof.
  induction l as [|x l IH]; intros done Hbody st st' HI Hrun; simpl in Hrun.
  - injection Hrun as <-. by rewrite app_nil_r.
  - destruct (body x st) as [s1|] eqn:Hx; [|done].
    replace (done ++ x :: l) with ((done ++ [x]) ++ l)
      by (by rewrite <- app_assoc).
    apply (IH (done ++ [x])
             (fun d y s s' Hy => Hbody d y s s' (list_elem_of_further _ _ _ Hy))
             s1 st'); [|done].
    eapply Hbody; [left | done | done].
Qed.

End Invariants.

Section Soundness.

Variable gs : GameState.
Variable startPos : HexPosition.

Lemma default_last_cons (a x : HexPosition) (l : list HexPosition) :
  default a (last (x :: l)) = default x (last l).
Proof.
  destruct l as [|y l]; [done|].
  change (last (x :: y :: l)) with (last (y :: l)).
  destruct (last (y :: l)) as [z|] eqn:Hz; [done|].
  by apply last_None in Hz.
Qed.

Lemma hopChain_snoc from path L :
  hopChain gs startPos from (path ++ [L]) ↔
  hopChain gs startPos from path ∧
  hop gs startPos (default from (last path)) L.
Proof.
  revert from. induction path as [|x rest IH]; intros from; simpl.
  - tauto.
  - rewrite IH, default_last_cons. tauto.
Qed.

Lemma landing_free P D d :
  pivotAndLanding gs startPos P D 16 d →
  onBoard gs (cellAt P D (2 * d)) ∧ unoccupied gs (cellAt P D (2 * d)).
Proof. intros (Hd & _ & _ & _ & _ & _ & Hrun). apply Hrun. lia. Qed.

Lemma stepCheck_sound cur D hasJumped st :
  Forall (moveSound gs startPos) st.2 →
  Forall (moveSound gs startPos) (stepCheck gs cur D hasJumped st).2.
Proof.
  intros Hst. unfold stepCheck.
  destruct (GS.isPositionOnBoard gs (Hex.add cur D)) eqn:Hon; [|done].
  destruct (GS.isPositionOccupied gs (Hex.add cur D)) eqn:Hocc; [done|].
  destruct hasJumped; [done|]. simpl.
  apply Forall_app. split; [done|]. apply Forall_singleton.
  by split_and!.
Qed.

(** One scan keeps the recorded moves sound, if the recursive call does. *)
Lemma scan_sound
    (findMoves_rec : HexPosition → HexPosition → bool →
                     list HexPosition → SearchState → SearchResult)
    cur D path st st' :
  (∀ L path' s s',
     findMoves_rec startPos L true path' s = Some s' →
     pathTo gs startPos L path' →
     Forall (moveSound gs startPos) s.2 →
     Forall (moveSound gs startPos) s'.2) →
  D ∈ HEX_DIRECTIONS →
  pathTo gs startPos cur path →
  Forall (moveSound gs startPos) st.2 →
  checkJumpWithin gs findMoves_rec startPos cur D path 16 st = Some st' →
  Forall (moveSound gs startPos) st'.2.
Proof.
  intros Hrec HD [Hchain Hend] Hst Hrun.
  destruct (checkJumpWithin_cases gs findMoves_rec startPos cur D path 16 st)
    as [[Hsame _] | (d & Hpl & Hland)].
  { rewrite Hsame in Hrun. by injection Hrun as <-. }
  rewrite Hland in Hrun. unfold landOn in Hrun.
  set (L := cellAt cur D (2 * d)) in *.
  case_bool_decide; [by injection Hrun as <-|].
  destruct (landing_free cur D d Hpl) as [HonL HfreeL].
  assert (Hpath : pathTo gs startPos L (path ++ [L])).
  { split; [|by rewrite last_snoc].
    apply hopChain_snoc. split; [done|]. rewrite Hend. by exists D, d. }
  apply (Hrec _ _ _ _ Hrun Hpath). simpl.
  apply Forall_app. split; [done|]. apply Forall_singleton.
  split_and!; [done | done |]. unfold pathSound. simpl.
  destruct Hpath as [Hc Hl]. split_and!; [|done|by rewrite last_snoc].
  intros Hnil. by destruct path.
Qed.

(** The exploration keeps the recorded moves sound. *)
Lemma findMoves_sound (fuel : nat) : ∀ cur hasJumped path st st',
  findMovesWithin gs 16 fuel startPos cur hasJumped path st = Some st' →
  pathTo gs startPos cur path →
  Forall (moveSound gs startPos) st.2 →
  Forall (moveSound gs startPos) st'.2.
Proof.
  induction fuel as [|fuel IH]; intros cur hasJumped path st st' Hrun Hpath
    Hst; [done|].
  rewrite findMovesWithin_S in Hrun.
  case_bool_decide; [by injection Hrun as <-|].
  eapply (forEach_invariant _
            (fun s => Forall (moveSound gs startPos) s.2));
    [| |exact Hrun]; [|done].
  intros D s s' HD Hs Hbody.
  eapply (scan_sound (findMovesWithin gs 16 fuel)); [| | | |exact Hbody].
  - intros L path' s1 s1' Hr Hp Hs1. by apply (IH L true path' s1 s1').
  - done.
  - done.
  - by apply stepCheck_sound.
Qed.

(** The moves of [findValidMoves] are sound and none targets the start. *)
Lemma findValidMoves_sound :
  ∃ moves, findValidMoves gs startPos = Some moves ∧
    ∀ m, m ∈ moves → moveSound gs startPos m ∧ targetPos m ≠ startPos.
Proof.
  destruct (findValidMoves_extends gs startPos)
    as (visited & moves & Hrun & _ & new & Hm & _ & Hall & _).
  simpl in Hm. subst new. exists moves. split; [done|].
  intros m Hin. split.
  - unfold findValidMoves, _findMoves in Hrun.
    destruct (findMovesWithin gs 16 (searchDepth gs) startPos startPos
                false [] (∅, [])) as [[v ms]|] eqn:Hres; [|done].
    injection Hrun as ->.
    assert (Hsound : Forall (moveSound gs startPos) moves).
    { apply (findMoves_sound _ _ _ _ _ _ Hres); [by split | constructor]. }
    rewrite Forall_forall in Hsound. by apply Hsound.
  - rewrite Forall_forall in Hall.
    destruct (Hall m Hin) as [(_ & D & HD & -> & _) | (_ & _ & Hout & _)].
    + simpl. intros Heq.
      assert (HD0 : D = mkHex 0 0).
      { apply (add_cancel startPos). rewrite Heq. destruct startPos.
        unfold Hex.add. simpl. f_equal; lia. }
      each_direction HD; injection HD0; lia.
    + intros Heq. apply Hout. rewrite Heq. by apply elem_of_singleton.
Qed.

End Soundness.

(* ====================================================================== *)
(** ** Every chain of hops is found *)
(* ====================================================================== *)

Section Completeness.

Variable gs : GameState.
Variable startPos : HexPosition.

Lemma closedUnder_trans (v0 v1 v2 : gset string) :
  v1 ⊆ v2 →
  closedUnder gs startPos v0 v1 → closedUnder gs startPos v1 v2 →
  closedUnder gs startPos v0 v2.
Proof.
  intros Hsub H01 H12 P L HP2 HP0 Hhop.
  destruct (decide (Hex.key P ∈ v1)) as [HP1 | HP1].
  - apply Hsub. by apply (H01 P L).
  - by apply (H12 P L).
Qed.

Lemma loopExplored_refl cur s : loopExplored gs startPos cur [] s s.
Proof.
  split_and!; try done.
  - intros P L HP HnP. done.
  - intros P HP HnP. done.
  - intros D d HD. by apply elem_of_nil in HD.
Qed.

Lemma loopExplored_trans cur ds1 ds2 s0 s1 s2 :
  loopExplored gs startPos cur ds1 s0 s1 →
  loopExplored gs startPos cur ds2 s1 s2 →
  loopExplored gs startPos cur (ds1 ++ ds2) s0 s2.
Proof.
  intros (Hv1 & Hm1 & Hc1 & Hj1 & Hd1) (Hv2 & Hm2 & Hc2 & Hj2 & Hd2).
  split_and!.
  - by etrans.
  - intros m Hm. by apply Hm2, Hm1.
  - by apply (closedUnder_trans _ s1.1).
  - intros P HP2 HP0 Hne.
    destruct (decide (Hex.key P ∈ s1.1)) as [HP1 | HP1].
    + destruct (Hj1 P HP1 HP0 Hne) as (m & Hm & Hrest).
      exists m. split; [by apply Hm2 | done].
    + by apply Hj2.
  - intros D d [HD | HD]%elem_of_app Hpl.
    + by apply Hv2, (Hd1 D d).
    + by apply (Hd2 D d).
Qed.

Lemma stepCheck_explored cur D hasJumped s :
  loopExplored gs startPos cur [] s (stepCheck gs cur D hasJumped s).
Proof.
  assert (Hv : (stepCheck gs cur D hasJumped s).1 = s.1).
  { unfold stepCheck. by repeat case_match. }
  assert (Hm : ∀ m, m ∈ s.2 → m ∈ (stepCheck gs cur D hasJumped s).2).
  { unfold stepCheck. repeat case_match; try done.
    intros m Hin. simpl. apply elem_of_app. by left. }
  split_and!; [by rewrite Hv | done | | |].
  - rewrite Hv. intros P L HP HnP. done.
  - rewrite Hv. intros P HP HnP. done.
  - intros D' d HD'. by apply elem_of_nil in HD'.
Qed.

(** One scan, given that the recursive call explores. *)
Lemma scan_explored
    (findMoves_rec : HexPosition → HexPosition → bool →
                     list HexPosition → SearchState → SearchResult)
    cur D path s s' :
  (∀ L path' s1 s2,
     findMoves_rec startPos L true path' s1 = Some s2 →
     explored gs startPos L s1 s2) →
  checkJumpWithin gs findMoves_rec startPos cur D path 16 s = Some s' →
  loopExplored gs startPos cur [D] s s'.
Proof.
  intros Hrec Hrun.
  assert (Hsame : ∀ d0,
    (∀ d, pivotAndLanding gs startPos cur D 16 d → d = d0) →
    Hex.key (cellAt cur D (2 * d0)) ∈ s.1 →
    loopExplored gs startPos cur [D] s s).
  { intros d0 Huniq Hin. split_and!; try done.
    - intros P L HP HnP. done.
    - intros P HP HnP. done.
    - intros D' d ->%list_elem_of_singleton Hpl.
      by rewrite (Huniq d Hpl). }
  destruct (checkJumpWithin_cases gs findMoves_rec startPos cur D path 16 s)
    as [[Hnone Hno] | (d0 & Hpl & Hland)].
  { rewrite Hnone in Hrun. injection Hrun as <-. split_and!; try done.
    - intros P L HP HnP. done.
    - intros P HP HnP. done.
    - intros D' d ->%list_elem_of_singleton Hd. by destruct (Hno d). }
  assert (Huniq : ∀ d, pivotAndLanding gs startPos cur D 16 d → d = d0).
  { intros d Hd.
    destruct Hd as (? & _ & ? & _ & ? & _), Hpl as (? & _ & ? & _ & ? & _).
    by apply (pivot_unique gs cur D). }
  rewrite Hland in Hrun. unfold landOn in Hrun.
  set (L := cellAt cur D (2 * d0)) in *.
  case_bool_decide as Hvis.
  { injection Hrun as <-. by apply (Hsame d0). }
  destruct (Hrec _ _ _ _ Hrun) as (Hv & HL & Hm & Hc & Hj). simpl in *.
  assert (Hjm : createJumpMove L (path ++ [L]) ∈ s'.2).
  { apply Hm, elem_of_app. right. by apply list_elem_of_singleton. }
  split_and!.
  - done.
  - intros m Hin. apply Hm, elem_of_app. by left.
  - done.
  - intros P HP HnP Hne.
    destruct (decide (P = L)) as [-> | HneL].
    + by exists (createJumpMove L (path ++ [L])).
    + by apply Hj.
  - intros D' d ->%list_elem_of_singleton Hd. by rewrite (Huniq d Hd).
Qed.

(** The exploration leaves every visited cell with all its hop successors
    visited, and a jump recorded for each newly visited cell. *)
Lemma findMoves_explored (fuel : nat) : ∀ cur hasJumped path st st',
  findMovesWithin gs 16 fuel startPos cur hasJumped path st = Some st' →
  explored gs startPos cur st st'.
Proof.
  induction fuel as [|fuel IH]; intros cur hasJumped path st st' Hrun;
    [done|].
  rewrite findMovesWithin_S in Hrun. case_bool_decide as Hvis.
  { injection Hrun as <-. split_and!; try done.
    - intros P L HP HnP. done.
    - intros P HP HnP. done. }
  set (s0 := ({[Hex.key cur]} ∪ st.1, st.2)) in *.
  assert (Hloop : loopExplored gs startPos cur ([] ++ HEX_DIRECTIONS) s0 st').
  { eapply (forEach_progress _
              (fun done s => loopExplored gs startPos cur done s0 s));
      [| |exact Hrun]; [|apply loopExplored_refl].
    intros done D s s' HD Hdone Hbody.
    apply (loopExplored_trans cur done [D] s0 s s'); [done|].
    rewrite <- (app_nil_l [D]).
    eapply loopExplored_trans; [apply stepCheck_explored|].
    eapply scan_explored; [|exact Hbody].
    intros L path' s1 s2 Hr. by apply (IH L true path'). }
  simpl in Hloop. destruct Hloop as (Hv & Hm & Hc & Hj & Hd).
  assert (Hcur : Hex.key cur ∈ st'.1).
  { apply Hv. simpl. apply elem_of_union. left. by apply elem_of_singleton. }
  assert (Hfresh : ∀ P, Hex.key P ∉ st.1 → P ≠ cur → Hex.key P ∉ s0.1).
  { intros P HnP Hne. simpl. rewrite elem_of_union, elem_of_singleton.
    intros [Heq%key_inj | Hin]; done. }
  split_and!.
  - intros k Hk. apply Hv. simpl. apply elem_of_union. by right.
  - done.
  - done.
  - intros P L HP HnP Hhop.
    destruct (decide (P = cur)) as [-> | Hne].
    + destruct Hhop as (D & d & HD & Hpl & ->). by apply (Hd D d).
    + apply (Hc P L); [done | by apply Hfresh | done].
  - intros P HP HnP Hne. apply Hj; [done | by apply Hfresh | done].
Qed.

(** In a visited set that is closed under hops every chain of hops stays
    inside. *)
Lemma hopChain_inside (v : gset string) path : ∀ P x,
  closedUnder gs startPos ∅ v →
  Hex.key P ∈ v → hopChain gs startPos P path → x ∈ path →
  Hex.key x ∈ v.
Proof.
  induction path as [|L rest IH]; intros P x Hclosed HP Hchain Hx.
  - by apply elem_of_nil in Hx.
  - destruct Hchain as [Hhop Hchain].
    assert (HL : Hex.key L ∈ v).
    { apply (Hclosed P L); [done | apply not_elem_of_empty | done]. }
    apply elem_of_cons in Hx as [-> | Hx]; [done|].
    by apply (IH L x).
Qed.

(** The jump-moves of [findValidMoves] are the cells, other than the start,
    that chains of hops lead to. *)
Lemma findValidMoves_complete :
  ∃ moves, findValidMoves gs startPos = Some moves ∧
    ∀ L, (∃ m, m ∈ moves ∧ type m = jump ∧ targetPos m = L) ↔
         L ≠ startPos ∧ hopsTo gs startPos L.
Proof.
  destruct (findValidMoves_sound gs startPos) as (moves & Hrun & Hsound).
  exists moves. split; [done|]. intros L. split.
  - intros (m & Hin & Ht & <-).
    destruct (Hsound m Hin) as [(_ & _ & Hpath) Hne]. split; [done|].
    unfold pathSound in Hpath. rewrite Ht in Hpath.
    by exists (jumpPath m).
  - intros [Hne (path & Hnil & Hchain & Hlast)].
    unfold findValidMoves, _findMoves in Hrun.
    destruct (findMovesWithin gs 16 (searchDepth gs) startPos startPos
                false [] (∅, [])) as [[v ms]|] eqn:Hres; [|done].
    injection Hrun as ->.
    destruct (findMoves_explored _ _ _ _ _ _ Hres)
      as (_ & Hstart & _ & Hclosed & Hjumps). simpl in *.
    apply Hjumps; [|apply not_elem_of_empty|done].
    apply (hopChain_inside v path startPos L Hclosed Hstart Hchain).
    apply list_elem_of_lookup. exists (pred (length path)).
    by rewrite <- last_lookup.
Qed.

End Completeness.

(* ====================================================================== *)
(** ** The set-up of a game *)
(* ====================================================================== *)

Section Setup.

(** The steps of [initGame] do not read the event log. *)
Lemma placePiece_events gs log pos piece :
  GS.placePiece (GS.set_events gs log) pos piece =
  GS.set_events (GS.placePiece gs pos piece) log.
Proof.
  unfold GS.placePiece, GS.getBoardCell. cbn [board GS.set_events].
  by destruct (board gs !! Hex.key pos).
Qed.

Lemma spawnPiece_events i home gs log pos :
  GameMode.spawnPiece i home (GS.set_events gs log) pos =
  GS.set_events (GameMode.spawnPiece i home gs pos) log.
Proof.
  unfold GameMode.spawnPiece. rewrite placePiece_events.
  cbn [players GS.set_events].
  by destruct (players (GS.placePiece gs pos (Piece.new pos home)) !! i).
Qed.

Lemma spawnPieces_events i home log tri : ∀ gs,
  foldl (GameMode.spawnPiece i home) (GS.set_events gs log) tri =
  GS.set_events (foldl (GameMode.spawnPiece i home) gs tri) log.
Proof.
  induction tri as [|pos tri IH]; intros gs; [done|].
  cbn [foldl]. by rewrite spawnPiece_events, IH.
Qed.

Lemma spawnPiecesForPlayer_events gs log i :
  GameMode.spawnPiecesForPlayer (GS.set_events gs log) i =
  (fun g => GS.set_events g log) <$> GameMode.spawnPiecesForPlayer gs i.
Proof.
  unfold GameMode.spawnPiecesForPlayer. cbn [players GS.set_events].
  destruct (players gs !! i) as [ps|]; [|done]. cbn [mbind option_bind].
  destruct (js_index GameMode.homeSpaces (PlayerState.homeTriangleIndex ps))
    as [tri|]; [|done].
  cbn [mbind option_bind fmap option_fmap option_map].
  by rewrite spawnPieces_events.
Qed.

Lemma spawnAll_events log (l : list nat) : ∀ (acc : option GameState),
  foldl (fun acc i => acc ≫= fun g => GameMode.spawnPiecesForPlayer g i)
    ((fun g => GS.set_events g log) <$> acc) l =
  (fun g => GS.set_events g log) <$>
    foldl (fun acc i => acc ≫= fun g => GameMode.spawnPiecesForPlayer g i)
      acc l.
Proof.
  induction l as [|i l IH]; intros acc; [done|].
  cbn [foldl]. rewrite <- IH. f_equal.
  destruct acc as [g|]; [|done]. cbn [fmap option_fmap option_map mbind
    option_bind]. apply spawnPiecesForPlayer_events.
Qed.

(** [initGame] looks at the state it is called in only for the event log
    and the triangle table. *)
Lemma initGame_canonical gs playerCount :
  homeSpaces gs = TriangleGenerator.generateAllTriangles →
  GameMode.initGame gs playerCount =
  (fun g => GS.set_events g (events gs ++ [stateReset])) <$>
    GameMode.initGame GS.new playerCount.
Proof.
  intros Hspaces. unfold GameMode.initGame. cbv zeta.
  set (a := GS.set_turnOrder
              (GS.set_players (GS.initializeBoard (GS.reset gs)) _) _).
  set (b := GS.set_turnOrder
              (GS.set_players (GS.initializeBoard (GS.reset GS.new)) _) _).
  assert (Hpre : a = GS.set_events b (events gs ++ [stateReset])).
  { unfold a, b, GS.set_turnOrder, GS.set_players, GS.initializeBoard,
      GS.set_board, GS.reset, GS.emit, GS.set_events, GS.new.
    cbn [board players turnIndex turnOrder matchPhase homeSpaces events].
    by rewrite Hspaces. }
  rewrite Hpre. cbn [players GS.set_events].
  pose proof (spawnAll_events (events gs ++ [stateReset])
                (seq 0 (length (players b))) (Some b)) as Hall.
  cbn [fmap option_fmap option_map] in Hall. rewrite Hall.
  by destruct (foldl _ (Some b) _).
Qed.

(** Player counts with the same active triangles give the same game. *)
Lemma initGame_indices gs n m :
  GameConfig.getPlayerTriangleIndices n =
  GameConfig.getPlayerTriangleIndices m →
  GameMode.initGame gs n = GameMode.initGame gs m.
Proof. intros Heq. unfold GameMode.initGame. by rewrite Heq. Qed.

Lemma indices_cases n :
  ∃ m, m ∈ [2; 3; 4; 5; 6] ∧
       GameConfig.getPlayerTriangleIndices n =
       GameConfig.getPlayerTriangleIndices m.
Proof.
  unfold GameConfig.getPlayerTriangleIndices.
  destruct (Z.eqb_spec n 2) as [-> | ?];
    [exists 2; split; [set_solver | done]|].
  destruct (Z.eqb_spec n 3) as [-> | ?];
    [exists 3; split; [set_solver | done]|].
  destruct (Z.eqb_spec n 4) as [-> | ?];
    [exists 4; split; [set_solver | done]|].
  destruct (Z.eqb_spec n 5) as [-> | ?];
    [exists 5; split; [set_solver | done]|].
  exists 6. split; [set_solver | done].
Qed.

(** Every game set up is one of five set-ups, with the event log of the
    state it was set up in, extended by the reset. *)
Lemma initGame_setup gs playerCount gs' :
  homeSpaces gs = TriangleGenerator.generateAllTriangles →
  GameMode.initGame gs playerCount = Some gs' →
  ∃ m, m ∈ [2; 3; 4; 5; 6] ∧
       GameConfig.getPlayerTriangleIndices playerCount =
       GameConfig.getPlayerTriangleIndices m ∧
       gs' = GS.set_events (setupFor m) (events gs ++ [stateReset]).
Proof.
  intros Hspaces Hinit.
  destruct (indices_cases playerCount) as (m & Hm & Hidx).
  exists m. split; [done|]. split; [done|].
  rewrite (initGame_indices gs _ _ Hidx), initGame_canonical in Hinit
    by done.
  unfold setupFor.
  destruct (GameMode.initGame GS.new m) as [g|]; [|done].
  by injection Hinit as <-.
Qed.

(** A property of the five set-ups that ignores the event log holds of
    every game set up. *)
Lemma initGame_ind (Q : GameState → Prop) :
  (∀ g log, Q g → Q (GS.set_events g log)) →
  Q (setupFor 2) → Q (setupFor 3) → Q (setupFor 4) → Q (setupFor 5) →
  Q (setupFor 6) →
  ∀ gs playerCount gs',
    homeSpaces gs = TriangleGenerator.generateAllTriangles →
    GameMode.initGame gs playerCount = Some gs' → Q gs'.
Proof.
  intros Hlog Q2 Q3 Q4 Q5 Q6 gs playerCount gs' Hspaces Hinit.
  destruct (initGame_setup gs playerCount gs' Hspaces Hinit)
    as (m & Hm & _ & ->).
  apply Hlog.
  rewrite !elem_of_cons, elem_of_nil in Hm.
  destruct Hm as [->|[->|[->|[->|[->|[]]]]]]; done.
Qed.

End Setup.

(* ====================================================================== *)
(** ** The players' key sets are an index of the board *)
(* ====================================================================== *)

Section Index.

Lemma ownedKeys_spec gs home k :
  k ∈ ownedKeys gs home ↔ holdsPieceOf gs home k.
Proof.
  unfold ownedKeys, holdsPieceOf. rewrite elem_of_dom. split.
  - intros [cell [Hcell Hown]%map_lookup_filter_Some]. simpl in Hown.
    destruct (BoardCell.piece cell) as [piece|] eqn:Hp; [|done].
    exists cell, piece. split_and!; [done | done |]. by injection Hown.
  - intros (cell & piece & Hcell & Hp & Hown). exists cell.
    apply map_lookup_filter_Some. split; [done|]. simpl.
    by rewrite Hp, <- Hown.
Qed.

Lemma consistentb_spec gs : consistentb gs = true → consistent gs.
Proof.
  unfold consistentb, consistent.
  rewrite andb_true_iff, bool_decide_eq_true, forallb_forall.
  intros [Hnd Hall]. split; [done|]. intros p Hp k.
  specialize (Hall p). rewrite <- list_elem_of_In in Hall.
  apply Hall in Hp. apply bool_decide_eq_true in Hp.
  by rewrite Hp, ownedKeys_spec.
Qed.

(** The first player with a given home is the only one, when the homes
    differ. *)
Lemma findPlayer_unique gs i p p' :
  NoDup (homesOf gs) →
  GS.findPlayer gs (PlayerState.homeTriangleIndex p') = Some (i, p) →
  p' ∈ players gs → players gs !! i = Some p' .
Proof.
  intros Hnd Hfind Hin. unfold GS.findPlayer in Hfind.
  apply list_find_Some in Hfind as (Hi & Hhome & _).
  apply list_elem_of_lookup in Hin as [j Hj].
  assert (i = j) as ->; [|done].
  apply (NoDup_lookup (homesOf gs) i j (PlayerState.homeTriangleIndex p'));
    [done | |]; unfold homesOf; rewrite list_lookup_fmap.
  - by rewrite Hi, <- Hhome.
  - by rewrite Hj.
Qed.

End Index.

Section MoveKeepsIndex.

Variable gs : GameState.
Variables fromPos toPos : HexPosition.

(** What a successful [movePiece] has done, cell by cell. *)
Lemma movePiece_true :
  (GS.movePiece gs fromPos toPos).1 = true →
  ∃ fromCell toCell piece,
    board gs !! Hex.key fromPos = Some fromCell ∧
    board gs !! Hex.key toPos = Some toCell ∧
    BoardCell.piece fromCell = Some piece ∧
    BoardCell.piece toCell = None ∧
    Hex.key fromPos ≠ Hex.key toPos ∧
    let piece' := Piece.setPosition piece (BoardCell.position toCell) in
    let gs' := (GS.movePiece gs fromPos toPos).2 in
    board gs' =
      <[Hex.key toPos :=
          BoardCell.mk (BoardCell.position toCell)
            (BoardCell.homeIndex toCell) (Some piece')]>
        (<[Hex.key fromPos :=
             BoardCell.mk (BoardCell.position fromCell)
               (BoardCell.homeIndex fromCell) None]> (board gs)) ∧
    players gs' =
      match GS.findPlayer gs (Piece.ownerPlayerIndex piece) with
      | Some (i, player) =>
          <[i := PlayerState.updatePiecePosition player
                   (Hex.key fromPos) (Hex.key toPos)]> (players gs)
      | None => players gs
      end ∧
    turnIndex gs' = turnIndex gs ∧ turnOrder gs' = turnOrder gs ∧
    matchPhase gs' = matchPhase gs ∧ homeSpaces gs' = homeSpaces gs ∧
    events gs' = events gs ++ [pieceMoved fromPos toPos piece'].
Proof.
  unfold GS.movePiece, GS.getBoardCell.
  destruct (board gs !! Hex.key fromPos) as [fromCell|] eqn:Hfrom; [|done].
  destruct (board gs !! Hex.key toPos) as [toCell|] eqn:Hto; [|done].
  unfold BoardCell.hasPiece.
  destruct (BoardCell.piece fromCell) as [piece|] eqn:Hpiece; [|done].
  destruct (BoardCell.piece toCell) as [other|] eqn:Hother; [done|].
  cbn [negb orb BoardCell.removePiece BoardCell.setPiece BoardCell.getPiece
       BoardCell.piece]. rewrite Hpiece.
  intros _. exists fromCell, toCell, piece.
  assert (Hfind : ∀ b,
    GS.findPlayer (GS.set_board gs b) (Piece.ownerPlayerIndex piece)
    = GS.findPlayer gs (Piece.ownerPlayerIndex piece)) by done.
  split_and!; try done.
  all: try (cbv zeta; unfold Piece.getOwnerPlayerIndex;
    cbn [Piece.setPosition Piece.ownerPlayerIndex]; rewrite Hfind;
    by destruct (GS.findPlayer gs (Piece.ownerPlayerIndex piece))
      as [[i pl]|]).
  intros Heq. rewrite Heq in Hfrom. congruence.
Qed.

(** A failed [movePiece] returns the state it was given. *)
Lemma movePiece_false :
  (GS.movePiece gs fromPos toPos).1 = false →
  (GS.movePiece gs fromPos toPos).2 = gs.
Proof.
  unfold GS.movePiece.
  destruct (GS.getBoardCell gs fromPos) as [fromCell|]; [|done].
  destruct (GS.getBoardCell gs toPos) as [toCell|]; [|done].
  destruct (negb (BoardCell.hasPiece fromCell) || BoardCell.hasPiece toCell);
    [done|].
  cbn [BoardCell.removePiece].
  by destruct (BoardCell.getPiece (BoardCell.setPiece toCell
                                     (BoardCell.piece fromCell))).
Qed.

(** [movePiece] succeeds under its precondition. *)
Lemma movePiece_ok :
  occupied gs fromPos → onBoard gs toPos → unoccupied gs toPos →
  (GS.movePiece gs fromPos toPos).1 = true.
Proof.
  intros (fromCell & piece & Hfrom & Hpiece)%occupied_cell
    [toCell Hto]%onBoard_cell Hfree.
  unfold unoccupied, GS.isPositionOccupied in Hfree. rewrite Hto in Hfree.
  unfold GS.movePiece. rewrite Hfrom, Hto, Hfree.
  unfold BoardCell.hasPiece in *. rewrite Hpiece.
  cbn [negb orb BoardCell.removePiece BoardCell.setPiece BoardCell.getPiece
       BoardCell.piece]. by rewrite Hpiece.
Qed.

End MoveKeepsIndex.

Section MoveKeepsIndex2.

Variable gs : GameState.
Variables fromPos toPos : HexPosition.
Hypothesis Hok : (GS.movePiece gs fromPos toPos).1 = true.

(** The cells that hold a piece of a given player after a move. *)
Lemma holds_after_move home k :
  ∃ piece, GS.getPieceAt gs fromPos = Some piece ∧
  (holdsPieceOf (GS.movePiece gs fromPos toPos).2 home k ↔
   (k = Hex.key toPos ∧ Piece.ownerPlayerIndex piece = home) ∨
   (k ≠ Hex.key toPos ∧ k ≠ Hex.key fromPos ∧ holdsPieceOf gs home k)).
Proof.
  destruct (movePiece_true gs fromPos toPos Hok)
    as (fromCell & toCell & piece & Hfrom & Hto & Hpiece & Hfree & Hne
        & Hboard & _).
  exists piece. split.
  { unfold GS.getPieceAt, GS.getBoardCell. by rewrite Hfrom. }
  unfold holdsPieceOf. rewrite Hboard.
  destruct (decide (k = Hex.key toPos)) as [->|Hkt].
  { rewrite lookup_insert_eq. split.
    - intros (cell & pc & [= <-] & [= <-] & Hown). left. by split.
    - intros [[_ Hown]|[? _]]; [|done]. eauto. }
  rewrite lookup_insert_ne by done.
  destruct (decide (k = Hex.key fromPos)) as [->|Hkf].
  { rewrite lookup_insert_eq. split.
    - by intros (cell & pc & [= <-] & [=] & _).
    - intros [[? _]|(_ & ? & _)]; done. }
  rewrite lookup_insert_ne by done. split.
  - intros H. right. by split_and!.
  - intros [[? _]|(_ & _ & H)]; done.
Qed.

Lemma holds_before_move home :
  ∃ piece, GS.getPieceAt gs fromPos = Some piece ∧
  (holdsPieceOf gs home (Hex.key fromPos) ↔
     Piece.ownerPlayerIndex piece = home) ∧
  ¬ holdsPieceOf gs home (Hex.key toPos).
Proof.
  destruct (movePiece_true gs fromPos toPos Hok)
    as (fromCell & toCell & piece & Hfrom & Hto & Hpiece & Hfree & Hne & _).
  exists piece. split_and!.
  - unfold GS.getPieceAt, GS.getBoardCell. by rewrite Hfrom.
  - unfold holdsPieceOf. rewrite Hfrom. split.
    + intros (cell & pc & [= <-] & Hpc & Hown). congruence.
    + eauto.
  - unfold holdsPieceOf. rewrite Hto.
    intros (cell & pc & [= <-] & Hpc & _). congruence.
Qed.

(** The players after a move: the mover has its key set updated, the others
    are as they were. *)
Lemma players_after_move p' :
  NoDup (homesOf gs) →
  p' ∈ players (GS.movePiece gs fromPos toPos).2 →
  ∃ piece p, GS.getPieceAt gs fromPos = Some piece ∧ p ∈ players gs ∧
    PlayerState.homeTriangleIndex p' = PlayerState.homeTriangleIndex p ∧
    PlayerState.goalTriangleIndex p' = PlayerState.goalTriangleIndex p ∧
    PlayerState.playerIndex p' = PlayerState.playerIndex p ∧
    ((PlayerState.homeTriangleIndex p = Piece.ownerPlayerIndex piece ∧
      PlayerState.piecePositions p' =
        {[Hex.key toPos]} ∪
        (PlayerState.piecePositions p ∖ {[Hex.key fromPos]})) ∨
     (PlayerState.homeTriangleIndex p ≠ Piece.ownerPlayerIndex piece ∧
      p' = p)).
Proof.
  intros Hnd.
  destruct (movePiece_true gs fromPos toPos Hok)
    as (fromCell & toCell & piece & Hfrom & Hto & Hpiece & Hfree & Hne
        & _ & Hplayers & _).
  cbv zeta in Hplayers. rewrite Hplayers. intros Hin.
  exists piece.
  assert (Hget : GS.getPieceAt gs fromPos = Some piece).
  { unfold GS.getPieceAt, GS.getBoardCell. by rewrite Hfrom. }
  destruct (GS.findPlayer gs (Piece.ownerPlayerIndex piece))
    as [[i pl]|] eqn:Hfind.
  - pose proof Hfind as Hfind'. unfold GS.findPlayer in Hfind'.
    apply list_find_Some in Hfind' as (Hi & Hhome & _).
    apply list_elem_of_lookup in Hin as [j Hj].
    destruct (decide (j = i)) as [->|Hji].
    + rewrite list_lookup_insert_eq in Hj
        by (by apply lookup_lt_Some in Hi).
      injection Hj as <-. exists pl.
      split_and!; try done; [by eapply list_elem_of_lookup_2|].
      left. split; [done|]. unfold PlayerState.updatePiecePosition,
        PlayerState.addPiecePosition, PlayerState.removePiecePosition.
      simpl. set_solver.
    + rewrite list_lookup_insert_ne in Hj by done.
      exists p'. split_and!; try done; [by eapply list_elem_of_lookup_2|].
      right. split; [|done]. intros Heq. apply Hji.
      apply (NoDup_lookup (homesOf gs) j i (Piece.ownerPlayerIndex piece));
        [done | |]; unfold homesOf; rewrite list_lookup_fmap.
      * rewrite Hj. simpl. congruence.
      * rewrite Hi. simpl. congruence.
  - unfold GS.findPlayer in Hfind. apply list_find_None in Hfind.
    exists p'. split_and!; try done. right. split; [|done].
    rewrite Forall_forall in Hfind. by apply Hfind.
Qed.

Lemma homesOf_after_move :
  homesOf (GS.movePiece gs fromPos toPos).2 = homesOf gs.
Proof.
  destruct (movePiece_true gs fromPos toPos Hok)
    as (fromCell & toCell & piece & Hfrom & Hto & Hpiece & Hfree & Hne
        & _ & Hplayers & _).
  cbv zeta in Hplayers. unfold homesOf. rewrite Hplayers.
  destruct (GS.findPlayer gs (Piece.ownerPlayerIndex piece))
    as [[i pl]|] eqn:Hfind; [|done].
  unfold GS.findPlayer in Hfind.
  apply list_find_Some in Hfind as (Hi & Hhome & _).
  rewrite list_fmap_insert. apply list_insert_id.
  rewrite list_lookup_fmap, Hi. done.
Qed.

Lemma movePiece_consistent_ok :
  consistent gs → consistent (GS.movePiece gs fromPos toPos).2.
Proof.
  intros [Hnd Hidx]. split; [by rewrite homesOf_after_move|].
  intros p' Hp' k.
  destruct (players_after_move p' Hnd Hp')
    as (piece & p & Hget & Hp & Hhome & _ & _ & Hkeys).
  destruct (holds_after_move (PlayerState.homeTriangleIndex p') k)
    as (piece1 & Hget1 & Hafter).
  destruct (holds_before_move (PlayerState.homeTriangleIndex p'))
    as (piece2 & Hget2 & Hbefore & Hto).
  assert (piece1 = piece) as -> by congruence.
  assert (piece2 = piece) as -> by congruence.
  rewrite Hafter. rewrite Hhome in *.
  destruct Hkeys as [[Hown ->]|[Hown ->]].
  - rewrite elem_of_union, elem_of_singleton, elem_of_difference,
      not_elem_of_singleton, (Hidx p Hp k).
    destruct (decide (k = Hex.key toPos)) as [->|Hkt]; intuition congruence.
  - rewrite (Hidx p Hp k).
    destruct (decide (k = Hex.key toPos)) as [->|Hkt];
      [intuition congruence|].
    destruct (decide (k = Hex.key fromPos)) as [->|Hkf];
      [|intuition congruence].
    rewrite Hbefore. intuition congruence.
Qed.

End MoveKeepsIndex2.

(** [movePiece] keeps the index, whether it succeeds or not. *)
Lemma movePiece_consistent gs fromPos toPos :
  consistent gs → consistent (GS.movePiece gs fromPos toPos).2.
Proof.
  destruct (GS.movePiece gs fromPos toPos).1 eqn:Hok.
  - by apply movePiece_consistent_ok.
  - by rewrite movePiece_false.
Qed.

(* ====================================================================== *)
(** ** Coordinates and configuration *)
(* ====================================================================== *)

(** X1. Two positions have the same key exactly when they are the same
    position, and [equals] answers true exactly when the keys agree. *)
Theorem X1_key_identifies_position (a b : HexPosition) :
  (Hex.key a = Hex.key b ↔ a = b) ∧
  (Hex.equals a b = true ↔ Hex.key a = Hex.key b).
Proof.
  split.
  - split; [apply key_inj | by intros ->].
  - rewrite equals_true. split; [by intros -> | apply key_inj].
Qed.

Lemma rotateN_nat p (n : nat) :
  Hex.rotateN p (Z.of_nat n) = Nat.iter n Hex.rotate60CCW p.
Proof. unfold Hex.rotateN. by rewrite Nat2Z.id. Qed.

Lemma iter_add {A} (f : A → A) (n m : nat) x :
  Nat.iter (n + m) f x = Nat.iter m f (Nat.iter n f x).
Proof.
  induction m as [|m IH] in n |- *.
  - by rewrite Nat.add_0_r.
  - rewrite Nat.add_succ_r. simpl. by rewrite IH.
Qed.

Lemma rotateN_add p n m :
  0 ≤ n → 0 ≤ m →
  Hex.rotateN (Hex.rotateN p n) m = Hex.rotateN p (n + m).
Proof.
  intros Hn Hm. unfold Hex.rotateN.
  rewrite Z2Nat.inj_add by done. by rewrite iter_add.
Qed.

Lemma rotateN_six_times p (k : nat) :
  Nat.iter (6 * k) Hex.rotate60CCW p = p.
Proof.
  induction k as [|k IH]; [done|].
  replace (6 * S k)%nat with (6 * k + 6)%nat by lia.
  by rewrite iter_add, IH, rotate_ccw_six.
Qed.

Lemma rotateN_mod p n :
  0 ≤ n → Hex.rotateN p n = Hex.rotateN p (n `mod` 6).
Proof.
  intros Hn.
  rewrite (Z.div_mod n 6) at 1 by lia.
  assert (0 ≤ n `div` 6) by (apply Z.div_pos; lia).
  assert (0 ≤ n `mod` 6) by (apply Z.mod_pos_bound; lia).
  rewrite <- rotateN_add by lia.
  f_equal. unfold Hex.rotateN.
  rewrite Z2Nat.inj_mul by lia.
  apply (rotateN_six_times p (Z.to_nat (n `div` 6))).
Qed.

(** X2. Where the code computes exactly, that is for positions [p] and
    [p'] with coordinates of magnitude at most 2^51, a factor [k] whose
    products with the coordinates of [p] stay in that range, and counts
    [n] and [m] of at most 2^51: [rotateN] does nothing for a count of
    zero or less, composes by adding the counts, and has period six; three
    rotations are the point reflection, and a rotation commutes with [add]
    and [scale]. Every rotation of [p], either way, and the scaled [p]
    have coordinates and a sum of coordinates of magnitude at most 2^52,
    and the sum of [p] and [p'] has them of magnitude at most 2^53, so
    that no number that these laws form is beyond 2^53. *)
Theorem X2_rotateN_laws (p p' : HexPosition) (n m k : Z) :
  exactRange p → exactRange p' → exactRange (Hex.scale p k) →
  n ≤ 2 ^ 51 → m ≤ 2 ^ 51 →
  (n ≤ 0 → Hex.rotateN p n = p) ∧
  (0 ≤ n → 0 ≤ m →
     Hex.rotateN (Hex.rotateN p n) m = Hex.rotateN p (n + m)) ∧
  (0 ≤ n → Hex.rotateN p n = Hex.rotateN p (n `mod` 6)) ∧
  Hex.rotateN p 3 = negate p ∧
  Hex.rotate60CCW (Hex.add p p') =
    Hex.add (Hex.rotate60CCW p) (Hex.rotate60CCW p') ∧
  Hex.rotate60CCW (Hex.scale p k) = Hex.scale (Hex.rotate60CCW p) k ∧
  (∀ j, within (2 ^ 52) (Hex.rotateN p j) ∧
        within (2 ^ 52) (Nat.iter (Z.to_nat j) Hex.rotate60CW p)) ∧
  within (2 ^ 53) (Hex.add p p') ∧
  within (2 ^ 52) (Hex.scale p k).
Proof.
  intros Hp Hp' Hpk _ _. split_and!.
  - intros Hn. unfold Hex.rotateN.
    by replace (Z.to_nat n) with 0%nat by lia.
  - apply rotateN_add.
  - apply rotateN_mod.
  - destruct p as [a b]. unfold Hex.rotateN, negate, Hex.rotate60CCW.
    simpl. f_equal; lia.
  - destruct p, p'. unfold Hex.rotate60CCW, Hex.add. simpl. f_equal; lia.
  - destruct p. unfold Hex.rotate60CCW, Hex.scale. simpl. f_equal; lia.
  - intros j. unfold Hex.rotateN.
    by apply rotations_within, exactRange_within.
  - destruct p as [a b], p' as [a' b'].
    unfold exactRange, within, Hex.add in *. simpl in *. lia.
  - by apply exactRange_within.
Qed.

Lemma X2_rotateN_laws_witness :
  exactRange (mkHex 4 (-8)) ∧ exactRange (mkHex 1 (-1)) ∧
  exactRange (Hex.scale (mkHex 4 (-8)) 3) ∧ 7 ≤ 2 ^ 51 ∧ 2 ≤ 2 ^ 51 ∧
  Hex.rotateN (Hex.rotateN (mkHex 4 (-8)) 7) 2 =
    Hex.rotateN (mkHex 4 (-8)) (7 + 2) ∧
  Hex.rotateN (mkHex 4 (-8)) 7 = Hex.rotateN (mkHex 4 (-8)) (7 `mod` 6) ∧
  Hex.rotateN (mkHex 4 (-8)) 3 = negate (mkHex 4 (-8)) ∧
  Hex.rotate60CCW (Hex.add (mkHex 4 (-8)) (mkHex 1 (-1))) =
    Hex.add (Hex.rotate60CCW (mkHex 4 (-8))) (Hex.rotate60CCW (mkHex 1 (-1))) ∧
  Hex.rotate60CCW (Hex.scale (mkHex 4 (-8)) 3) =
    Hex.scale (Hex.rotate60CCW (mkHex 4 (-8))) 3.
Proof.
  assert (Hp : exactRange (mkHex 4 (-8))).
  { unfold exactRange. simpl. lia. }
  assert (Hp' : exactRange (mkHex 1 (-1))).
  { unfold exactRange. simpl. lia. }
  assert (Hpk : exactRange (Hex.scale (mkHex 4 (-8)) 3)).
  { unfold exactRange. simpl. lia. }
  assert (Hn : 7 ≤ 2 ^ 51) by lia.
  assert (Hm : 2 ≤ 2 ^ 51) by lia.
  destruct (X2_rotateN_laws (mkHex 4 (-8)) (mkHex 1 (-1)) 7 2 3
              Hp Hp' Hpk Hn Hm)
    as (_ & Hadd & Hmod & Hneg & Hsum & Hscale & _).
  split_and!; [exact Hp | exact Hp' | exact Hpk | exact Hn | exact Hm
              | apply Hadd; lia | apply Hmod; lia | exact Hneg
              | exact Hsum | exact Hscale].
Defined.

Lemma triangleIndices_cases n :
  let l := GameConfig.getPlayerTriangleIndices n in
  (n = 2 ∧ l = [0; 3]) ∨ (n = 3 ∧ l = [1; 3; 5]) ∨
  (n = 4 ∧ l = [0; 1; 3; 4]) ∨ (n = 5 ∧ l = [0; 1; 2; 3; 4]) ∨
  ((n < 2 ∨ 6 ≤ n) ∧ l = [0; 1; 2; 3; 4; 5]).
Proof.
  unfold GameConfig.getPlayerTriangleIndices.
  destruct (Z.eqb_spec n 2); [by left|].
  destruct (Z.eqb_spec n 3); [by right; left|].
  destruct (Z.eqb_spec n 4); [by right; right; left|].
  destruct (Z.eqb_spec n 5); [by right; right; right; left|].
  right; right; right; right. split; [lia|done].
Qed.

Lemma triangleIndices_NoDup n :
  NoDup (GameConfig.getPlayerTriangleIndices n).
Proof.
  destruct (triangleIndices_cases n)
    as [[_ ->]|[[_ ->]|[[_ ->]|[[_ ->]|[_ ->]]]]];
    apply (bool_decide_eq_true_1 _); vm_compute; reflexivity.
Qed.

(** X3. For every player count the home triangles handed out are distinct
    indices from 0 to 5, as many as there are players when the count is
    from 2 to 6 and all six otherwise. With 2, 4 or 6 players every
    player's goal triangle is another player's home; with 3 it never is. *)
Theorem X3_home_triangles (playerCount : Z) :
  let homes := GameConfig.getPlayerTriangleIndices playerCount in
  NoDup homes ∧ Forall (fun h => 0 ≤ h ≤ 5) homes ∧
  (2 ≤ playerCount ≤ 6 → Z.of_nat (length homes) = playerCount) ∧
  (¬ 2 ≤ playerCount ≤ 6 → homes = [0; 1; 2; 3; 4; 5]) ∧
  (playerCount ≠ 3 → playerCount ≠ 5 →
     ∀ h, h ∈ homes → GameConfig.getGoalTriangleIndex h ∈ homes) ∧
  (playerCount = 3 →
     ∀ h, h ∈ homes → GameConfig.getGoalTriangleIndex h ∉ homes).
Proof.
  cbv zeta. split; [apply triangleIndices_NoDup|].
  split; [apply triangleIndices_small|].
  destruct (triangleIndices_cases playerCount)
    as [[Hn ->]|[[Hn ->]|[[Hn ->]|[[Hn ->]|[Hn ->]]]]];
    (split_and!; [simpl; lia | intros; first [lia | done] | |]);
    try (intros; lia);
    intros; repeat match goal with
            | H : _ ∈ _ :: _ |- _ => apply elem_of_cons in H as [->|H]
            | H : _ ∈ [] |- _ => by apply elem_of_nil in H
            end;
    apply (bool_decide_eq_true_1 _); vm_compute; reflexivity.
Qed.

Lemma getTurnOrder_elem (l : list Z) x :
  x ∈ GameConfig.getTurnOrder l ↔ x ∈ l ∧ 0 ≤ x ≤ 5.
Proof.
  rewrite getTurnOrder_filter, list_elem_of_In, filter_In,
    <- list_elem_of_In, bool_decide_eq_true.
  rewrite !elem_of_cons, elem_of_nil. split.
  - intros [Hx ?]. split; [done|]. lia.
  - intros [? Hx]. split; [|done]. lia.
Qed.

Lemma getTurnOrder_NoDup (l : list Z) : NoDup (GameConfig.getTurnOrder l).
Proof.
  rewrite getTurnOrder_filter.
  assert (Hnd : NoDup [3; 4; 5; 0; 1; 2]).
  { apply (bool_decide_eq_true_1 _). vm_compute. reflexivity. }
  revert Hnd. generalize [3; 4; 5; 0; 1; 2].
  intros l0 Hnd. induction Hnd as [|x l' Hx Hnd IH]; [constructor|].
  simpl. destruct (bool_decide (x ∈ l)); [|done].
  constructor; [|done]. rewrite list_elem_of_In, filter_In,
    <- list_elem_of_In. tauto.
Qed.

Lemma getTurnOrder_perm (l : list Z) :
  NoDup l → Forall (fun h => 0 ≤ h ≤ 5) l → GameConfig.getTurnOrder l ≡ₚ l.
Proof.
  intros Hnd Hall. apply NoDup_Permutation;
    [apply getTurnOrder_NoDup | done |].
  intros x. rewrite getTurnOrder_elem. rewrite Forall_forall in Hall.
  split; [tauto|]. intros Hx. split; [done|]. by apply Hall.
Qed.

(** X4. The turn order never names an index twice and names exactly the
    given indices that lie from 0 to 5; given distinct indices in that
    range, it is a rearrangement of them: every player has one turn in a
    round. *)
Theorem X4_turn_order_once_each (playerIndices : list Z) :
  NoDup (GameConfig.getTurnOrder playerIndices) ∧
  (∀ x, x ∈ GameConfig.getTurnOrder playerIndices ↔
        x ∈ playerIndices ∧ 0 ≤ x ≤ 5) ∧
  (NoDup playerIndices → Forall (fun h => 0 ≤ h ≤ 5) playerIndices →
   GameConfig.getTurnOrder playerIndices ≡ₚ playerIndices).
Proof.
  split_and!;
    [apply getTurnOrder_NoDup | apply getTurnOrder_elem
     | apply getTurnOrder_perm].
Qed.

Lemma goal_reflects home :
  0 ≤ home ≤ 5 →
  TriangleGenerator.generateTriangle (GameConfig.getGoalTriangleIndex home) =
  negate <$> TriangleGenerator.generateTriangle home.
Proof.
  intros H. destruct (small_index home H)
    as [->|[->|[->|[->|[->| ->]]]]]; vm_compute; reflexivity.
Qed.

(** X5. For a home index from 0 to 5 the goal index is again from 0 to 5,
    differs from the home, and has the home as its own goal; the goal
    triangle is the home triangle reflected through the centre, cell by
    cell. *)
Theorem X5_goal_is_opposite (home : Z) :
  0 ≤ home ≤ 5 →
  let goal := GameConfig.getGoalTriangleIndex home in
  0 ≤ goal ≤ 5 ∧ goal ≠ home ∧
  GameConfig.getGoalTriangleIndex goal = home ∧
  TriangleGenerator.generateTriangle goal =
    negate <$> TriangleGenerator.generateTriangle home.
Proof.
  intros H. cbv zeta. split_and!; [| | | | by apply goal_reflects];
    destruct (small_index home H)
      as [->|[->|[->|[->|[->| ->]]]]]; vm_compute; congruence.
Qed.

Lemma X5_goal_is_opposite_witness :
  0 ≤ 1 ≤ 5 ∧
  0 ≤ GameConfig.getGoalTriangleIndex 1 ≤ 5 ∧
  GameConfig.getGoalTriangleIndex 1 ≠ 1 ∧
  GameConfig.getGoalTriangleIndex (GameConfig.getGoalTriangleIndex 1) = 1 ∧
  TriangleGenerator.generateTriangle (GameConfig.getGoalTriangleIndex 1) =
    negate <$> TriangleGenerator.generateTriangle 1.
Proof.
  split; [lia|]. apply (X5_goal_is_opposite 1). lia.
Defined.

(* ====================================================================== *)
(** ** The layout of the board *)
(* ====================================================================== *)

Lemma centre_cells p : p ∈ GS.centerPositions ↔ inCentre p.
Proof.
  unfold GS.centerPositions, inCentre. rewrite list_elem_of_bind. split.
  - intros (qv & (rv & Hp & Hr)%list_elem_of_bind & Hq).
    apply elem_of_seqZ in Hq, Hr. cbv zeta in Hp.
    destruct (Z.leb_spec (Z.abs (- qv - rv)) 4); [|by apply elem_of_nil in Hp].
    apply list_elem_of_singleton in Hp as ->. simpl. lia.
  - intros (Hq & Hr & Hs). exists (q p). split; [|apply elem_of_seqZ; lia].
    apply list_elem_of_bind. exists (r p).
    split; [|apply elem_of_seqZ; lia]. cbv zeta.
    destruct (Z.leb_spec (Z.abs (- q p - r p)) 4); [|lia].
    destruct p. simpl. apply list_elem_of_singleton. done.
Qed.

Lemma star_centre_cells :
  forallb (fun p => bool_decide
                      (starBoard !! Hex.key p = Some (BoardCell.new p (-1))))
    GS.centerPositions = true.
Proof. vm_compute. reflexivity. Qed.

Lemma star_triangle_cells :
  forallb
    (fun i => forallb
       (fun p => bool_decide
                   (starBoard !! Hex.key p = Some (BoardCell.new p i)))
       (TriangleGenerator.generateTriangle i))
    [0; 1; 2; 3; 4; 5] = true.
Proof. vm_compute. reflexivity. Qed.

Lemma star_size : size starBoard = 121%nat.
Proof. vm_compute. reflexivity. Qed.

Lemma star_centre p :
  inCentre p → starBoard !! Hex.key p = Some (BoardCell.new p (-1)).
Proof.
  intros Hp%centre_cells. pose proof star_centre_cells as H.
  rewrite forallb_forall in H. apply list_elem_of_In, H in Hp.
  by apply bool_decide_eq_true in Hp.
Qed.

Lemma star_triangle i p :
  0 ≤ i ≤ 5 → p ∈ TriangleGenerator.generateTriangle i →
  starBoard !! Hex.key p = Some (BoardCell.new p i).
Proof.
  intros Hi Hp. pose proof star_triangle_cells as H.
  rewrite forallb_forall in H. specialize (H i).
  rewrite forallb_forall in H.
  assert (Hin : In i [0; 1; 2; 3; 4; 5]).
  { destruct (small_index i Hi) as [->|[->|[->|[->|[->| ->]]]]];
      simpl; tauto. }
  apply list_elem_of_In, (H Hin) in Hp.
  by apply bool_decide_eq_true in Hp.
Qed.

Lemma starCells_cases p :
  p ∈ starCells ↔
  inCentre p ∨ ∃ i, 0 ≤ i ≤ 5 ∧ p ∈ TriangleGenerator.generateTriangle i.
Proof.
  unfold starCells. rewrite elem_of_app, centre_cells.
  unfold TriangleGenerator.generateAllTriangles.
  rewrite (list_elem_of_In (concat _) p), in_concat. split.
  - intros [?|(tri & Htri & Hp)]; [by left|right].
    apply in_map_iff in Htri as (i & <- & Hi).
    exists i. split; [|by apply list_elem_of_In]. simpl in Hi. lia.
  - intros [?|(i & Hi & Hp)]; [by left|right].
    exists (TriangleGenerator.generateTriangle i).
    split; [|by apply list_elem_of_In].
    apply in_map.
    destruct (small_index i Hi) as [->|[->|[->|[->|[->| ->]]]]];
      simpl; tauto.
Qed.

Lemma star_cell_of k cell :
  starBoard !! k = Some cell →
  k = Hex.key (BoardCell.position cell) ∧ BoardCell.piece cell = None ∧
  BoardCell.position cell ∈ starCells.
Proof.
  intros Hk.
  assert (Hdom : k ∈ dom starBoard) by (apply elem_of_dom; eauto).
  rewrite starBoard_dom, elem_of_list_to_set, list_elem_of_fmap in Hdom.
  destruct Hdom as (p & -> & Hp). pose proof Hp as Hp'.
  apply starCells_cases in Hp' as [Hc|(i & Hi & Ht)].
  - rewrite (star_centre p Hc) in Hk. by injection Hk as <-.
  - rewrite (star_triangle i p Hi Ht) in Hk. by injection Hk as <-.
Qed.

(** X6. [initializeBoard] lays out 121 empty cells whatever the board held
    before: every position of the centre hexagon has a new cell with home
    index -1, every position of triangle [i] a new cell with home index
    [i], and nothing else is on the board; [getHomeIndex] answers -1
    exactly for the positions that lie in no triangle. *)
Theorem X6_board_layout (gs : GameState) :
  homeSpaces gs = TriangleGenerator.generateAllTriangles →
  let g := GS.initializeBoard gs in
  size (board g) = 121%nat ∧
  (∀ p, inCentre p → GS.getBoardCell g p = Some (BoardCell.new p (-1))) ∧
  (∀ i p, 0 ≤ i ≤ 5 → p ∈ TriangleGenerator.generateTriangle i →
          GS.getBoardCell g p = Some (BoardCell.new p i)) ∧
  (∀ p, onBoard g p →
        inCentre p ∨
        ∃ i, 0 ≤ i ≤ 5 ∧ p ∈ TriangleGenerator.generateTriangle i) ∧
  (∀ p, GS.getHomeIndex g p = -1 ↔
        ∀ i, 0 ≤ i ≤ 5 → p ∉ TriangleGenerator.generateTriangle i).
Proof.
  intros Hhome. cbv zeta.
  assert (Hb : board (GS.initializeBoard gs) = starBoard)
    by by apply initializeBoard_star.
  unfold GS.getHomeIndex, GS.getBoardCell. rewrite Hb.
  split_and!.
  - apply star_size.
  - apply star_centre.
  - apply star_triangle.
  - intros p Hp. apply starCells_cases, (star_onBoard (GS.initializeBoard gs));
      [by rewrite Hb | done].
  - intros p. split.
    + intros Hidx i Hi Hp. rewrite (star_triangle i p Hi Hp) in Hidx.
      simpl in Hidx. lia.
    + intros Hno. destruct (starBoard !! Hex.key p) as [cell|] eqn:Hk; [|done].
      destruct (star_cell_of _ _ Hk) as (Hkey & _ & Hin).
      apply key_inj in Hkey. rewrite <- Hkey in Hin.
      apply starCells_cases in Hin as [Hc|(i & Hi & Ht)].
      * rewrite (star_centre p Hc) in Hk. by injection Hk as <-.
      * by destruct (Hno i Hi).
Qed.

Lemma X6_board_layout_witness :
  homeSpaces GS.new = TriangleGenerator.generateAllTriangles ∧
  size (board (GS.initializeBoard GS.new)) = 121%nat.
Proof.
  split; [reflexivity|].
  apply (X6_board_layout GS.new). reflexivity.
Defined.

(* ====================================================================== *)
(** ** Placing, removing and resetting *)
(* ====================================================================== *)

(** Placing a piece on a free position and removing it again gives back
    the state as it was, and the piece as the cell held it: with its
    position set to the cell's. Off the board nothing is placed and nothing
    is removed. *)
Lemma place_then_remove (gs : GameState) (pos : HexPosition)
    (piece : Piece.t) :
  unoccupied gs pos →
  GS.removePieceAt (GS.placePiece gs pos piece) pos =
  ((fun cell => Piece.setPosition piece (BoardCell.position cell)) <$>
     GS.getBoardCell gs pos,
   gs).
Proof.
  unfold unoccupied, GS.isPositionOccupied, GS.placePiece, GS.removePieceAt.
  destruct (GS.getBoardCell gs pos) as [cell|] eqn:Hcell.
  - unfold BoardCell.hasPiece. intros Hfree.
    unfold GS.getBoardCell, GS.set_board. cbn [board].
    rewrite lookup_insert_eq. simpl. f_equal.
    destruct gs as [b ps ti to ph hs ev]. unfold GS.getBoardCell in Hcell.
    cbn [board players turnIndex turnOrder matchPhase homeSpaces events] in *.
    f_equal. rewrite insert_insert_eq. apply insert_id.
    rewrite Hcell. f_equal. destruct cell as [cp ch [pc|]]; [done|done].
  - intros _. by rewrite Hcell.
Qed.

Lemma place_then_remove_example :
  unoccupied (GS.initializeBoard GS.new) (mkHex 0 0) ∧
  GS.removePieceAt
    (GS.placePiece (GS.initializeBoard GS.new) (mkHex 0 0)
       (Piece.new (mkHex 3 3) 0)) (mkHex 0 0) =
  ((fun cell => Piece.setPosition (Piece.new (mkHex 3 3) 0)
                  (BoardCell.position cell)) <$>
     GS.getBoardCell (GS.initializeBoard GS.new) (mkHex 0 0),
   GS.initializeBoard GS.new).
Proof.
  assert (H : unoccupied (GS.initializeBoard GS.new) (mkHex 0 0)).
  { vm_compute. reflexivity. }
  split; [exact H|].
  exact (place_then_remove (GS.initializeBoard GS.new) (mkHex 0 0)
           (Piece.new (mkHex 3 3) 0) H).
Defined.

(** X7. Taking the piece off a cell and placing it back on the same cell
    gives back the state, when the piece knows its cell's position. *)
Theorem X7_remove_then_place (gs : GameState) (pos : HexPosition)
    (piece : Piece.t) :
  cellsCoherent gs →
  GS.getPieceAt gs pos = Some piece →
  (GS.removePieceAt gs pos).1 = Some piece ∧
  unoccupied (GS.removePieceAt gs pos).2 pos ∧
  GS.placePiece (GS.removePieceAt gs pos).2 pos piece = gs.
Proof.
  intros Hco. unfold GS.getPieceAt, GS.removePieceAt, unoccupied,
    GS.isPositionOccupied, GS.placePiece.
  destruct (GS.getBoardCell gs pos) as [cell|] eqn:Hcell; [|done].
  unfold BoardCell.getPiece. intros Hpiece. simpl.
  unfold GS.getBoardCell, GS.set_board in *. cbn [board].
  rewrite lookup_insert_eq. split_and!; [done | done |].
  destruct gs as [b ps ti to ph hs ev].
  cbn [board players turnIndex turnOrder matchPhase homeSpaces events] in *.
  f_equal. rewrite insert_insert_eq. apply insert_id. rewrite Hcell.
  f_equal. destruct (Hco _ _ Hcell) as [_ Hpos]. specialize (Hpos _ Hpiece).
  unfold BoardCell.setPiece, Piece.setPosition. simpl.
  destruct cell as [cp ch pc]. simpl in *. subst pc. rewrite <- Hpos.
  by destruct piece.
Qed.

Lemma reset_lookup gs k :
  board (GS.reset gs) !! k =
  (fun cell => BoardCell.mk (BoardCell.position cell)
                 (BoardCell.homeIndex cell) None) <$> board gs !! k.
Proof. unfold GS.reset, GS.emit. cbn [board]. by rewrite lookup_fmap. Qed.

(** [reset] empties every cell and keeps the cells themselves; it
    leaves no player and no turn order, so that until the next set-up there
    is no current player, nobody has won, and [nextTurn] would make the
    turn index NaN (it has no result here). *)
Lemma reset_clears (gs : GameState) :
  let g := GS.reset gs in
  (∀ p, unoccupied g p) ∧
  (∀ p, onBoard g p ↔ onBoard gs p) ∧
  (∀ p, GS.getHomeIndex g p = GS.getHomeIndex gs p) ∧
  players g = [] ∧ turnOrder g = [] ∧ turnIndex g = 0 ∧
  matchPhase g = WaitingToStart ∧ homeSpaces g = homeSpaces gs ∧
  events g = events gs ++ [stateReset] ∧
  GS.getCurrentPlayer g = None ∧ GS.nextTurn g = None ∧
  GameMode.checkWinCondition g = Some None.
Proof.
  cbv zeta. split_and!; try done.
  - intros p. unfold unoccupied, GS.isPositionOccupied, GS.getBoardCell.
    rewrite reset_lookup. by destruct (board gs !! Hex.key p).
  - intros p. unfold onBoard, GS.isPositionOnBoard.
    rewrite !bool_decide_eq_true, reset_lookup, fmap_is_Some. done.
  - intros p. unfold GS.getHomeIndex, GS.getBoardCell.
    rewrite reset_lookup. by destruct (board gs !! Hex.key p).
Qed.

(* ====================================================================== *)
(** ** The state a set-up leaves *)
(* ====================================================================== *)

Lemma cellsCoherentb_spec gs : cellsCoherentb gs = true → cellsCoherent gs.
Proof.
  unfold cellsCoherentb, cellsCoherent. rewrite forallb_forall.
  intros Hall k cell Hk.
  specialize (Hall (k, cell)). rewrite <- list_elem_of_In in Hall.
  apply elem_of_map_to_list in Hk. apply Hall in Hk.
  apply andb_true_iff in Hk as [Hkey Hpiece].
  apply bool_decide_eq_true in Hkey. split; [done|].
  intros piece Hp. simpl in Hpiece. rewrite Hp in Hpiece.
  by apply bool_decide_eq_true in Hpiece.
Qed.

Lemma setUpb_spec homes gs : setUpb homes gs = true → setUp homes gs.
Proof.
  unfold setUpb, setUp. rewrite !andb_true_iff, !bool_decide_eq_true.
  intros [[[[[Hp Hb] Hc] Hti] Hph] Hhs]. split_and!; try done.
  intros k cell Hk. rewrite forallb_forall in Hc.
  specialize (Hc (k, cell)). rewrite <- list_elem_of_In in Hc.
  apply elem_of_map_to_list in Hk. apply Hc in Hk.
  by apply bool_decide_eq_true in Hk.
Qed.

Lemma setups_setUp :
  forallb (fun m => setUpb (GameConfig.getPlayerTriangleIndices m)
                      (setupFor m)) [2; 3; 4; 5; 6] = true.
Proof. vm_compute. reflexivity. Qed.

Lemma setups_wellFormed :
  forallb (fun m => wellFormedb (setupFor m)) [2; 3; 4; 5; 6] = true.
Proof. vm_compute. reflexivity. Qed.

Lemma wellFormedb_spec gs :
  wellFormedb gs = true →
  consistent gs ∧ cellsCoherent gs ∧
  ∀ p, p ∈ players gs →
    size (PlayerState.piecePositions p) = 10%nat ∧
    0 ≤ PlayerState.homeTriangleIndex p ≤ 5 ∧
    PlayerState.goalTriangleIndex p =
      GameConfig.getGoalTriangleIndex (PlayerState.homeTriangleIndex p).
Proof.
  unfold wellFormedb. rewrite !andb_true_iff, forallb_forall.
  intros [[Hc Hco] Hall].
  split; [by apply consistentb_spec|].
  split; [by apply cellsCoherentb_spec|].
  intros p Hp%list_elem_of_In%Hall.
  rewrite !andb_true_iff, !bool_decide_eq_true in Hp. lia.
Qed.

Lemma setupFor_init m : GameMode.initGame GS.new m = Some (setupFor m).
Proof.
  destruct (initGame_spec GS.new m) as (g & Hg & _).
  unfold setupFor. by rewrite Hg.
Qed.

Lemma triangleIndices_idem n :
  GameConfig.getPlayerTriangleIndices
    (Z.of_nat (length (GameConfig.getPlayerTriangleIndices n))) =
  GameConfig.getPlayerTriangleIndices n.
Proof.
  by destruct (triangleIndices_cases n)
    as [[_ ->]|[[_ ->]|[[_ ->]|[[_ ->]|[_ ->]]]]].
Qed.

Lemma triangleIndices_length n :
  (2 ≤ length (GameConfig.getPlayerTriangleIndices n) ≤ 6)%nat.
Proof.
  destruct (triangleIndices_cases n)
    as [[_ ->]|[[_ ->]|[[_ ->]|[[_ ->]|[_ ->]]]]]; simpl; lia.
Qed.

Lemma initGame_setUp gs playerCount gs' :
  homeSpaces gs = TriangleGenerator.generateAllTriangles →
  GameMode.initGame gs playerCount = Some gs' →
  setUp (GameConfig.getPlayerTriangleIndices playerCount) gs' ∧
  events gs' = events gs ++ [stateReset] ∧
  turnOrder gs' =
    GameConfig.getTurnOrder (GameConfig.getPlayerTriangleIndices playerCount).
Proof.
  intros Hhome Hinit.
  destruct (initGame_spec gs playerCount) as (g & Hg & _ & Hto & _).
  assert (g = gs') as -> by congruence.
  destruct (initGame_setup gs playerCount gs' Hhome Hinit)
    as (m & Hm & Hidx & ->).
  split_and!; [|done|done]. rewrite Hidx.
  pose proof setups_setUp as Hall. rewrite forallb_forall in Hall.
  apply list_elem_of_In, Hall, setUpb_spec in Hm. exact Hm.
Qed.

Lemma initGame_wellFormed gs playerCount gs' :
  homeSpaces gs = TriangleGenerator.generateAllTriangles →
  GameMode.initGame gs playerCount = Some gs' → wellFormed gs'.
Proof.
  intros Hhome Hinit.
  destruct (initGame_setUp gs playerCount gs' Hhome Hinit)
    as ((Hplayers & Hboard & _ & Hti & _ & Hhs) & _ & Hto).
  destruct (initGame_spec gs playerCount) as (g & Hg & Hhomes & _).
  assert (g = gs') as -> by congruence.
  destruct (initGame_setup gs playerCount gs' Hhome Hinit)
    as (m & Hm & Hidx & Hgs').
  pose proof setups_wellFormed as Hall. rewrite forallb_forall in Hall.
  apply list_elem_of_In, Hall, wellFormedb_spec in Hm
    as (Hc & Hco & Hpl).
  assert (Hperm : turnOrder gs' ≡ₚ homesOf gs').
  { rewrite Hto, Hhomes.
    apply getTurnOrder_perm;
      [apply triangleIndices_NoDup | apply triangleIndices_small]. }
  split_and!.
  - by rewrite Hgs'.
  - by rewrite Hgs'.
  - rewrite <- Hboard. by rewrite dom_fmap_L.
  - done.
  - by rewrite Hgs'.
  - rewrite <- (length_fmap PlayerState.homeTriangleIndex).
    fold (homesOf gs'). rewrite Hhomes. by rewrite triangleIndices_idem.
  - done.
  - lia.
  - rewrite Hti. apply Permutation_length in Hperm. rewrite Hperm, Hhomes.
    pose proof (triangleIndices_length playerCount). lia.
Qed.

(* ====================================================================== *)
(** ** What every state of a game in play satisfies *)
(* ====================================================================== *)

Lemma wellFormed_events gs log :
  wellFormed gs → wellFormed (GS.set_events gs log).
Proof. intros H. exact H. Qed.

Lemma wellFormed_phase gs ph :
  wellFormed gs → wellFormed (GS.set_matchPhase gs ph).
Proof. intros H. exact H. Qed.

Lemma size_swap (keys : gset string) (fromKey toKey : string) :
  fromKey ∈ keys → toKey ∉ keys →
  size ({[toKey]} ∪ keys ∖ {[fromKey]}) = size keys.
Proof.
  intros Hin Hout.
  rewrite size_union
    by (apply disjoint_singleton_l; by intros [? _]%elem_of_difference).
  rewrite size_singleton, size_difference by (by apply singleton_subseteq_l).
  rewrite size_singleton.
  assert (size keys ≠ 0%nat); [|lia].
  intros Hz%size_empty_inv. rewrite Hz in Hin.
  by apply not_elem_of_empty in Hin.
Qed.

Lemma movePiece_wellFormed_ok gs fromPos toPos :
  (GS.movePiece gs fromPos toPos).1 = true →
  wellFormed gs → wellFormed (GS.movePiece gs fromPos toPos).2.
Proof.
  intros Hok (Hc & Hco & Hdom & Hhs & Hpl & Hcount & Hperm & Hti).
  pose proof (homesOf_after_move gs fromPos toPos Hok) as Hhomes.
  destruct (movePiece_true gs fromPos toPos Hok)
    as (fromCell & toCell & piece & Hfrom & Hto & Hpiece & Hfree & Hne
        & Hboard & _ & Hti' & Hto' & _ & Hhs' & _).
  cbv zeta in *.
  split_and!.
  - by apply movePiece_consistent_ok.
  - intros k cell. rewrite Hboard.
    destruct (decide (k = Hex.key toPos)) as [->|Hkt].
    { rewrite lookup_insert_eq. intros [= <-]. simpl.
      split; [by apply (Hco _ _ Hto)|]. by intros pc [= <-]. }
    rewrite lookup_insert_ne by done.
    destruct (decide (k = Hex.key fromPos)) as [->|Hkf].
    { rewrite lookup_insert_eq. intros [= <-]. simpl.
      split; [by apply (Hco _ _ Hfrom)|]. done. }
    rewrite lookup_insert_ne by done. apply Hco.
  - rewrite Hboard, !dom_insert_L, <- Hdom.
    assert (Hkt : Hex.key toPos ∈ dom (board gs))
      by (apply elem_of_dom; eauto).
    assert (Hkf : Hex.key fromPos ∈ dom (board gs))
      by (apply elem_of_dom; eauto).
    apply singleton_subseteq_l in Hkt, Hkf.
    by rewrite (subseteq_union_1_L _ _ Hkf), (subseteq_union_1_L _ _ Hkt).
  - congruence.
  - intros p' Hp'.
    destruct (players_after_move gs fromPos toPos Hok p' (proj1 Hc) Hp')
      as (piece1 & p & Hget & Hp & Hhome & Hgoal & _ & Hkeys).
    destruct (Hpl p Hp) as (Hsize & Hrange & Hg).
    rewrite Hhome, Hgoal. split; [|by split].
    destruct Hkeys as [[Hown ->]|[_ ->]]; [|done].
    destruct (holds_before_move gs fromPos toPos Hok
                (PlayerState.homeTriangleIndex p))
      as (piece2 & Hget2 & Hbefore & Hnot).
    assert (piece2 = piece1) as -> by congruence.
    assert (Hin : Hex.key fromPos ∈ PlayerState.piecePositions p).
    { apply (proj2 Hc p Hp). by apply Hbefore. }
    assert (Hout : Hex.key toPos ∉ PlayerState.piecePositions p).
    { intros Hk. by apply (proj2 Hc p Hp) in Hk. }
    rewrite size_swap by done. lia.
  - rewrite Hhomes. rewrite Hcount. do 2 f_equal.
    rewrite <- !(length_fmap PlayerState.homeTriangleIndex).
    fold (homesOf gs) (homesOf (GS.movePiece gs fromPos toPos).2).
    by rewrite Hhomes.
  - by rewrite Hto', Hhomes.
  - lia.
  - rewrite Hto'. lia.
Qed.

Lemma movePiece_wellFormed gs fromPos toPos :
  wellFormed gs → wellFormed (GS.movePiece gs fromPos toPos).2.
Proof.
  destruct (GS.movePiece gs fromPos toPos).1 eqn:Hok.
  - by apply movePiece_wellFormed_ok.
  - by rewrite movePiece_false.
Qed.

(** An animated jump leaves the state that [movePiece] leaves, but for the
    event log, to which it adds nothing. *)
Lemma jump_as_move gs fromPos toPos piece :
  GS.getPieceAt gs fromPos = Some piece →
  onBoard gs toPos → unoccupied gs toPos →
  (GS.movePiece gs fromPos toPos).1 = true ∧
  (PlayerController.executeJumpMove_land
     (PlayerController.executeJumpMove_start gs fromPos).2
     fromPos toPos piece).2 =
  GS.set_events (GS.movePiece gs fromPos toPos).2 (events gs).
Proof.
  intros Hget [toCell Hto]%onBoard_cell Hfree.
  unfold GS.getPieceAt in Hget.
  destruct (GS.getBoardCell gs fromPos) as [fromCell|] eqn:Hfrom; [|done].
  unfold BoardCell.getPiece in Hget.
  unfold unoccupied, GS.isPositionOccupied in Hfree. rewrite Hto in Hfree.
  assert (Hne : Hex.key toPos ≠ Hex.key fromPos).
  { intros Heq. unfold GS.getBoardCell in *. rewrite Heq in Hto.
    assert (toCell = fromCell) as -> by congruence.
    unfold BoardCell.hasPiece in Hfree. by rewrite Hget in Hfree. }
  split.
  { apply movePiece_ok; [|by apply onBoard_cell; eauto|].
    - apply occupied_cell. eauto.
    - unfold unoccupied, GS.isPositionOccupied. by rewrite Hto. }
  unfold PlayerController.executeJumpMove_land,
    PlayerController.executeJumpMove_start, GS.removePieceAt.
  rewrite Hfrom. cbn [BoardCell.removePiece snd].
  set (b1 := <[Hex.key fromPos := _]> (board gs)).
  assert (Hto1 : GS.getBoardCell (GS.set_board gs b1) toPos = Some toCell).
  { unfold GS.getBoardCell, GS.set_board, b1. cbn [board].
    rewrite lookup_insert_ne by done. exact Hto. }
  unfold GS.placePiece. rewrite Hto1.
  unfold GS.movePiece. rewrite Hfrom, Hto, Hfree.
  unfold BoardCell.hasPiece. rewrite Hget.
  cbn [negb orb BoardCell.removePiece BoardCell.setPiece BoardCell.getPiece
       BoardCell.piece snd fst].
  rewrite Hget. unfold Piece.getOwnerPlayerIndex.
  cbn [Piece.setPosition Piece.ownerPlayerIndex]. fold b1.
  assert (Hfind : ∀ g b,
    GS.findPlayer (GS.set_board g b) (Piece.ownerPlayerIndex piece)
    = GS.findPlayer g (Piece.ownerPlayerIndex piece)) by done.
  rewrite !Hfind.
  by destruct (GS.findPlayer gs (Piece.ownerPlayerIndex piece))
    as [[i pl]|].
Qed.

Lemma nextTurn_result gs :
  0 ≤ turnIndex gs < Z.of_nat (length (turnOrder gs)) →
  ∃ gs' who,
    GS.nextTurn gs = Some gs' ∧
    turnIndex gs' = (turnIndex gs + 1) `mod` Z.of_nat (length (turnOrder gs)) ∧
    0 ≤ turnIndex gs' < Z.of_nat (length (turnOrder gs)) ∧
    GS.currentPlayerIndex gs' = Some who ∧
    gs' = GS.emit (GS.set_turnIndex gs (turnIndex gs'))
            (turnChanged (Some who)).
Proof.
  intros Hti.
  set (n := Z.of_nat (length (turnOrder gs))) in *.
  assert (Hrem : Z.rem (turnIndex gs + 1) n = (turnIndex gs + 1) `mod` n)
    by (apply Z.rem_mod_nonneg; lia).
  assert (Hbound : 0 ≤ (turnIndex gs + 1) `mod` n < n)
    by (apply Z.mod_pos_bound; lia).
  assert (Hwho : is_Some (turnOrder gs !!
                            Z.to_nat ((turnIndex gs + 1) `mod` n))).
  { apply lookup_lt_is_Some. lia. }
  destruct Hwho as [who Hwho].
  set (gs1 := GS.set_turnIndex gs (Z.rem (turnIndex gs + 1) n)).
  assert (Hcur : GS.currentPlayerIndex gs1 = Some who).
  { unfold GS.currentPlayerIndex, js_index, gs1, GS.set_turnIndex.
    cbn [turnOrder turnIndex]. rewrite Hrem.
    destruct (Z.leb_spec 0 ((turnIndex gs + 1) `mod` n)); [done|lia]. }
  exists (GS.emit gs1 (turnChanged (Some who))), who.
  split_and!.
  - unfold GS.nextTurn. cbv zeta. fold n.
    destruct (Z.eqb_spec n 0) as [|Hn]; [lia|].
    fold gs1. by rewrite Hcur.
  - exact Hrem.
  - change (0 ≤ Z.rem (turnIndex gs + 1) n). lia.
  - change (Z.rem (turnIndex gs + 1) n < n). lia.
  - exact Hcur.
  - reflexivity.
Qed.

Lemma nextTurn_wellFormed gs gs' :
  wellFormed gs → GS.nextTurn gs = Some gs' → wellFormed gs'.
Proof.
  intros (Hc & Hco & Hdom & Hhs & Hpl & Hcount & Hperm & Hti) Hnext.
  destruct (nextTurn_result gs Hti) as (g & who & Hg & _ & Hti' & _ & Heq).
  assert (g = gs') as -> by congruence.
  rewrite Heq in Hti' |- *.
  split_and!; try done; cbn [GS.emit GS.set_turnIndex turnIndex turnOrder]
    in *; lia.
Qed.

Lemma played_wellFormed gs : played gs → wellFormed gs.
Proof.
  induction 1 as [gs n gs' Hhs Hinit | gs fromPos toPos _ IH
                  | gs fromPos toPos piece _ IH Hget Hon Hfree
                  | gs gs' _ IH Hnext | gs winner _ IH].
  - by eapply initGame_wellFormed.
  - by apply movePiece_wellFormed.
  - destruct (jump_as_move gs fromPos toPos piece Hget Hon Hfree)
      as [_ ->].
    by apply wellFormed_events, movePiece_wellFormed.
  - by eapply nextTurn_wellFormed.
  - by apply wellFormed_phase.
Qed.

(* ====================================================================== *)
(** ** Set-up, moves and the index of the board *)
(* ====================================================================== *)

(** X8. From any game state with the generated triangle table, and for
    every player count, [initGame] succeeds. It leaves the players seated
    in order on their home triangles, each with the ten keys of the home
    triangle; on the cells that [initializeBoard] lays, a new piece of the
    home's player on every cell of a player's home triangle and no piece
    elsewhere; turn index 0, phase InProgress, the turn order of
    [getTurnOrder], and one more [stateReset] in the log. But for the log
    it is the state that the same set-up leaves of a fresh game state:
    nothing of the previous board, players or turn survives. *)
Theorem X8_initGame_result (gs : GameState) (playerCount : Z) :
  homeSpaces gs = TriangleGenerator.generateAllTriangles →
  ∃ gs', GameMode.initGame gs playerCount = Some gs' ∧
    setUp (GameConfig.getPlayerTriangleIndices playerCount) gs' ∧
    turnOrder gs' =
      GameConfig.getTurnOrder
        (GameConfig.getPlayerTriangleIndices playerCount) ∧
    events gs' = events gs ++ [stateReset] ∧
    gs' = GS.set_events (setupFor playerCount) (events gs ++ [stateReset]).
Proof.
  intros Hhome.
  destruct (initGame_spec gs playerCount) as (gs' & Hinit & _).
  exists gs'. split; [done|].
  destruct (initGame_setUp gs playerCount gs' Hhome Hinit)
    as (Hset & Hev & Hto).
  split_and!; try done.
  rewrite (initGame_canonical gs playerCount Hhome), setupFor_init in Hinit.
  simpl in Hinit. by injection Hinit.
Qed.

Lemma X8_initGame_result_witness :
  homeSpaces GS.new = TriangleGenerator.generateAllTriangles ∧
  ∃ gs', GameMode.initGame GS.new 3 = Some gs' ∧
    setUp (GameConfig.getPlayerTriangleIndices 3) gs' ∧
    turnOrder gs' =
      GameConfig.getTurnOrder (GameConfig.getPlayerTriangleIndices 3) ∧
    events gs' = events GS.new ++ [stateReset] ∧
    gs' = GS.set_events (setupFor 3) (events GS.new ++ [stateReset]).
Proof.
  split; [reflexivity|].
  apply (X8_initGame_result GS.new 3). reflexivity.
Defined.

Lemma movePiece_sizes gs fromPos toPos :
  consistent gs →
  (size ∘ PlayerState.piecePositions) <$>
    players (GS.movePiece gs fromPos toPos).2 =
  (size ∘ PlayerState.piecePositions) <$> players gs.
Proof.
  intros Hc.
  destruct (GS.movePiece gs fromPos toPos).1 eqn:Hok;
    [|by rewrite movePiece_false].
  destruct (movePiece_true gs fromPos toPos Hok)
    as (fromCell & toCell & piece & Hfrom & Hto & Hpiece & Hfree & Hne
        & _ & Hplayers & _).
  cbv zeta in Hplayers. rewrite Hplayers.
  destruct (GS.findPlayer gs (Piece.ownerPlayerIndex piece))
    as [[i pl]|] eqn:Hfind; [|done].
  unfold GS.findPlayer in Hfind.
  apply list_find_Some in Hfind as (Hi & Hhome & _).
  rewrite list_fmap_insert. apply list_insert_id.
  rewrite list_lookup_fmap, Hi. simpl. f_equal.
  assert (Hpl : pl ∈ players gs) by by eapply list_elem_of_lookup_2.
  destruct (holds_before_move gs fromPos toPos Hok
              (PlayerState.homeTriangleIndex pl))
    as (piece2 & Hget2 & Hbefore & Hnot).
  assert (piece2 = piece) as ->.
  { unfold GS.getPieceAt, GS.getBoardCell in Hget2. rewrite Hfrom in Hget2.
    unfold BoardCell.getPiece in Hget2. congruence. }
  replace (PlayerState.piecePositions
             (PlayerState.updatePiecePosition pl (Hex.key fromPos)
                (Hex.key toPos)))
    with ({[Hex.key toPos]} ∪
          PlayerState.piecePositions pl ∖ {[Hex.key fromPos]}) by done.
  symmetry. apply size_swap.
  - apply (proj2 Hc pl Hpl). by apply Hbefore.
  - intros Hk. by apply (proj2 Hc pl Hpl) in Hk.
Qed.

(** X9. [movePiece] keeps the players' key sets an exact index of the
    board: if before the call a key is in a player's set exactly when its
    cell holds a piece of that player, then so it is after, whether the
    move succeeds or not. No player is added, removed or given another
    home, and no key set changes its size. *)
Theorem X9_move_keeps_index (gs : GameState) (fromPos toPos : HexPosition) :
  consistent gs →
  let gs' := (GS.movePiece gs fromPos toPos).2 in
  consistent gs' ∧ homesOf gs' = homesOf gs ∧
  (size ∘ PlayerState.piecePositions) <$> players gs' =
  (size ∘ PlayerState.piecePositions) <$> players gs.
Proof.
  intros Hc. cbv zeta. split_and!.
  - by apply movePiece_consistent.
  - destruct (GS.movePiece gs fromPos toPos).1 eqn:Hok.
    + by apply homesOf_after_move.
    + by rewrite movePiece_false.
  - by apply movePiece_sizes.
Qed.

Lemma setupFor_wellFormed m : wellFormed (setupFor m).
Proof.
  apply (initGame_wellFormed GS.new m); [done | apply setupFor_init].
Qed.

Lemma setupFor_played m : played (setupFor m).
Proof. apply (played_init GS.new m); [done | apply setupFor_init]. Qed.

Lemma X9_move_keeps_index_witness :
  consistent (setupFor 2) ∧
  consistent (GS.movePiece (setupFor 2) (mkHex 2 (-5)) (mkHex 2 (-4))).2.
Proof.
  assert (H : consistent (setupFor 2)).
  { apply consistentb_spec. vm_compute. reflexivity. }
  split; [exact H|].
  apply (X9_move_keeps_index (setupFor 2) (mkHex 2 (-5)) (mkHex 2 (-4)) H).
Defined.

(** X10. In every state of a game in play (after a set-up and any sequence
    of moves, animated jumps that run to their completion, turn changes
    and match ends) the players' key sets index the board exactly, every
    player has ten keys, a home index from 0 to 5 and the opposite triangle
    as goal, every cell sits under the key of its own position and every
    piece knows the position of its cell, the board has the cells of the
    star, the homes are those of the player count, and the turn index is a
    valid index into a turn order that is a rearrangement of the players'
    homes. *)
Theorem X10_game_invariant (gs : GameState) : played gs → wellFormed gs.
Proof. apply played_wellFormed. Qed.

Lemma X10_game_invariant_witness :
  played (GS.movePiece (setupFor 2) (mkHex 2 (-5)) (mkHex 2 (-4))).2 ∧
  wellFormed (GS.movePiece (setupFor 2) (mkHex 2 (-5)) (mkHex 2 (-4))).2.
Proof.
  assert (H : played
                (GS.movePiece (setupFor 2) (mkHex 2 (-5)) (mkHex 2 (-4))).2).
  { apply played_move. apply setupFor_played. }
  split; [exact H|].
  exact (X10_game_invariant _ H).
Defined.

(* ====================================================================== *)
(** ** Turns and the end of the game *)
(* ====================================================================== *)

Lemma advance_result (k : nat) : ∀ gs,
  0 ≤ turnIndex gs < Z.of_nat (length (turnOrder gs)) →
  ∃ gs',
    advance k gs = Some gs' ∧
    turnIndex gs' =
      (turnIndex gs + Z.of_nat k) `mod` Z.of_nat (length (turnOrder gs)) ∧
    board gs' = board gs ∧ players gs' = players gs ∧
    turnOrder gs' = turnOrder gs ∧ matchPhase gs' = matchPhase gs ∧
    homeSpaces gs' = homeSpaces gs ∧
    length (events gs') = (length (events gs) + k)%nat.
Proof.
  induction k as [|k IH]; intros gs Hti.
  - exists gs. simpl. rewrite Z.add_0_r, Z.mod_small by lia.
    split_and!; try done; lia.
  - destruct (nextTurn_result gs Hti)
      as (gs1 & who & Hnext & Hti1 & Hbound & _ & Heq).
    assert (Hto : turnOrder gs1 = turnOrder gs) by by rewrite Heq.
    destruct (IH gs1) as (gs' & Hadv & Hti' & Hb & Hp & Hto' & Hph & Hhs
                          & Hev); [by rewrite Hto|].
    exists gs'. simpl. rewrite Hnext. simpl.
    split_and!; try done.
    + rewrite Hti', Hto, Hti1.
      rewrite Zplus_mod_idemp_l. f_equal. lia.
    + by rewrite Hb, Heq.
    + by rewrite Hp, Heq.
    + congruence.
    + by rewrite Hph, Heq.
    + by rewrite Hhs, Heq.
    + rewrite Hev, Heq. simpl. rewrite length_app. simpl. lia.
Qed.

(** X11. When the turn index is a valid index into the turn order, any
    number of turns can be taken: [k] calls of [nextTurn] move the turn
    index [k] places round the turn order, emit [k] events and change
    nothing else, so that after as many turns as there are players the
    same player is to move again. With an empty turn order [nextTurn]
    would make the turn index NaN (it has no result here). *)
Theorem X11_turns_go_round (gs : GameState) (k : nat) :
  (turnOrder gs = [] → GS.nextTurn gs = None) ∧
  (0 ≤ turnIndex gs < Z.of_nat (length (turnOrder gs)) →
   ∃ gs',
     advance k gs = Some gs' ∧
     turnIndex gs' =
       (turnIndex gs + Z.of_nat k) `mod` Z.of_nat (length (turnOrder gs)) ∧
     (k = length (turnOrder gs) → turnIndex gs' = turnIndex gs) ∧
     GS.currentPlayerIndex gs' =
       turnOrder gs !! Z.to_nat (turnIndex gs') ∧
     board gs' = board gs ∧ players gs' = players gs ∧
     turnOrder gs' = turnOrder gs ∧ matchPhase gs' = matchPhase gs ∧
     length (events gs') = (length (events gs) + k)%nat).
Proof.
  split.
  - intros Hnil. unfold GS.nextTurn. by rewrite Hnil.
  - intros Hti.
    destruct (advance_result k gs Hti)
      as (gs' & Hadv & Hti' & Hb & Hp & Hto & Hph & _ & Hev).
    exists gs'. split_and!; try done.
    + intros ->. rewrite Hti'.
      rewrite <- (Z.mul_1_l (Z.of_nat (length (turnOrder gs)))) at 1.
      rewrite Z.mod_add by lia. apply Z.mod_small. lia.
    + unfold GS.currentPlayerIndex, js_index. rewrite Hto.
      assert (0 ≤ turnIndex gs').
      { rewrite Hti'. apply Z.mod_pos_bound. lia. }
      destruct (Z.leb_spec 0 (turnIndex gs')); [done|lia].
Qed.

Lemma getCurrentPlayer_defined gs :
  wellFormed gs →
  ∃ who p, GS.currentPlayerIndex gs = Some who ∧
           GS.getCurrentPlayer gs = Some p ∧ p ∈ players gs ∧
           PlayerState.homeTriangleIndex p = who ∧
           ∀ p', p' ∈ players gs →
                 PlayerState.homeTriangleIndex p' = who → p' = p.
Proof.
  intros (Hc & _ & _ & _ & _ & _ & Hperm & Hti).
  assert (Hwho : is_Some (turnOrder gs !! Z.to_nat (turnIndex gs))).
  { apply lookup_lt_is_Some. lia. }
  destruct Hwho as [who Hwho].
  assert (Hcur : GS.currentPlayerIndex gs = Some who).
  { unfold GS.currentPlayerIndex, js_index.
    destruct (Z.leb_spec 0 (turnIndex gs)); [done|lia]. }
  assert (Hin : who ∈ homesOf gs).
  { rewrite <- Hperm. by eapply list_elem_of_lookup_2. }
  unfold homesOf in Hin. apply list_elem_of_fmap in Hin as (p0 & Hp0 & Hin0).
  unfold GS.getCurrentPlayer. rewrite Hcur. simpl.
  destruct (List.find _ (players gs)) as [p|] eqn:Hfind.
  - apply find_some in Hfind as [Hp Hhome]. apply Z.eqb_eq in Hhome.
    exists who, p. split_and!; try done; [by apply list_elem_of_In|].
    intros p' Hp' Hhome'.
    apply list_elem_of_In, list_elem_of_lookup in Hp as [i Hi].
    apply list_elem_of_lookup in Hp' as [j Hj].
    assert (j = i) as ->; [|congruence].
    apply (NoDup_lookup (homesOf gs) j i who); [apply Hc | |];
      unfold homesOf; rewrite list_lookup_fmap.
    + rewrite Hj. simpl. congruence.
    + rewrite Hi. simpl. congruence.
  - exfalso. eapply find_none in Hfind; [|by apply list_elem_of_In].
    apply Z.eqb_neq in Hfind. congruence.
Qed.

(** X12. In a game in play there is always a player to move:
    [currentPlayerIndex] is defined, and [getCurrentPlayer] returns the one
    player whose home triangle it names. [nextTurn] succeeds, passes the
    turn to the next index of the turn order (to the first after the last)
    and emits one [turnChanged] event that names the new player to move;
    it changes neither the board nor the players. *)
Theorem X12_player_to_move (gs : GameState) :
  played gs →
  (∃ who p, GS.currentPlayerIndex gs = Some who ∧
            GS.getCurrentPlayer gs = Some p ∧ p ∈ players gs ∧
            PlayerState.homeTriangleIndex p = who ∧
            ∀ p', p' ∈ players gs →
                  PlayerState.homeTriangleIndex p' = who → p' = p) ∧
  (∃ gs' who,
     GS.nextTurn gs = Some gs' ∧ played gs' ∧
     turnIndex gs' =
       (turnIndex gs + 1) `mod` Z.of_nat (length (turnOrder gs)) ∧
     GS.currentPlayerIndex gs' = Some who ∧
     events gs' = events gs ++ [turnChanged (Some who)] ∧
     board gs' = board gs ∧ players gs' = players gs ∧
     turnOrder gs' = turnOrder gs).
Proof.
  intros Hplayed. pose proof (played_wellFormed gs Hplayed) as Hwf.
  split; [by apply getCurrentPlayer_defined|].
  destruct Hwf as (_ & _ & _ & _ & _ & _ & _ & Hti).
  destruct (nextTurn_result gs Hti)
    as (gs' & who & Hnext & Hti' & _ & Hcur & Heq).
  exists gs', who. split_and!; try done; try by rewrite Heq.
  by eapply played_turn.
Qed.

Lemma X12_player_to_move_witness :
  played (setupFor 3) ∧
  ∃ gs' who,
    GS.nextTurn (setupFor 3) = Some gs' ∧ played gs' ∧
    turnIndex gs' =
      (turnIndex (setupFor 3) + 1)
        `mod` Z.of_nat (length (turnOrder (setupFor 3))) ∧
    GS.currentPlayerIndex gs' = Some who ∧
    events gs' = events (setupFor 3) ++ [turnChanged (Some who)] ∧
    board gs' = board (setupFor 3) ∧ players gs' = players (setupFor 3) ∧
    turnOrder gs' = turnOrder (setupFor 3).
Proof.
  split; [apply setupFor_played|].
  apply (X12_player_to_move (setupFor 3)). apply setupFor_played.
Defined.

Lemma X11_turns_go_round_witness :
  0 ≤ turnIndex (setupFor 2)
    < Z.of_nat (length (turnOrder (setupFor 2))) ∧
  ∃ gs',
    advance 2 (setupFor 2) = Some gs' ∧
    turnIndex gs' =
      (turnIndex (setupFor 2) + Z.of_nat 2)
        `mod` Z.of_nat (length (turnOrder (setupFor 2))) ∧
    (2%nat = length (turnOrder (setupFor 2)) →
     turnIndex gs' = turnIndex (setupFor 2)) ∧
    GS.currentPlayerIndex gs' =
      turnOrder (setupFor 2) !! Z.to_nat (turnIndex gs') ∧
    board gs' = board (setupFor 2) ∧ players gs' = players (setupFor 2) ∧
    turnOrder gs' = turnOrder (setupFor 2) ∧
    matchPhase gs' = matchPhase (setupFor 2) ∧
    length (events gs') = (length (events (setupFor 2)) + 2)%nat.
Proof.
  assert (H : 0 ≤ turnIndex (setupFor 2)
              < Z.of_nat (length (turnOrder (setupFor 2)))).
  { vm_compute. split; congruence. }
  split; [exact H|].
  exact (proj2 (X11_turns_go_round (setupFor 2) 2) H).
Defined.

Lemma hasWon_loop_board g g' home tri :
  board g' = board g →
  hasWon_loop g' home tri = hasWon_loop g home tri.
Proof.
  intros Hb. induction tri as [|pos rest IH]; [done|].
  simpl. unfold GS.getBoardCell. rewrite Hb, IH. done.
Qed.

Lemma hasWon_board g g' p :
  board g' = board g → homeSpaces g' = homeSpaces g →
  hasWon p g' = hasWon p g.
Proof.
  intros Hb Hhs. unfold hasWon, GS.getTrianglePositions. rewrite Hhs.
  destruct (js_index (homeSpaces g) (PlayerState.goalTriangleIndex p));
    [|done].
  cbn [mbind option_bind]. by rewrite (hasWon_loop_board g g').
Qed.

Lemma checkWin_loop_board g g' ps :
  board g' = board g → homeSpaces g' = homeSpaces g →
  GameMode.checkWinCondition_loop g' ps =
  GameMode.checkWinCondition_loop g ps.
Proof.
  intros Hb Hhs. induction ps as [|p rest IH]; [done|].
  simpl. by rewrite (hasWon_board g g'), IH.
Qed.

Lemma checkWin_loop_spec gs ps :
  (∀ p, p ∈ ps → is_Some (hasWon p gs)) →
  ∃ result, GameMode.checkWinCondition_loop gs ps = Some result ∧
    match result with
    | Some winner =>
        ∃ before after, ps = before ++ winner :: after ∧
          hasWon winner gs = Some true ∧
          ∀ p, p ∈ before → hasWon p gs = Some false
    | None => ∀ p, p ∈ ps → hasWon p gs = Some false
    end.
Proof.
  induction ps as [|p rest IH]; intros Hall.
  - exists None. split; [done|]. by intros p ?%elem_of_nil.
  - destruct (Hall p) as [won Hwon]; [by left|].
    simpl. rewrite Hwon. simpl. destruct won.
    + exists (Some p). split; [done|]. exists [], rest.
      split_and!; [done | done |]. by intros p' ?%elem_of_nil.
    + destruct IH as (result & Hres & Hspec).
      { intros p' Hp'. apply Hall. by right. }
      exists result. split; [done|]. destruct result as [winner|].
      * destruct Hspec as (before & after & -> & Hw & Hb).
        exists (p :: before), after. split_and!; [done | done |].
        intros p' [->|Hp']%elem_of_cons; [done|by apply Hb].
      * intros p' [->|Hp']%elem_of_cons; [done|by apply Hspec].
Qed.

Lemma goal_range home :
  0 ≤ home ≤ 5 → 0 ≤ GameConfig.getGoalTriangleIndex home ≤ 5.
Proof.
  intros H. destruct (small_index home H)
    as [->|[->|[->|[->|[->| ->]]]]]; vm_compute; split; congruence.
Qed.

Lemma triangleKeys_size i : 0 ≤ i ≤ 5 → size (triangleKeys i) = 10%nat.
Proof.
  intros H. destruct (small_index i H)
    as [->|[->|[->|[->|[->| ->]]]]]; vm_compute; reflexivity.
Qed.

Lemma heldBy_holds gs home pos :
  heldBy gs home pos ↔ holdsPieceOf gs home (Hex.key pos).
Proof. done. Qed.

Lemma hasWon_keys gs p :
  wellFormed gs → p ∈ players gs →
  ∃ won, hasWon p gs = Some won ∧
         (won = true ↔
          PlayerState.piecePositions p =
            triangleKeys (PlayerState.goalTriangleIndex p)).
Proof.
  intros (Hc & _ & _ & Hhs & Hpl & _) Hp.
  destruct (Hpl p Hp) as (Hsize & Hrange & Hgoal).
  pose proof (goal_range _ Hrange) as Hgr. rewrite <- Hgoal in Hgr.
  unfold hasWon, GS.getTrianglePositions.
  rewrite Hhs, (allTriangles_index _ Hgr).
  set (goal := PlayerState.goalTriangleIndex p) in *.
  exists (hasWon_loop gs (PlayerState.homeTriangleIndex p)
            (TriangleGenerator.generateTriangle goal)).
  split; [reflexivity|].
  rewrite hasWon_loop_true, Forall_forall.
  assert (Hsub : (∀ pos, pos ∈ TriangleGenerator.generateTriangle goal →
                         heldBy gs (PlayerState.homeTriangleIndex p) pos) ↔
                 triangleKeys goal ⊆ PlayerState.piecePositions p).
  { unfold triangleKeys. split.
    - intros Hall k (pos & -> & Hpos)%elem_of_list_to_set%list_elem_of_fmap.
      apply (proj2 Hc p Hp), heldBy_holds. by apply Hall.
    - intros Hsub pos Hpos. apply heldBy_holds, (proj2 Hc p Hp), Hsub.
      apply elem_of_list_to_set, list_elem_of_fmap. eauto. }
  rewrite Hsub. split.
  - intros Hsubset.
    symmetry. apply set_subseteq_size_eq; [done|].
    rewrite Hsize, triangleKeys_size by done. lia.
  - by intros ->.
Qed.

(** X13. In a game in play [hasWon] always has a result, and a player has
    won exactly when the player's key set is the set of keys of the goal
    triangle: the win can be read off the key set alone. *)
Theorem X13_won_iff_keys_on_goal (gs : GameState) (p : PlayerState.t) :
  played gs → p ∈ players gs →
  ∃ won, hasWon p gs = Some won ∧
         (won = true ↔
          PlayerState.piecePositions p =
            triangleKeys (PlayerState.goalTriangleIndex p)).
Proof. intros Hplayed. by apply hasWon_keys, played_wellFormed. Qed.

Lemma X13_won_iff_keys_on_goal_witness :
  played (setupFor 2) ∧ seatedPlayer 1 3 ∈ players (setupFor 2) ∧
  ∃ won, hasWon (seatedPlayer 1 3) (setupFor 2) = Some won ∧
         (won = true ↔
          PlayerState.piecePositions (seatedPlayer 1 3) =
            triangleKeys (PlayerState.goalTriangleIndex (seatedPlayer 1 3))).
Proof.
  assert (Hin : seatedPlayer 1 3 ∈ players (setupFor 2)).
  { apply (bool_decide_eq_true_1 _). vm_compute. reflexivity. }
  split; [apply setupFor_played|]. split; [exact Hin|].
  exact (X13_won_iff_keys_on_goal (setupFor 2) (seatedPlayer 1 3)
           (setupFor_played 2) Hin).
Defined.

Lemma setups_no_winner :
  forallb (fun m => bool_decide
                      (GameMode.checkWinCondition (setupFor m) = Some None))
    [2; 3; 4; 5; 6] = true.
Proof. vm_compute. reflexivity. Qed.

(** X14. Right after a set-up nobody has won, whatever the player count:
    [checkWinCondition] reports no winner. *)
Theorem X14_no_winner_at_start (gs : GameState) (playerCount : Z)
    (gs' : GameState) :
  homeSpaces gs = TriangleGenerator.generateAllTriangles →
  GameMode.initGame gs playerCount = Some gs' →
  GameMode.checkWinCondition gs' = Some None.
Proof.
  intros Hhome Hinit.
  destruct (initGame_setup gs playerCount gs' Hhome Hinit)
    as (m & Hm & _ & ->).
  pose proof setups_no_winner as Hall. rewrite forallb_forall in Hall.
  apply list_elem_of_In, Hall, bool_decide_eq_true in Hm.
  rewrite <- Hm. unfold GameMode.checkWinCondition.
  by apply checkWin_loop_board.
Qed.

Lemma X14_no_winner_at_start_witness :
  homeSpaces GS.new = TriangleGenerator.generateAllTriangles ∧
  GameMode.initGame GS.new 4 = Some (setupFor 4) ∧
  GameMode.checkWinCondition (setupFor 4) = Some None.
Proof.
  split; [reflexivity|]. split; [apply setupFor_init|].
  apply (X14_no_winner_at_start GS.new 4 (setupFor 4));
    [reflexivity | apply setupFor_init].
Defined.

Lemma checkWin_defined gs :
  wellFormed gs →
  ∃ result, GameMode.checkWinCondition gs = Some result ∧
    match result with
    | Some winner =>
        ∃ before after, players gs = before ++ winner :: after ∧
          hasWon winner gs = Some true ∧
          ∀ p, p ∈ before → hasWon p gs = Some false
    | None => ∀ p, p ∈ players gs → hasWon p gs = Some false
    end.
Proof.
  intros Hwf. apply checkWin_loop_spec. intros p Hp.
  destruct (hasWon_keys gs p Hwf Hp) as (won & -> & _). eauto.
Qed.

Lemma onMoveComplete_result (gs : GameState) :
  played gs →
  ∃ gs', PlayerController.onMoveComplete gs = Some gs' ∧ played gs' ∧
    board gs' = board gs ∧ players gs' = players gs ∧
    turnIndex gs' =
      (turnIndex gs + 1) `mod` Z.of_nat (length (turnOrder gs)) ∧
    (matchPhase gs' = GameOver ↔
     matchPhase gs = GameOver ∨
     ∃ p, p ∈ players gs ∧ hasWon p gs = Some true) ∧
    (matchPhase gs' ≠ GameOver → matchPhase gs' = matchPhase gs).
Proof.
  intros Hplayed. pose proof (played_wellFormed gs Hplayed) as Hwf.
  pose proof Hwf as (_ & _ & _ & _ & _ & _ & _ & Hti).
  destruct (nextTurn_result gs Hti)
    as (gs1 & who & Hnext & Hti1 & _ & _ & Heq).
  assert (Hplayed1 : played gs1) by by eapply played_turn.
  assert (Hb : board gs1 = board gs) by by rewrite Heq.
  assert (Hhs : homeSpaces gs1 = homeSpaces gs) by by rewrite Heq.
  assert (Hps : players gs1 = players gs) by by rewrite Heq.
  assert (Hph : matchPhase gs1 = matchPhase gs) by by rewrite Heq.
  destruct (checkWin_defined gs1 (played_wellFormed gs1 Hplayed1))
    as (result & Hres & Hspec).
  unfold PlayerController.onMoveComplete, GameMode.advanceTurn.
  rewrite Hnext. simpl. rewrite Hres. simpl.
  destruct result as [winner|].
  - destruct Hspec as (before & after & Hlist & Hw & _).
    eexists. split; [reflexivity|].
    split_and!; try done.
    + by apply played_end.
    + split; [|done]. intros _. right. exists winner.
      rewrite <- Hps, Hlist, <- (hasWon_board gs gs1) by done.
      split; [|done]. apply elem_of_app. right. by left.
  - exists gs1. split_and!; try done.
    rewrite Hph. split; [by left|]. intros [?|(p & Hp & Hwon)]; [done|].
    rewrite <- Hps in Hp. apply Hspec in Hp.
    rewrite (hasWon_board gs gs1) in Hp by done. congruence.
Qed.


(** X15. In a game in play [onMoveComplete] always succeeds: the turn
    passes to the next player of the turn order, and the match is over
    afterwards exactly if it was over before or some player has won; board
    and players are left as they are, and so is the phase of a match that
    is not over. *)
Theorem X15_move_complete (gs : GameState) :
  played gs →
  ∃ gs', PlayerController.onMoveComplete gs = Some gs' ∧ played gs' ∧
    board gs' = board gs ∧ players gs' = players gs ∧
    turnIndex gs' =
      (turnIndex gs + 1) `mod` Z.of_nat (length (turnOrder gs)) ∧
    (matchPhase gs' = GameOver ↔
     matchPhase gs = GameOver ∨
     ∃ p, p ∈ players gs ∧ hasWon p gs = Some true) ∧
    (matchPhase gs' ≠ GameOver → matchPhase gs' = matchPhase gs).
Proof. apply onMoveComplete_result. Qed.

Lemma X15_move_complete_witness :
  played (setupFor 2) ∧
  ∃ gs', PlayerController.onMoveComplete (setupFor 2) = Some gs' ∧
    played gs' ∧
    board gs' = board (setupFor 2) ∧ players gs' = players (setupFor 2) ∧
    turnIndex gs' =
      (turnIndex (setupFor 2) + 1)
        `mod` Z.of_nat (length (turnOrder (setupFor 2))) ∧
    (matchPhase gs' = GameOver ↔
     matchPhase (setupFor 2) = GameOver ∨
     ∃ p, p ∈ players (setupFor 2) ∧ hasWon p (setupFor 2) = Some true) ∧
    (matchPhase gs' ≠ GameOver → matchPhase gs' = matchPhase (setupFor 2)).
Proof.
  split; [apply setupFor_played|].
  apply (X15_move_complete (setupFor 2)). apply setupFor_played.
Defined.

(** X16. [resetGame] in a game in play sets the game up again for the same
    home triangles, in the same seating and turn order, whatever has been
    played; it adds one [stateReset] to the log. On a game state without
    players it sets up a game for two. *)
Theorem X16_resetGame_same_seats (gs : GameState) :
  (players gs = [] → GameMode.resetGame gs = GameMode.initGame gs 2) ∧
  (played gs →
   ∃ gs', GameMode.resetGame gs = Some gs' ∧ played gs' ∧
     setUp (homesOf gs) gs' ∧
     turnOrder gs' = GameConfig.getTurnOrder (homesOf gs) ∧
     events gs' = events gs ++ [stateReset]).
Proof.
  split.
  - intros Hnil. unfold GameMode.resetGame. by rewrite Hnil.
  - intros Hplayed.
    pose proof (played_wellFormed gs Hplayed)
      as (_ & _ & _ & Hhs & _ & Hcount & Hperm & Hti).
    set (n := Z.of_nat (length (players gs))) in *.
    assert (Hn : 0 < n).
    { subst n. rewrite <- (length_fmap PlayerState.homeTriangleIndex).
      fold (homesOf gs). apply Permutation_length in Hperm. lia. }
    unfold GameMode.resetGame. cbv zeta. fold n.
    destruct (Z.ltb_spec 0 n); [|lia].
    destruct (initGame_spec gs n) as (gs' & Hinit & _).
    destruct (initGame_setUp gs n gs' Hhs Hinit) as (Hset & Hev & Hto).
    exists gs'. rewrite Hcount. split_and!; try done.
    by eapply played_init.
Qed.

Lemma X16_resetGame_same_seats_witness :
  played (setupFor 3) ∧
  ∃ gs', GameMode.resetGame (setupFor 3) = Some gs' ∧ played gs' ∧
    setUp (homesOf (setupFor 3)) gs' ∧
    turnOrder gs' = GameConfig.getTurnOrder (homesOf (setupFor 3)) ∧
    events gs' = events (setupFor 3) ++ [stateReset].
Proof.
  split; [apply setupFor_played|].
  apply (X16_resetGame_same_seats (setupFor 3)). apply setupFor_played.
Defined.

(* ====================================================================== *)
(** ** What the move calculator returns *)
(* ====================================================================== *)

(** X17. Every move that [findValidMoves] returns can be made: its target
    is a cell of the board, is free and is not the start, and when a piece
    stands on the start, [movePiece] to the target succeeds. *)
Theorem X17_moves_can_be_made (gs : GameState) (startPos : HexPosition) :
  ∃ moves, findValidMoves gs startPos = Some moves ∧
    ∀ m, m ∈ moves →
      targetPos m ≠ startPos ∧
      onBoard gs (targetPos m) ∧ unoccupied gs (targetPos m) ∧
      (occupied gs startPos →
       (GS.movePiece gs startPos (targetPos m)).1 = true).
Proof.
  destruct (findValidMoves_sound gs startPos) as (moves & Hrun & Hall).
  exists moves. split; [done|]. intros m Hm.
  destruct (Hall m Hm) as ((Hon & Hfree & _) & Hne).
  split_and!; try done. intros Hocc. by apply movePiece_ok.
Qed.

(** X18. The path of every returned jump is a chain of legal hops from the
    start (each over exactly one piece, midway, with every other cell of
    the hop free, and never over the start cell itself) that ends on the
    move's target; the path of a step is empty. *)
Theorem X18_jump_paths_are_hop_chains (gs : GameState)
    (startPos : HexPosition) :
  ∃ moves, findValidMoves gs startPos = Some moves ∧
    ∀ m, m ∈ moves →
      match type m with
      | move => jumpPath m = []
      | jump => jumpPath m ≠ [] ∧
                hopChain gs startPos startPos (jumpPath m) ∧
                last (jumpPath m) = Some (targetPos m)
      end.
Proof.
  destruct (findValidMoves_sound gs startPos) as (moves & Hrun & Hall).
  exists moves. split; [done|]. intros m Hm.
  by destruct (Hall m Hm) as ((_ & _ & Hpath) & _).
Qed.

(** X19. The jumps returned are exactly the cells that a chain of one or
    more legal hops reaches from the start, the start itself left out: no
    reachable landing is missed, however long the chain. *)
Theorem X19_every_hop_chain_is_found (gs : GameState)
    (startPos : HexPosition) :
  ∃ moves, findValidMoves gs startPos = Some moves ∧
    ∀ L, (∃ m, m ∈ moves ∧ type m = jump ∧ targetPos m = L) ↔
         L ≠ startPos ∧ hopsTo gs startPos L.
Proof. apply findValidMoves_complete. Qed.

(** X20. A jump never changes the parity of the piece's coordinates and a
    step always does: every returned jump lands on a cell whose two
    coordinates differ from the start's by even numbers, and no returned
    step does. *)
Theorem X20_jumps_keep_parity (gs : GameState) (startPos : HexPosition) :
  ∃ moves, findValidMoves gs startPos = Some moves ∧
    ∀ m, m ∈ moves →
      (type m = jump ↔ sameParity startPos (targetPos m)).
Proof.
  destruct (findValidMoves_extends gs startPos)
    as (visited & moves & Hrun & _ & new & Hnew & _ & Hall & _).
  exists moves. split; [done|]. simpl in Hnew. subst new.
  intros m Hm. rewrite Forall_forall in Hall.
  destruct (Hall m Hm) as [(_ & D & HD & -> & _)|(Hj & _ & _ & Hpar)].
  - simpl. split; [done|]. intros Hpar.
    by apply (step_changes_parity startPos D) in Hpar.
  - done.
Qed.

Lemma find_target (moves : list MoveInfo) (toPos : HexPosition) :
  NoDup (targetPos <$> moves) →
  match List.find (fun m => Hex.equals (targetPos m) toPos) moves with
  | Some m => m ∈ moves ∧ targetPos m = toPos ∧
              ∀ m', m' ∈ moves → targetPos m' = toPos → m' = m
  | None => ∀ m, m ∈ moves → targetPos m ≠ toPos
  end.
Proof.
  intros Hnd.
  destruct (List.find _ moves) as [m|] eqn:Hfind.
  - apply find_some in Hfind as [Hin Heq]. apply equals_true in Heq.
    apply list_elem_of_In in Hin. split_and!; try done.
    intros m' Hin' Heq'.
    apply list_elem_of_lookup in Hin as [i Hi].
    apply list_elem_of_lookup in Hin' as [j Hj].
    assert (j = i) as ->; [|congruence].
    apply (NoDup_lookup (targetPos <$> moves) j i toPos); [done | |];
      rewrite list_lookup_fmap.
    + rewrite Hj. simpl. congruence.
    + rewrite Hi. simpl. congruence.
  - intros m Hin Heq. apply list_elem_of_In in Hin.
    eapply find_none in Hfind; [|done].
    apply equals_false in Hfind. done.
Qed.

(** X21. [isValidMove] always has a result. It returns a move exactly when
    some returned move has the asked target, and then that move is the
    only one with that target; it returns null for the start position
    itself, for positions off the board and for occupied positions. *)
Theorem X21_isValidMove (gs : GameState) (fromPos toPos : HexPosition) :
  ∃ moves result,
    findValidMoves gs fromPos = Some moves ∧
    isValidMove gs fromPos toPos = Some result ∧
    match result with
    | Some m => m ∈ moves ∧ targetPos m = toPos ∧
                ∀ m', m' ∈ moves → targetPos m' = toPos → m' = m
    | None => ∀ m, m ∈ moves → targetPos m ≠ toPos
    end ∧
    (toPos = fromPos ∨ ¬ onBoard gs toPos ∨ occupied gs toPos →
     result = None).
Proof.
  destruct (findValidMoves_extends gs fromPos)
    as (visited & moves & Hrun & _ & new & Hnew & Hnd & _).
  simpl in Hnew. subst new.
  destruct (findValidMoves_sound gs fromPos) as (moves' & Hrun' & Hall).
  assert (moves' = moves) as -> by congruence.
  unfold isValidMove. rewrite Hrun.
  eexists moves, _. split_and!; [done | reflexivity | by apply find_target |].
  intros Hbad. pose proof (find_target moves toPos Hnd) as Hfind.
  destruct (List.find _ moves) as [m|]; [|done]. exfalso.
  destruct Hfind as (Hm & <- & _).
  destruct (Hall m Hm) as ((Hon & Hfree & _) & Hne).
  destruct Hbad as [?|[?|Hocc]]; [done | done |].
  unfold occupied in Hocc. unfold unoccupied in Hfree. congruence.
Qed.

(* ====================================================================== *)
(** ** The animated jump *)
(* ====================================================================== *)

(** X22. An animated jump of the piece that stands on [fromPos] to a free
    cell of the board leaves the board and the players exactly as
    [movePiece] leaves them, and [movePiece] succeeds there; but it emits
    no [pieceMoved] event: the log is as it was. While the animation runs
    the start cell is empty. *)
Theorem X22_jump_moves_without_event (gs : GameState)
    (fromPos toPos : HexPosition) (piece : Piece.t) :
  GS.getPieceAt gs fromPos = Some piece →
  onBoard gs toPos → unoccupied gs toPos →
  let flying := PlayerController.executeJumpMove_start gs fromPos in
  let landed :=
    PlayerController.executeJumpMove_land flying.2 fromPos toPos piece in
  let moved := GS.movePiece gs fromPos toPos in
  flying.1 = true ∧ unoccupied flying.2 fromPos ∧
  players flying.2 = players gs ∧
  landed.1 = false ∧ moved.1 = true ∧
  board landed.2 = board moved.2 ∧ players landed.2 = players moved.2 ∧
  events landed.2 = events gs ∧
  (∃ piece', events moved.2 = events gs ++ [pieceMoved fromPos toPos piece']).
Proof.
  intros Hget Hon Hfree. cbv zeta.
  destruct (jump_as_move gs fromPos toPos piece Hget Hon Hfree)
    as [Hok Heq].
  rewrite Heq.
  destruct (movePiece_true gs fromPos toPos Hok)
    as (fromCell & toCell & pc & Hfrom & _ & _ & _ & _ & _ & _ & _ & _ & _
        & _ & Hev).
  cbv zeta in Hev.
  split_and!; try done; [| |eauto].
  - unfold PlayerController.executeJumpMove_start, GS.removePieceAt,
      GS.getBoardCell. rewrite Hfrom.
    unfold unoccupied, GS.isPositionOccupied, GS.getBoardCell. simpl.
    by rewrite lookup_insert_eq.
  - unfold PlayerController.executeJumpMove_start, GS.removePieceAt,
      GS.getBoardCell. by rewrite Hfrom.
Qed.

Lemma X22_jump_moves_without_event_witness :
  GS.getPieceAt (setupFor 2) (mkHex 2 (-6))
    = Some (Piece.new (mkHex 2 (-6)) 0) ∧
  onBoard (setupFor 2) (mkHex 2 (-4)) ∧
  unoccupied (setupFor 2) (mkHex 2 (-4)) ∧
  events
    (PlayerController.executeJumpMove_land
       (PlayerController.executeJumpMove_start (setupFor 2)
          (mkHex 2 (-6))).2
       (mkHex 2 (-6)) (mkHex 2 (-4)) (Piece.new (mkHex 2 (-6)) 0)).2 =
  events (setupFor 2).
Proof.
  assert (Hget : GS.getPieceAt (setupFor 2) (mkHex 2 (-6))
                 = Some (Piece.new (mkHex 2 (-6)) 0)).
  { vm_compute. reflexivity. }
  assert (Hon : onBoard (setupFor 2) (mkHex 2 (-4))).
  { vm_compute. reflexivity. }
  assert (Hfree : unoccupied (setupFor 2) (mkHex 2 (-4))).
  { vm_compute. reflexivity. }
  split_and!; [exact Hget | exact Hon | exact Hfree |].
  apply (X22_jump_moves_without_event (setupFor 2) (mkHex 2 (-6))
           (mkHex 2 (-4)) (Piece.new (mkHex 2 (-6)) 0) Hget Hon Hfree).
Defined.

(* ====================================================================== *)
(** ** The event emitter *)
(* ====================================================================== *)

Lemma emit_subscribe_same {C : Type} `{EqDecision C}
    (e : EventEmitter.t) (event : string) (callback : C) :
  EventEmitter.emit (EventEmitter.subscribe e event callback) event =
  EventEmitter.set_add (EventEmitter.emit e event) callback.
Proof.
  unfold EventEmitter.subscribe, EventEmitter.emit, EventEmitter.t in *.
  destruct (e !! event) as [l|] eqn:He.
  - rewrite bool_decide_eq_true_2 by eauto. cbv zeta. rewrite He.
    by rewrite lookup_insert_eq.
  - rewrite bool_decide_eq_false_2 by (by intros [? ?]). cbv zeta.
    rewrite lookup_insert_eq. by rewrite lookup_insert_eq.
Qed.

Lemma emit_subscribe_other {C : Type} `{EqDecision C}
    (e : EventEmitter.t) (event other : string) (callback : C) :
  other ≠ event →
  EventEmitter.emit (EventEmitter.subscribe e event callback) other =
  EventEmitter.emit e other.
Proof.
  intros Hne.
  unfold EventEmitter.subscribe, EventEmitter.emit, EventEmitter.t in *.
  destruct (e !! event) as [l|] eqn:He.
  - rewrite bool_decide_eq_true_2 by eauto. cbv zeta. rewrite He.
    by rewrite lookup_insert_ne.
  - rewrite bool_decide_eq_false_2 by (by intros [? ?]). cbv zeta.
    rewrite lookup_insert_eq. by rewrite !lookup_insert_ne.
Qed.

Lemma emit_unsubscribe_same {C : Type} `{EqDecision C}
    (e : EventEmitter.t) (event : string) (callback : C) :
  EventEmitter.emit (EventEmitter.unsubscribe e event callback) event =
  EventEmitter.set_delete (EventEmitter.emit e event) callback.
Proof.
  unfold EventEmitter.unsubscribe, EventEmitter.emit, EventEmitter.t in *.
  destruct (e !! event) as [l|] eqn:He.
  - by rewrite lookup_insert_eq.
  - by rewrite He.
Qed.

Lemma emit_unsubscribe_other {C : Type} `{EqDecision C}
    (e : EventEmitter.t) (event other : string) (callback : C) :
  other ≠ event →
  EventEmitter.emit (EventEmitter.unsubscribe e event callback) other =
  EventEmitter.emit e other.
Proof.
  intros Hne.
  unfold EventEmitter.unsubscribe, EventEmitter.emit, EventEmitter.t in *.
  destruct (e !! event) as [l|] eqn:He; [|done].
  by rewrite lookup_insert_ne.
Qed.

Lemma set_delete_absent {C : Type} `{EqDecision C} (l : list C) (c : C) :
  c ∉ l → EventEmitter.set_delete l c = l.
Proof.
  intros Hc. unfold EventEmitter.set_delete.
  induction l as [|x l IH]; [done|].
  apply not_elem_of_cons in Hc as [Hne Hc]. simpl.
  rewrite bool_decide_eq_false_2 by done. simpl. by rewrite IH.
Qed.

Lemma set_delete_elem {C : Type} `{EqDecision C} (l : list C) (c x : C) :
  x ∈ EventEmitter.set_delete l c ↔ x ∈ l ∧ x ≠ c.
Proof.
  unfold EventEmitter.set_delete.
  rewrite list_elem_of_In, filter_In, <- list_elem_of_In, negb_true_iff,
    bool_decide_eq_false. done.
Qed.

Lemma set_delete_app {C : Type} `{EqDecision C} (l1 l2 : list C) (c : C) :
  EventEmitter.set_delete (l1 ++ l2) c =
  EventEmitter.set_delete l1 c ++ EventEmitter.set_delete l2 c.
Proof. unfold EventEmitter.set_delete. apply List.filter_app. Qed.

(** X23. After [subscribe], [emit] of that event invokes the callback, once
    and after the callbacks that were subscribed before, whose order it
    keeps; subscribing a callback that is already subscribed changes
    nothing about what [emit] invokes, and no other event is affected. *)
Theorem X23_subscribe_then_emit {C : Type} `{EqDecision C}
    (e : EventEmitter.t) (event other : string) (callback : C) :
  let e' := EventEmitter.subscribe e event callback in
  EventEmitter.emit e' event =
    (if decide (callback ∈ EventEmitter.emit e event)
     then EventEmitter.emit e event
     else EventEmitter.emit e event ++ [callback]) ∧
  callback ∈ EventEmitter.emit e' event ∧
  (NoDup (EventEmitter.emit e event) → NoDup (EventEmitter.emit e' event)) ∧
  EventEmitter.emit (EventEmitter.subscribe e' event callback) event =
    EventEmitter.emit e' event ∧
  (other ≠ event → EventEmitter.emit e' other = EventEmitter.emit e other).
Proof.
  cbv zeta. rewrite !emit_subscribe_same. unfold EventEmitter.set_add.
  split_and!.
  - done.
  - destruct (decide (callback ∈ EventEmitter.emit e event)); [done|].
    apply elem_of_app. right. by left.
  - intros Hnd.
    destruct (decide (callback ∈ EventEmitter.emit e event)); [done|].
    apply NoDup_app. split_and!; [done | | apply NoDup_singleton].
    intros x Hx ->%list_elem_of_singleton. done.
  - destruct (decide (callback ∈ EventEmitter.emit e event)) as [Hin|Hout].
    + by rewrite decide_True.
    + rewrite decide_True; [done|]. apply elem_of_app. right. by left.
  - apply emit_subscribe_other.
Qed.

(** X24. After [unsubscribe], [emit] of that event no longer invokes the
    callback and invokes the others as before, in the same order; no other
    event is affected, and unsubscribing for an event or a callback that
    was never subscribed changes nothing. Subscribing a new callback and
    unsubscribing it again leaves every [emit] as it was. *)
Theorem X24_unsubscribe_then_emit {C : Type} `{EqDecision C}
    (e : EventEmitter.t) (event other : string) (callback : C) :
  let e' := EventEmitter.unsubscribe e event callback in
  (callback ∉ EventEmitter.emit e' event) ∧
  EventEmitter.emit e' event =
    List.filter (fun c => negb (bool_decide (c = callback)))
      (EventEmitter.emit e event) ∧
  (other ≠ event → EventEmitter.emit e' other = EventEmitter.emit e other) ∧
  (callback ∉ EventEmitter.emit e event → e' = e) ∧
  (callback ∉ EventEmitter.emit e event →
   EventEmitter.emit
     (EventEmitter.unsubscribe (EventEmitter.subscribe e event callback)
        event callback) other =
   EventEmitter.emit e other).
Proof.
  cbv zeta. split_and!.
  - rewrite emit_unsubscribe_same, set_delete_elem. tauto.
  - by rewrite emit_unsubscribe_same.
  - apply emit_unsubscribe_other.
  - intros Hout.
    unfold EventEmitter.unsubscribe, EventEmitter.emit, EventEmitter.t in *.
    destruct (e !! event) as [l|] eqn:He; [|done].
    rewrite set_delete_absent by done. by apply insert_id.
  - intros Hout. destruct (decide (other = event)) as [->|Hne].
    + rewrite emit_unsubscribe_same, emit_subscribe_same.
      unfold EventEmitter.set_add. rewrite decide_False by done.
      rewrite set_delete_app, set_delete_absent by done.
      unfold EventEmitter.set_delete. simpl.
      rewrite bool_decide_eq_true_2 by done. simpl. by rewrite app_nil_r.
    + by rewrite emit_unsubscribe_other, emit_subscribe_other.
Qed.

Lemma X7_remove_then_place_witness :
  cellsCoherent (setupFor 2) ∧
  GS.getPieceAt (setupFor 2) (mkHex 4 (-8))
    = Some (Piece.new (mkHex 4 (-8)) 0) ∧
  GS.placePiece (GS.removePieceAt (setupFor 2) (mkHex 4 (-8))).2
    (mkHex 4 (-8)) (Piece.new (mkHex 4 (-8)) 0) = setupFor 2.
Proof.
  assert (Hco : cellsCoherent (setupFor 2)).
  { apply cellsCoherentb_spec. vm_compute. reflexivity. }
  assert (Hget : GS.getPieceAt (setupFor 2) (mkHex 4 (-8))
                 = Some (Piece.new (mkHex 4 (-8)) 0)).
  { vm_compute. reflexivity. }
  split; [exact Hco|]. split; [exact Hget|].
  apply (X7_remove_then_place (setupFor 2) (mkHex 4 (-8))
           (Piece.new (mkHex 4 (-8)) 0) Hco Hget).
Defined.

(* ====================================================================== *)
(** ** Moves in sequence *)
(* ====================================================================== *)

Lemma movePiece_vacates gs fromPos toPos :
  (GS.movePiece gs fromPos toPos).1 = true →
  onBoard (GS.movePiece gs fromPos toPos).2 fromPos ∧
  unoccupied (GS.movePiece gs fromPos toPos).2 fromPos ∧
  occupied (GS.movePiece gs fromPos toPos).2 toPos.
Proof.
  intros Hok.
  destruct (movePiece_true gs fromPos toPos Hok)
    as (fromCell & toCell & piece & Hfrom & Hto & Hpiece & Hfree & Hne
        & Hboard & _).
  cbv zeta in Hboard.
  unfold onBoard, unoccupied, occupied, GS.isPositionOnBoard,
    GS.isPositionOccupied, GS.getBoardCell.
  rewrite Hboard, lookup_insert_eq, lookup_insert_ne, lookup_insert_eq
    by done.
  split_and!; [|done|done]. apply bool_decide_eq_true. eauto.
Qed.

Lemma negate_direction D : D ∈ HEX_DIRECTIONS → negate D ∈ HEX_DIRECTIONS.
Proof.
  intros HD. each_direction HD; unfold HEX_DIRECTIONS;
    rewrite !elem_of_cons; vm_compute; tauto.
Qed.

(** X25. A step can always be taken back: after [movePiece] has moved a
    piece to a neighbouring cell, the moves that [findValidMoves] returns
    for the piece on its new cell include the step to the cell it came
    from. *)
Theorem X25_step_can_be_taken_back (gs : GameState)
    (fromPos dir : HexPosition) :
  dir ∈ HEX_DIRECTIONS →
  (GS.movePiece gs fromPos (Hex.add fromPos dir)).1 = true →
  ∃ moves,
    findValidMoves (GS.movePiece gs fromPos (Hex.add fromPos dir)).2
      (Hex.add fromPos dir) = Some moves ∧
    createSimpleMove fromPos ∈ moves.
Proof.
  intros HD Hok.
  destruct (movePiece_vacates gs fromPos _ Hok) as (Hon & Hfree & _).
  set (gs' := (GS.movePiece gs fromPos (Hex.add fromPos dir)).2) in *.
  destruct (findValidMoves_extends gs' (Hex.add fromPos dir))
    as (visited & moves & Hrun & _ & new & Hnew & _ & _ & Hsteps).
  simpl in Hnew. subst new. exists moves. split; [done|].
  assert (Hback : Hex.add (Hex.add fromPos dir) (negate dir) = fromPos).
  { destruct fromPos, dir. unfold Hex.add, negate. simpl. f_equal; lia. }
  specialize (Hsteps (negate dir) (negate_direction dir HD) eq_refl).
  rewrite Hback in Hsteps. by apply Hsteps.
Qed.

Lemma X25_step_can_be_taken_back_witness :
  HexDirection.SOUTHEAST ∈ HEX_DIRECTIONS ∧
  (GS.movePiece (setupFor 2) (mkHex 2 (-5))
     (Hex.add (mkHex 2 (-5)) HexDirection.SOUTHEAST)).1 = true ∧
  ∃ moves,
    findValidMoves
      (GS.movePiece (setupFor 2) (mkHex 2 (-5))
         (Hex.add (mkHex 2 (-5)) HexDirection.SOUTHEAST)).2
      (Hex.add (mkHex 2 (-5)) HexDirection.SOUTHEAST) = Some moves ∧
    createSimpleMove (mkHex 2 (-5)) ∈ moves.
Proof.
  assert (HD : HexDirection.SOUTHEAST ∈ HEX_DIRECTIONS).
  { unfold HEX_DIRECTIONS. rewrite !elem_of_cons. tauto. }
  assert (Hok : (GS.movePiece (setupFor 2) (mkHex 2 (-5))
                   (Hex.add (mkHex 2 (-5)) HexDirection.SOUTHEAST)).1
                = true).
  { vm_compute. reflexivity. }
  split; [exact HD|]. split; [exact Hok|].
  exact (X25_step_can_be_taken_back (setupFor 2) (mkHex 2 (-5))
           HexDirection.SOUTHEAST HD Hok).
Defined.

(** [executeSimpleMove] passes the turn whether or not [movePiece]
    accepted the move: in a game in play it always succeeds, leaves the
    board and the players that [movePiece] leaves (those it was given when
    the move is refused) and gives the turn to the next player. *)
Lemma simple_move_passes_turn (gs : GameState)
    (fromPos toPos : HexPosition) :
  played gs →
  ∃ gs', PlayerController.executeSimpleMove gs fromPos toPos = Some gs' ∧
    played gs' ∧
    board gs' = board (GS.movePiece gs fromPos toPos).2 ∧
    players gs' = players (GS.movePiece gs fromPos toPos).2 ∧
    turnIndex gs' =
      (turnIndex gs + 1) `mod` Z.of_nat (length (turnOrder gs)) ∧
    ((GS.movePiece gs fromPos toPos).1 = false →
     board gs' = board gs ∧ players gs' = players gs).
Proof.
  intros Hplayed.
  assert (Hplayed' : played (GS.movePiece gs fromPos toPos).2)
    by by apply played_move.
  destruct (onMoveComplete_result _ Hplayed')
    as (gs' & Hdone & Hp & Hb & Hps & Hti & _).
  exists gs'. unfold PlayerController.executeSimpleMove, GameMode.executeMove.
  assert (Hframe :
    turnIndex (GS.movePiece gs fromPos toPos).2 = turnIndex gs ∧
    turnOrder (GS.movePiece gs fromPos toPos).2 = turnOrder gs).
  { destruct (GS.movePiece gs fromPos toPos).1 eqn:Hok.
    - destruct (movePiece_true gs fromPos toPos Hok)
        as (? & ? & ? & _ & _ & _ & _ & _ & _ & _ & Hti' & Hto' & _).
      done.
    - by rewrite movePiece_false. }
  destruct Hframe as [Hti' Hto']. rewrite Hti', Hto' in Hti.
  split_and!; try done.
  intros Hfail. rewrite Hb, Hps. by rewrite movePiece_false.
Qed.

Lemma simple_move_passes_turn_example :
  played (setupFor 2) ∧
  ∃ gs',
    PlayerController.executeSimpleMove (setupFor 2) (mkHex 0 0) (mkHex 1 0)
      = Some gs' ∧
    played gs' ∧
    board gs' =
      board (GS.movePiece (setupFor 2) (mkHex 0 0) (mkHex 1 0)).2 ∧
    players gs' =
      players (GS.movePiece (setupFor 2) (mkHex 0 0) (mkHex 1 0)).2 ∧
    turnIndex gs' =
      (turnIndex (setupFor 2) + 1)
        `mod` Z.of_nat (length (turnOrder (setupFor 2))) ∧
    ((GS.movePiece (setupFor 2) (mkHex 0 0) (mkHex 1 0)).1 = false →
     board gs' = board (setupFor 2) ∧ players gs' = players (setupFor 2)).
Proof.
  split; [apply setupFor_played|].
  apply (simple_move_passes_turn (setupFor 2) (mkHex 0 0) (mkHex 1 0)).
  apply setupFor_played.
Defined.

(* ====================================================================== *)
(** ** A set-up while a jump is animated *)
(* ====================================================================== *)

Lemma placePiece_holds gs pos piece home k :
  onBoard gs pos → unoccupied gs pos →
  holdsPieceOf (GS.placePiece gs pos piece) home k ↔
  (k = Hex.key pos ∧ Piece.ownerPlayerIndex piece = home) ∨
  holdsPieceOf gs home k.
Proof.
  intros [cell Hcell]%onBoard_cell Hfree.
  unfold unoccupied, GS.isPositionOccupied in Hfree. rewrite Hcell in Hfree.
  unfold BoardCell.hasPiece in Hfree.
  destruct (BoardCell.piece cell) as [?|] eqn:Hp; [done|].
  unfold GS.placePiece. rewrite Hcell. unfold holdsPieceOf, GS.set_board.
  cbn [board]. unfold GS.getBoardCell in Hcell.
  destruct (decide (k = Hex.key pos)) as [->|Hk].
  - rewrite lookup_insert_eq, Hcell. split.
    + intros (c & pc & [= <-] & [= <-] & Hown). left. by split.
    + intros [[_ Hown]|(c & pc & [= <-] & Hpc & _)]; [|congruence].
      eexists _, _. split_and!; [done | done | done].
  - rewrite lookup_insert_ne by done. split; [by right|].
    by intros [[? _]|?].
Qed.

Lemma land_holds gs fromPos toPos piece home k :
  holdsPieceOf
    (PlayerController.executeJumpMove_land gs fromPos toPos piece).2 home k ↔
  holdsPieceOf (GS.placePiece gs toPos piece) home k.
Proof.
  unfold PlayerController.executeJumpMove_land. cbv zeta.
  by destruct (GS.findPlayer _ _) as [[i pl]|].
Qed.

Lemma eleven_pieces gs toPos piece fromPos :
  wellFormed gs →
  Piece.ownerPlayerIndex piece ∈ homesOf gs →
  onBoard gs toPos → unoccupied gs toPos →
  size (ownedKeys
          (PlayerController.executeJumpMove_land gs fromPos toPos piece).2
          (Piece.ownerPlayerIndex piece)) = 11%nat.
Proof.
  intros (Hc & _ & _ & _ & Hpl & _) Hin Hon Hfree.
  unfold homesOf in Hin. apply list_elem_of_fmap in Hin as (p & Hhome & Hp).
  destruct (Hpl p Hp) as (Hsize & _).
  set (owner := Piece.ownerPlayerIndex piece) in *.
  assert (Hkeys : ownedKeys
            (PlayerController.executeJumpMove_land gs fromPos toPos piece).2
            owner = {[Hex.key toPos]} ∪ PlayerState.piecePositions p).
  { apply set_eq. intros k.
    rewrite ownedKeys_spec, land_holds, placePiece_holds by done.
    rewrite elem_of_union, elem_of_singleton, (proj2 Hc p Hp k), <- Hhome.
    fold owner. tauto. }
  rewrite Hkeys, size_union, size_singleton, Hsize; [done|].
  apply disjoint_singleton_l. intros Hk%(proj2 Hc p Hp).
  destruct Hk as (cell & pc & Hcell & Hpc & _).
  unfold unoccupied, GS.isPositionOccupied, GS.getBoardCell in Hfree.
  rewrite Hcell in Hfree. unfold BoardCell.hasPiece in Hfree.
  by rewrite Hpc in Hfree.
Qed.

Lemma wellFormed_ten gs p :
  wellFormed gs → p ∈ players gs →
  size (ownedKeys gs (PlayerState.homeTriangleIndex p)) = 10%nat.
Proof.
  intros (Hc & _ & _ & _ & Hpl & _) Hp.
  destruct (Hpl p Hp) as (Hsize & _). rewrite <- Hsize. f_equal.
  apply set_eq. intros k. by rewrite ownedKeys_spec, (proj2 Hc p Hp k).
Qed.

(** X26. Nothing keeps the game from being set up anew while a jump is
    animated, and the completion of the animation then acts on the new
    game: if a set-up runs between the two halves of an animated jump, the
    piece's owner is a player of the new game and the landing cell is
    free in it, then after the landing the owner has eleven pieces on the
    board, and the state is not one of a game in play. *)
Theorem X26_set_up_during_jump (gs : GameState)
    (fromPos toPos : HexPosition) (piece : Piece.t) (playerCount : Z)
    (gs2 : GameState) :
  homeSpaces gs = TriangleGenerator.generateAllTriangles →
  GS.getPieceAt gs fromPos = Some piece →
  GameMode.initGame
    (PlayerController.executeJumpMove_start gs fromPos).2 playerCount
    = Some gs2 →
  Piece.ownerPlayerIndex piece ∈
    GameConfig.getPlayerTriangleIndices playerCount →
  onBoard gs2 toPos → unoccupied gs2 toPos →
  let gs3 :=
    (PlayerController.executeJumpMove_land gs2 fromPos toPos piece).2 in
  size (ownedKeys gs3 (Piece.ownerPlayerIndex piece)) = 11%nat ∧
  ¬ wellFormed gs3 ∧ ¬ played gs3.
Proof.
  intros Hhs Hget Hinit Hin Hon Hfree. cbv zeta.
  assert (Hhs1 : homeSpaces
                   (PlayerController.executeJumpMove_start gs fromPos).2
                 = TriangleGenerator.generateAllTriangles).
  { unfold PlayerController.executeJumpMove_start, GS.removePieceAt.
    cbn [snd]. by destruct (GS.getBoardCell gs fromPos). }
  pose proof (initGame_wellFormed _ _ _ Hhs1 Hinit) as Hwf.
  destruct (initGame_spec
              (PlayerController.executeJumpMove_start gs fromPos).2
              playerCount) as (g & Hg & Hhomes & _).
  assert (g = gs2) as -> by congruence.
  rewrite <- Hhomes in Hin.
  pose proof (eleven_pieces gs2 toPos piece fromPos Hwf Hin Hon Hfree)
    as Heleven.
  assert (Hnot : ¬ wellFormed
                   (PlayerController.executeJumpMove_land gs2 fromPos toPos
                      piece).2).
  { intros Hwf3.
    assert (Hin3 : Piece.ownerPlayerIndex piece ∈
                   homesOf (PlayerController.executeJumpMove_land gs2
                              fromPos toPos piece).2).
    { unfold PlayerController.executeJumpMove_land. cbv zeta.
      replace (GS.findPlayer (GS.placePiece gs2 toPos piece)
                 (Piece.getOwnerPlayerIndex piece))
        with (GS.findPlayer gs2 (Piece.ownerPlayerIndex piece)).
      2:{ unfold GS.findPlayer.
          by rewrite (proj1 (placePiece_frame gs2 toPos piece)). }
      destruct (GS.findPlayer gs2 (Piece.ownerPlayerIndex piece))
        as [[i pl]|] eqn:Hfind.
      - unfold homesOf, GS.set_players. cbn [players snd].
        rewrite (proj1 (placePiece_frame gs2 toPos piece)).
        unfold GS.findPlayer in Hfind.
        apply list_find_Some in Hfind as (Hi & Hhome & _).
        rewrite list_fmap_insert, list_insert_id;
          [done | by rewrite list_lookup_fmap, Hi].
      - cbn [snd]. unfold homesOf.
        by rewrite (proj1 (placePiece_frame gs2 toPos piece)). }
    unfold homesOf in Hin3.
    apply list_elem_of_fmap in Hin3 as (p & Hhome & Hp).
    pose proof (wellFormed_ten _ p Hwf3 Hp) as Hten.
    rewrite <- Hhome in Hten. lia. }
  split_and!; [done | done |].
  intros Hplayed. by apply Hnot, played_wellFormed.
Qed.

Lemma X26_set_up_during_jump_witness :
  homeSpaces (setupFor 2) = TriangleGenerator.generateAllTriangles ∧
  GS.getPieceAt (setupFor 2) (mkHex 2 (-6))
    = Some (Piece.new (mkHex 2 (-6)) 0) ∧
  size (ownedKeys
          (PlayerController.executeJumpMove_land
             (GS.set_events (setupFor 2)
                (events (PlayerController.executeJumpMove_start (setupFor 2)
                           (mkHex 2 (-6))).2 ++ [stateReset]))
             (mkHex 2 (-6)) (mkHex 2 (-4)) (Piece.new (mkHex 2 (-6)) 0)).2
          (Piece.ownerPlayerIndex (Piece.new (mkHex 2 (-6)) 0))) = 11%nat.
Proof.
  assert (Hhs : homeSpaces (setupFor 2)
                = TriangleGenerator.generateAllTriangles).
  { vm_compute. reflexivity. }
  assert (Hget : GS.getPieceAt (setupFor 2) (mkHex 2 (-6))
                 = Some (Piece.new (mkHex 2 (-6)) 0)).
  { vm_compute. reflexivity. }
  assert (Hinit :
    GameMode.initGame
      (PlayerController.executeJumpMove_start (setupFor 2) (mkHex 2 (-6))).2
      2
    = Some (GS.set_events (setupFor 2)
              (events (PlayerController.executeJumpMove_start (setupFor 2)
                         (mkHex 2 (-6))).2 ++ [stateReset]))).
  { rewrite initGame_canonical, setupFor_init; [reflexivity|].
    vm_compute. reflexivity. }
  assert (Hin : Piece.ownerPlayerIndex (Piece.new (mkHex 2 (-6)) 0) ∈
                GameConfig.getPlayerTriangleIndices 2).
  { apply (bool_decide_eq_true_1 _). vm_compute. reflexivity. }
  assert (Hon : onBoard
                  (GS.set_events (setupFor 2)
                     (events (PlayerController.executeJumpMove_start
                                (setupFor 2) (mkHex 2 (-6))).2
                      ++ [stateReset])) (mkHex 2 (-4))).
  { vm_compute. reflexivity. }
  assert (Hfree : unoccupied
                  (GS.set_events (setupFor 2)
                     (events (PlayerController.executeJumpMove_start
                                (setupFor 2) (mkHex 2 (-6))).2
                      ++ [stateReset])) (mkHex 2 (-4))).
  { vm_compute. reflexivity. }
  split; [exact Hhs|]. split; [exact Hget|].
  apply (X26_set_up_during_jump (setupFor 2) (mkHex 2 (-6)) (mkHex 2 (-4))
           (Piece.new (mkHex 2 (-6)) 0) 2 _ Hhs Hget Hinit Hin Hon Hfree).
Defined.

(* ====================================================================== *)
(** ** Selecting pieces *)
(* ====================================================================== *)

Lemma sameCell_refl cell : sameCell cell cell.
Proof. unfold sameCell. by destruct (BoardCell.piece cell). Qed.

Lemma sameCell_trans a b c : sameCell a b → sameCell b c → sameCell a c.
Proof.
  unfold sameCell. intros (Hp & Hh & Hpc) (Hp' & Hh' & Hpc').
  split_and!; [congruence | congruence |].
  destruct (BoardCell.piece a), (BoardCell.piece b), (BoardCell.piece c);
    try done. destruct Hpc, Hpc'. split; congruence.
Qed.

Lemma sameButFlags_refl gs : sameButFlags gs gs.
Proof.
  split_and!; try done. intros k.
  destruct (board gs !! k); [apply sameCell_refl | done].
Qed.

Lemma sameButFlags_trans a b c :
  sameButFlags a b → sameButFlags b c → sameButFlags a c.
Proof.
  intros (Hb & ? & ? & ? & ? & ? & ?) (Hb' & ? & ? & ? & ? & ? & ?).
  split_and!; try congruence. intros k.
  specialize (Hb k). specialize (Hb' k).
  destruct (board a !! k), (board b !! k), (board c !! k); try done.
  by eapply sameCell_trans.
Qed.

Lemma setSelected_same gs loc flag :
  sameButFlags gs (PlayerController.setSelected gs loc flag).
Proof.
  unfold PlayerController.setSelected, GS.getBoardCell.
  destruct (board gs !! Hex.key loc) as [cell|] eqn:Hcell;
    [|apply sameButFlags_refl].
  destruct (BoardCell.piece cell) as [piece|] eqn:Hpiece;
    [|apply sameButFlags_refl].
  split_and!; try done. intros k. unfold GS.set_board. cbn [board].
  destruct (decide (k = Hex.key loc)) as [->|Hk].
  - rewrite lookup_insert_eq, Hcell. unfold sameCell. simpl.
    by rewrite Hpiece.
  - rewrite lookup_insert_ne by done.
    destruct (board gs !! k); [apply sameCell_refl | done].
Qed.

Lemma setSelected_piece gs loc flag :
  GS.getPieceAt (PlayerController.setSelected gs loc flag) loc =
  (fun piece => PlayerController.flagged piece flag) <$> GS.getPieceAt gs loc.
Proof.
  unfold PlayerController.setSelected, GS.getPieceAt, GS.getBoardCell.
  destruct (board gs !! Hex.key loc) as [cell|] eqn:Hcell.
  - destruct (BoardCell.piece cell) as [piece|] eqn:Hpiece.
    + unfold GS.set_board. cbn [board]. rewrite lookup_insert_eq.
      unfold BoardCell.getPiece. simpl. by rewrite Hpiece.
    + rewrite Hcell. unfold BoardCell.getPiece. by rewrite Hpiece.
  - by rewrite Hcell.
Qed.

Section SameButFlags.

Variables gs gs' : GameState.
Hypothesis Hsame : sameButFlags gs gs'.

Lemma same_cell k cell' :
  board gs' !! k = Some cell' →
  ∃ cell, board gs !! k = Some cell ∧ sameCell cell cell'.
Proof.
  intros Hk. pose proof (proj1 Hsame k) as H. rewrite Hk in H.
  destruct (board gs !! k) as [cell|]; [eauto | done].
Qed.

Lemma same_cell_back k cell :
  board gs !! k = Some cell →
  ∃ cell', board gs' !! k = Some cell' ∧ sameCell cell cell'.
Proof.
  intros Hk. pose proof (proj1 Hsame k) as H. rewrite Hk in H.
  destruct (board gs' !! k) as [cell'|]; [eauto | done].
Qed.

Lemma same_onBoard p : onBoard gs' p ↔ onBoard gs p.
Proof.
  unfold onBoard, GS.isPositionOnBoard. rewrite !bool_decide_eq_true.
  split; intros [cell Hcell].
  - apply same_cell in Hcell as (c & Hc & _). eauto.
  - apply same_cell_back in Hcell as (c & Hc & _). eauto.
Qed.

Lemma same_occupancy p :
  GS.isPositionOccupied gs' p = GS.isPositionOccupied gs p.
Proof.
  unfold GS.isPositionOccupied, GS.getBoardCell.
  pose proof (proj1 Hsame (Hex.key p)) as H.
  destruct (board gs !! Hex.key p) as [cell|],
    (board gs' !! Hex.key p) as [cell'|]; try done.
  destruct H as (_ & _ & H). unfold BoardCell.hasPiece.
  by destruct (BoardCell.piece cell), (BoardCell.piece cell').
Qed.

Lemma same_ownerAt p : ownerAt gs' p = ownerAt gs p.
Proof.
  unfold ownerAt, GS.getPieceAt, GS.getBoardCell.
  pose proof (proj1 Hsame (Hex.key p)) as H.
  destruct (board gs !! Hex.key p) as [cell|],
    (board gs' !! Hex.key p) as [cell'|]; try done.
  destruct H as (_ & _ & H). unfold BoardCell.getPiece.
  destruct (BoardCell.piece cell), (BoardCell.piece cell'); try done.
  simpl. f_equal. apply H.
Qed.

Lemma same_holds home k :
  holdsPieceOf gs' home k ↔ holdsPieceOf gs home k.
Proof.
  unfold holdsPieceOf. split.
  - intros (cell' & piece' & Hcell & Hpiece & Hown).
    apply same_cell in Hcell as (cell & Hcell & _ & _ & H).
    rewrite Hpiece in H.
    destruct (BoardCell.piece cell) as [piece|] eqn:Hp; [|done].
    exists cell, piece. split_and!; try done. destruct H. congruence.
  - intros (cell & piece & Hcell & Hpiece & Hown).
    apply same_cell_back in Hcell as (cell' & Hcell & _ & _ & H).
    rewrite Hpiece in H.
    destruct (BoardCell.piece cell') as [piece'|] eqn:Hp; [|done].
    exists cell', piece'. split_and!; try done. destruct H. congruence.
Qed.

Lemma same_current :
  GS.currentPlayerIndex gs' = GS.currentPlayerIndex gs.
Proof.
  destruct Hsame as (_ & _ & Hti & Hto & _).
  unfold GS.currentPlayerIndex. by rewrite Hti, Hto.
Qed.

Lemma same_wellFormed : wellFormed gs → wellFormed gs'.
Proof.
  intros (Hc & Hco & Hdom & Hhs & Hpl & Hcount & Hperm & Hti).
  destruct Hsame as (Hb & Hps & Hti' & Hto' & _ & Hhs' & _).
  unfold wellFormed, consistent, homesOf in *.
  rewrite Hps, Hti', Hto', Hhs'.
  split_and!; try done; try apply Hc; try lia.
  - intros p Hp k. rewrite same_holds. by apply Hc.
  - intros k cell' Hcell.
    apply same_cell in Hcell as (cell & Hcell & Hpos & _ & H).
    destruct (Hco k cell Hcell) as [Hkey Hpiece].
    rewrite Hpos. split; [done|]. intros piece' Hp'. rewrite Hp' in H.
    destruct (BoardCell.piece cell) as [piece|] eqn:Hp; [|done].
    destruct H as [-> _]. by apply Hpiece.
  - rewrite <- Hdom. apply set_eq. intros k. rewrite !elem_of_dom.
    split; intros [cell Hcell].
    + apply same_cell in Hcell as (c & Hc' & _). eauto.
    + apply same_cell_back in Hcell as (c & Hc' & _). eauto.
Qed.

End SameButFlags.

Lemma wellFormed_position gs pos piece :
  wellFormed gs → GS.getPieceAt gs pos = Some piece →
  Piece.position piece = pos.
Proof.
  intros (_ & Hco & _) Hget. unfold GS.getPieceAt, GS.getBoardCell in Hget.
  destruct (board gs !! Hex.key pos) as [cell|] eqn:Hcell; [|done].
  destruct (Hco _ _ Hcell) as [Hkey Hpiece].
  apply key_inj in Hkey. rewrite Hkey. by apply Hpiece.
Qed.

Lemma deselectOld_same gs c :
  sameButFlags gs (PlayerController.deselectOld gs c).
Proof.
  unfold PlayerController.deselectOld.
  destruct (PlayerController.selectedPiece c);
    [apply setSelected_same | apply sameButFlags_refl].
Qed.

Lemma findValidMoves_defined gs startPos :
  ∃ moves, findValidMoves gs startPos = Some moves.
Proof.
  destruct (findValidMoves_sound gs startPos) as (moves & Hrun & _). eauto.
Qed.

Lemma selectPiece_inv gs c pos piece :
  wellFormed gs → PlayerController.isAnimating c = false →
  GS.getPieceAt gs pos = Some piece →
  PlayerController.belongsToCurrent gs (Some piece) = true →
  ∃ gs' c',
    PlayerController.selectPiece gs c pos piece = Some (gs', c') ∧
    sameButFlags gs gs' ∧ appInv gs' c' None ∧
    PlayerController.selectedPiece c' = Some pos.
Proof.
  intros Hwf Hanim Hget Hmine.
  unfold PlayerController.selectPiece. cbv zeta.
  set (gs1 := PlayerController.deselectOld gs c).
  set (gs2 := PlayerController.setSelected gs1 pos true).
  assert (Hs1 : sameButFlags gs gs1) by apply deselectOld_same.
  assert (Hs2 : sameButFlags gs gs2).
  { eapply sameButFlags_trans; [exact Hs1 | apply setSelected_same]. }
  assert (Hwf2 : wellFormed gs2) by by eapply same_wellFormed.
  assert (Hpos : Piece.position piece = pos)
    by exact (wellFormed_position gs pos piece Hwf Hget).
  unfold GameMode.getValidMovesForPiece, Piece.getPosition.
  cbn [PlayerController.flagged Piece.position]. rewrite Hpos.
  destruct (findValidMoves_defined gs2 pos) as (moves & Hmoves).
  rewrite Hmoves. simpl. eexists _, _. split; [reflexivity|].
  split; [done|]. split; [|done].
  split; [done|]. split; [done|].
  unfold selectionOk. cbn [PlayerController.selectedPiece
                            PlayerController.validMoves].
  assert (Hown : ownerAt gs2 pos = Some (Piece.ownerPlayerIndex piece)).
  { rewrite (same_ownerAt gs gs2 Hs2). unfold ownerAt. by rewrite Hget. }
  unfold ownerAt in Hown.
  destruct (GS.getPieceAt gs2 pos) as [piece2|] eqn:Hget2; [|done].
  injection Hown as Hown. exists piece2. split_and!; [done | | done].
  rewrite (same_current gs gs2 Hs2), Hown.
  unfold PlayerController.belongsToCurrent in Hmine.
  destruct (GS.currentPlayerIndex gs) as [i|]; [|done].
  apply Z.eqb_eq in Hmine. by rewrite Hmine.
Qed.

Lemma deselectPiece_inv gs c :
  wellFormed gs → PlayerController.isAnimating c = false →
  sameButFlags gs (PlayerController.deselectPiece gs c).1 ∧
  appInv (PlayerController.deselectPiece gs c).1
    (PlayerController.deselectPiece gs c).2 None.
Proof.
  intros Hwf Hanim. unfold PlayerController.deselectPiece. cbn [fst snd].
  split; [apply deselectOld_same|].
  split_and!; [|done|done].
  eapply same_wellFormed; [apply deselectOld_same | done].
Qed.

(* ====================================================================== *)
(** ** The moves depend on the occupancy of the board only *)
(* ====================================================================== *)

Section Occupancy.

Variables gs gs' : GameState.
Hypothesis Hocc : sameOccupancy gs gs'.

Lemma jumpScan_occupancy
    (rec1 rec2 : HexPosition → HexPosition → bool → list HexPosition →
                 SearchState → SearchResult) startPos cur D path :
  (∀ L path' st, rec1 startPos L true path' st
                 = rec2 startPos L true path' st) →
  ∀ n distance foundPiece pieceDistance st,
    jumpScan gs' rec1 startPos cur D path n distance foundPiece
      pieceDistance st =
    jumpScan gs rec2 startPos cur D path n distance foundPiece
      pieceDistance st.
Proof.
  intros Hrec. induction n as [|n IH]; intros distance found pd st; [done|].
  simpl.
  destruct (Hocc (Hex.add cur (Hex.scale D distance))) as [-> ->].
  rewrite !IH, Hrec. done.
Qed.

Lemma stepCheck_occupancy cur D hasJumped st :
  stepCheck gs' cur D hasJumped st = stepCheck gs cur D hasJumped st.
Proof.
  unfold stepCheck. by destruct (Hocc (Hex.add cur D)) as [-> ->].
Qed.

Lemma findMoves_occupancy limit (fuel : nat) :
  ∀ startPos cur hasJumped path st,
    findMovesWithin gs' limit fuel startPos cur hasJumped path st =
    findMovesWithin gs limit fuel startPos cur hasJumped path st.
Proof.
  induction fuel as [|fuel IH]; intros startPos cur hasJumped path st;
    [done|].
  rewrite !findMovesWithin_S.
  destruct (bool_decide (Hex.key cur ∈ st.1)); [done|].
  apply forEach_ext. intros D st' _.
  rewrite stepCheck_occupancy. unfold checkJumpWithin.
  apply jumpScan_occupancy. intros L path' st''. apply IH.
Qed.

Lemma findValidMoves_occupancy startPos :
  findValidMoves gs' startPos = findValidMoves gs startPos.
Proof.
  set (fuel := (searchDepth gs `max` searchDepth gs')%nat).
  rewrite <- (findValidMoves_fuel_independent gs' startPos fuel)
    by (subst fuel; lia).
  rewrite <- (findValidMoves_fuel_independent gs startPos fuel)
    by (subst fuel; lia).
  unfold _findMoves. by rewrite findMoves_occupancy.
Qed.

End Occupancy.

Lemma same_sameOccupancy gs gs' : sameButFlags gs gs' → sameOccupancy gs gs'.
Proof.
  intros Hsame p. split; [|by apply same_occupancy].
  pose proof (same_onBoard gs gs' Hsame p) as H. unfold onBoard in H.
  destruct (GS.isPositionOnBoard gs' p), (GS.isPositionOnBoard gs p);
    try done; [symmetry; by apply H | by apply H].
Qed.

(** X27. The moves that [findValidMoves] returns depend on nothing but
    which positions are on the board and which of them are occupied: not
    on who owns the pieces (the piece on the start included, if there is
    one), not on the players, and not on whose turn it is. *)
Theorem X27_moves_depend_on_occupancy (gs gs' : GameState)
    (startPos : HexPosition) :
  (∀ p, GS.isPositionOnBoard gs' p = GS.isPositionOnBoard gs p ∧
        GS.isPositionOccupied gs' p = GS.isPositionOccupied gs p) →
  findValidMoves gs' startPos = findValidMoves gs startPos ∧
  ∀ toPos, isValidMove gs' startPos toPos = isValidMove gs startPos toPos.
Proof.
  intros Hocc. split; [by apply findValidMoves_occupancy|].
  intros toPos. unfold isValidMove.
  by rewrite (findValidMoves_occupancy gs gs' Hocc).
Qed.

Lemma X27_moves_depend_on_occupancy_witness :
  (∀ p, GS.isPositionOnBoard (GS.set_players (setupFor 2) []) p
        = GS.isPositionOnBoard (setupFor 2) p ∧
        GS.isPositionOccupied (GS.set_players (setupFor 2) []) p
        = GS.isPositionOccupied (setupFor 2) p) ∧
  findValidMoves (GS.set_players (setupFor 2) []) (mkHex 2 (-6))
  = findValidMoves (setupFor 2) (mkHex 2 (-6)).
Proof.
  assert (H : ∀ p, GS.isPositionOnBoard (GS.set_players (setupFor 2) []) p
                   = GS.isPositionOnBoard (setupFor 2) p ∧
                   GS.isPositionOccupied (GS.set_players (setupFor 2) []) p
                   = GS.isPositionOccupied (setupFor 2) p).
  { generalize (setupFor 2). intros g p. split; reflexivity. }
  split; [exact H|].
  apply (X27_moves_depend_on_occupancy (setupFor 2)
           (GS.set_players (setupFor 2) []) (mkHex 2 (-6)) H).
Defined.

(* ====================================================================== *)
(** ** Clicks *)
(* ====================================================================== *)

Lemma onMoveComplete_wf gs :
  wellFormed gs →
  ∃ gs', PlayerController.onMoveComplete gs = Some gs' ∧ wellFormed gs' ∧
    board gs' = board gs ∧ players gs' = players gs ∧
    turnOrder gs' = turnOrder gs ∧
    turnIndex gs' =
      (turnIndex gs + 1) `mod` Z.of_nat (length (turnOrder gs)).
Proof.
  intros Hwf. pose proof Hwf as (_ & _ & _ & _ & _ & _ & _ & Hti).
  destruct (nextTurn_result gs Hti)
    as (gs1 & who & Hnext & Hti1 & _ & _ & Heq).
  assert (Hwf1 : wellFormed gs1) by by eapply nextTurn_wellFormed.
  destruct (checkWin_defined gs1 Hwf1) as (result & Hres & _).
  unfold PlayerController.onMoveComplete, GameMode.advanceTurn.
  rewrite Hnext. simpl. rewrite Hres. simpl.
  destruct result as [winner|]; eexists; (split; [reflexivity|]);
    split_and!; try done; try by rewrite Heq.
Qed.

(** What [requestMove] does with a move of the selected piece. *)
Lemma requestMove_inv gs c loc m :
  appInv gs c None →
  PlayerController.selectedPiece c = Some loc →
  m ∈ PlayerController.validMoves c →
  ∃ piece gs' c' callback,
    GS.getPieceAt gs loc = Some piece ∧
    GS.currentPlayerIndex gs = Some (Piece.ownerPlayerIndex piece) ∧
    PlayerController.requestMove gs c m = Some (gs', c', callback) ∧
    appInv gs' c' callback ∧
    ownerAt gs' loc = None ∧
    (callback = None ↔ type m = move) ∧
    match callback with
    | None =>
        ownerAt gs' (targetPos m) = Some (Piece.ownerPlayerIndex piece) ∧
        (∀ p, p ≠ loc → p ≠ targetPos m → ownerAt gs' p = ownerAt gs p) ∧
        turnIndex gs' =
          (turnIndex gs + 1) `mod` Z.of_nat (length (turnOrder gs))
    | Some (fromPos, toPos, moving) =>
        fromPos = loc ∧ toPos = targetPos m ∧
        Piece.ownerPlayerIndex moving = Piece.ownerPlayerIndex piece ∧
        (∀ p, p ≠ loc → ownerAt gs' p = ownerAt gs p) ∧
        turnIndex gs' = turnIndex gs
    end.
Proof.
  intros (Hwf & Hanim & Hsel) Hloc Hm.
  unfold selectionOk in Hsel. rewrite Hloc in Hsel.
  destruct Hsel as (piece & Hget & Hcur & Hmoves).
  destruct (findValidMoves_sound gs loc) as (moves & Hrun & Hall).
  assert (moves = PlayerController.validMoves c) as -> by congruence.
  destruct (Hall m Hm) as ((Hon & Hfree & Hpath) & Hne).
  assert (Hpos : Piece.position piece = loc)
    by exact (wellFormed_position gs loc piece Hwf Hget).
  set (gs1 := PlayerController.setSelected gs loc false).
  assert (Hs1 : sameButFlags gs gs1) by apply setSelected_same.
  assert (Hwf1 : wellFormed gs1) by by eapply same_wellFormed.
  assert (Hget1 : GS.getPieceAt gs1 loc
                  = Some (PlayerController.flagged piece false)).
  { unfold gs1. by rewrite setSelected_piece, Hget. }
  assert (Hon1 : onBoard gs1 (targetPos m)) by by apply (same_onBoard gs).
  assert (Hfree1 : unoccupied gs1 (targetPos m)).
  { unfold unoccupied. by rewrite (same_occupancy gs gs1 Hs1). }
  assert (Hcur1 : GS.currentPlayerIndex gs1
                  = Some (Piece.ownerPlayerIndex piece)).
  { by rewrite (same_current gs gs1 Hs1). }
  destruct (jump_as_move gs1 loc (targetPos m) _ Hget1 Hon1 Hfree1)
    as [Hok Hjump].
  destruct (movePiece_true gs1 loc (targetPos m) Hok)
    as (fromCell & toCell & pc & Hfrom & Hto & Hpc & Hfreec & Hkne
        & Hboard & _ & Hti & Hto' & _).
  cbv zeta in Hboard.
  assert (pc = PlayerController.flagged piece false) as ->.
  { unfold GS.getPieceAt, GS.getBoardCell in Hget1. rewrite Hfrom in Hget1.
    unfold BoardCell.getPiece in Hget1. congruence. }
  assert (Hmoved :
    ownerAt (GS.movePiece gs1 loc (targetPos m)).2 loc = None ∧
    ownerAt (GS.movePiece gs1 loc (targetPos m)).2 (targetPos m)
      = Some (Piece.ownerPlayerIndex piece) ∧
    ∀ p, p ≠ loc → p ≠ targetPos m →
         ownerAt (GS.movePiece gs1 loc (targetPos m)).2 p = ownerAt gs p).
  { unfold ownerAt, GS.getPieceAt, GS.getBoardCell. rewrite Hboard.
    split_and!.
    - by rewrite lookup_insert_ne, lookup_insert_eq.
    - by rewrite lookup_insert_eq.
    - intros p Hp1 Hp2.
      rewrite !lookup_insert_ne by (by apply key_ne).
      apply (same_ownerAt gs gs1 Hs1 p). }
  exists piece. unfold PlayerController.requestMove.
  rewrite Hloc. cbn [mbind option_bind]. rewrite Hget.
  cbn [mbind option_bind]. cbv zeta.
  unfold Piece.getPosition. rewrite Hpos. fold gs1.
  destruct (type m) eqn:Htype.
  - (* a step *)
    unfold PlayerController.executeSimpleMove, GameMode.executeMove.
    destruct (onMoveComplete_wf (GS.movePiece gs1 loc (targetPos m)).2)
      as (gs' & Hdone & Hwf' & Hb' & Hp' & Hto'' & Hti');
      [by apply movePiece_wellFormed|].
    rewrite Hdone. cbn [mbind option_bind].
    eexists _, _, _. split_and!; [done | done | reflexivity | | | done |].
    + split_and!; [done | done | done].
    + unfold ownerAt, GS.getPieceAt, GS.getBoardCell. rewrite Hb'.
      apply Hmoved.
    + destruct Hmoved as (_ & Htarget & Hrest).
      destruct Hs1 as (_ & _ & Hti1 & Hto1 & _).
      split_and!.
      * unfold ownerAt, GS.getPieceAt, GS.getBoardCell. rewrite Hb'.
        exact Htarget.
      * intros p Hp1 Hp2. unfold ownerAt, GS.getPieceAt, GS.getBoardCell.
        rewrite Hb'. by apply Hrest.
      * rewrite Hti', Hti, Hto', Hti1, Hto1. done.
  - (* a jump *)
    unfold pathSound in Hpath. rewrite Htype in Hpath.
    destruct (jumpPath m) as [|L rest] eqn:Hjp; [by destruct Hpath|].
    cbn [PlayerController.executeJumpMove_start].
    eexists _, _, _. split_and!; [done | done | reflexivity | | | done |].
    + split_and!; [done | done | done |].
      exists gs1, (PlayerController.validMoves c), m.
      split_and!; try done.
      rewrite <- Hmoves. apply findValidMoves_occupancy.
      by apply same_sameOccupancy.
    + unfold ownerAt, GS.getPieceAt, GS.removePieceAt, GS.getBoardCell.
      rewrite Hfrom. cbn [BoardCell.removePiece snd GS.set_board board].
      by rewrite lookup_insert_eq.
    + destruct Hs1 as (_ & _ & Hti1 & _).
      split_and!; try done.
      * intros p Hp. unfold ownerAt, GS.getPieceAt, GS.removePieceAt,
          GS.getBoardCell. rewrite Hfrom.
        cbn [BoardCell.removePiece snd GS.set_board board].
        rewrite lookup_insert_ne by (by apply key_ne).
        apply (same_ownerAt gs gs1 (setSelected_same gs loc false) p).
      * unfold GS.removePieceAt, GS.getBoardCell. by rewrite Hfrom.
Qed.

Lemma animationDone_inv gs c fromPos toPos piece :
  appInv gs c (Some (fromPos, toPos, piece)) →
  ∃ gs' c',
    PlayerController.animationDone gs c (fromPos, toPos, piece)
      = Some (gs', c') ∧
    appInv gs' c' None ∧
    PlayerController.selectedPiece c' = None ∧
    ownerAt gs fromPos = None ∧
    ownerAt gs' fromPos = None ∧
    ownerAt gs' toPos = Some (Piece.ownerPlayerIndex piece) ∧
    (∀ p, p ≠ fromPos → p ≠ toPos → ownerAt gs' p = ownerAt gs p) ∧
    turnOrder gs' = turnOrder gs ∧
    turnIndex gs' =
      (turnIndex gs + 1) `mod` Z.of_nat (length (turnOrder gs)).
Proof.
  intros (Hanim & Hsel & Hvm & gs0 & moves & m & Hwf0 & -> & Hget & Hcur
          & Hmoves & Hm & Htarget).
  destruct (findValidMoves_sound gs0 fromPos) as (moves' & Hrun & Hall).
  assert (moves' = moves) as -> by congruence.
  destruct (Hall m Hm) as ((Hon & Hfree & _) & Hne).
  rewrite Htarget in Hon, Hfree, Hne.
  destruct (jump_as_move gs0 fromPos toPos piece Hget Hon Hfree)
    as [Hok Hjump].
  destruct (movePiece_true gs0 fromPos toPos Hok)
    as (fromCell & toCell & pc & Hfrom & Hto & Hpc & Hfreec & Hkne
        & Hboard & _ & Hti & Hto' & _).
  cbv zeta in Hboard.
  assert (pc = piece) as ->.
  { unfold GS.getPieceAt, GS.getBoardCell in Hget. rewrite Hfrom in Hget.
    unfold BoardCell.getPiece in Hget. congruence. }
  set (landed := GS.set_events (GS.movePiece gs0 fromPos toPos).2
                   (events gs0)) in *.
  assert (Hwfl : wellFormed landed)
    by by apply wellFormed_events, movePiece_wellFormed.
  destruct (onMoveComplete_wf landed Hwfl)
    as (gs' & Hdone & Hwf' & Hb' & Hp' & Hto'' & Hti').
  assert (Hstart : ∀ p,
    ownerAt (PlayerController.executeJumpMove_start gs0 fromPos).2 p =
    if decide (p = fromPos) then None else ownerAt gs0 p).
  { intros p. unfold ownerAt, GS.getPieceAt,
      PlayerController.executeJumpMove_start, GS.removePieceAt,
      GS.getBoardCell.
    rewrite Hfrom. cbn [BoardCell.removePiece snd GS.set_board board].
    destruct (decide (p = fromPos)) as [->|Hp].
    - by rewrite lookup_insert_eq.
    - by rewrite lookup_insert_ne by (by apply key_ne). }
  assert (Hframe :
    turnOrder (PlayerController.executeJumpMove_start gs0 fromPos).2
      = turnOrder gs0 ∧
    turnIndex (PlayerController.executeJumpMove_start gs0 fromPos).2
      = turnIndex gs0).
  { unfold PlayerController.executeJumpMove_start, GS.removePieceAt,
      GS.getBoardCell. by rewrite Hfrom. }
  destruct Hframe as [Hto0 Hti0].
  exists gs', (PlayerController.mk (PlayerController.selectedPiece c)
                 (PlayerController.validMoves c) false).
  split_and!.
  - unfold PlayerController.animationDone,
      PlayerController.executeJumpMove_done.
    pose proof Hjump as Hj.
    unfold PlayerController.executeJumpMove_land in Hj |- *.
    cbv zeta in Hj |- *. cbn [snd] in Hj. rewrite Hj. fold landed.
    rewrite Hdone. done.
  - split_and!; [done | done |].
    unfold selectionOk. cbn [PlayerController.selectedPiece
                              PlayerController.validMoves].
    by rewrite Hsel.
  - done.
  - rewrite Hstart. by rewrite decide_True.
  - unfold ownerAt, GS.getPieceAt, GS.getBoardCell. rewrite Hb'.
    unfold landed. cbn [GS.set_events board]. rewrite Hboard.
    by rewrite lookup_insert_ne, lookup_insert_eq.
  - unfold ownerAt, GS.getPieceAt, GS.getBoardCell. rewrite Hb'.
    unfold landed. cbn [GS.set_events board]. rewrite Hboard.
    by rewrite lookup_insert_eq.
  - intros p Hp1 Hp2. rewrite Hstart, decide_False by done.
    unfold ownerAt, GS.getPieceAt, GS.getBoardCell. rewrite Hb'.
    unfold landed. cbn [GS.set_events board]. rewrite Hboard.
    by rewrite !lookup_insert_ne by (by apply key_ne).
  - rewrite Hto'', Hto0. unfold landed. cbn [GS.set_events turnOrder].
    done.
  - rewrite Hti', Hto0, Hti0. unfold landed.
    cbn [GS.set_events turnOrder turnIndex]. by rewrite Hti, Hto'.
Qed.

(** What a click does when no animation runs. *)
Lemma click_inv gs c clickedPos :
  appInv gs c None →
  ∃ gs' c' callback,
    PlayerController._handleClick gs c clickedPos
      = Some (gs', c', callback) ∧
    appInv gs' c' callback ∧
    (((∀ m, m ∈ PlayerController.validMoves c → targetPos m ≠ clickedPos) ∧
      callback = None ∧ sameButFlags gs gs') ∨
     (∃ loc piece m,
        PlayerController.selectedPiece c = Some loc ∧
        GS.getPieceAt gs loc = Some piece ∧
        GS.currentPlayerIndex gs = Some (Piece.ownerPlayerIndex piece) ∧
        findValidMoves gs loc = Some (PlayerController.validMoves c) ∧
        m ∈ PlayerController.validMoves c ∧ targetPos m = clickedPos ∧
        ownerAt gs' loc = None ∧
        (callback = None ↔ type m = move) ∧
        match callback with
        | None =>
            ownerAt gs' clickedPos = Some (Piece.ownerPlayerIndex piece) ∧
            (∀ p, p ≠ loc → p ≠ clickedPos → ownerAt gs' p = ownerAt gs p) ∧
            turnIndex gs' =
              (turnIndex gs + 1) `mod` Z.of_nat (length (turnOrder gs))
        | Some (fromPos, toPos, moving) =>
            fromPos = loc ∧ toPos = clickedPos ∧
            Piece.ownerPlayerIndex moving = Piece.ownerPlayerIndex piece ∧
            (∀ p, p ≠ loc → ownerAt gs' p = ownerAt gs p) ∧
            turnIndex gs' = turnIndex gs
        end)).
Proof.
  intros Hinv. pose proof Hinv as (Hwf & Hanim & Hsel).
  unfold PlayerController._handleClick. rewrite Hanim.
  unfold PlayerController.handleClick.
  assert (Hselect : ∀ piece,
    GS.getPieceAt gs clickedPos = Some piece →
    PlayerController.belongsToCurrent gs (Some piece) = true →
    ∃ gs' c',
      ('(gs', c') ← PlayerController.selectPiece gs c clickedPos piece;
       Some (gs', c', @None PlayerController.Callback))
      = Some (gs', c', None) ∧
      appInv gs' c' None ∧ sameButFlags gs gs').
  { intros piece Hget Hmine.
    destruct (selectPiece_inv gs c clickedPos piece Hwf Hanim Hget Hmine)
      as (gs' & c' & Hrun & Hs & Hinv' & _).
    exists gs', c'. rewrite Hrun. done. }
  assert (Hdeselect :
    ∃ gs' c',
      (let '(gs', c') := PlayerController.deselectPiece gs c in
       Some (gs', c', @None PlayerController.Callback))
      = Some (gs', c', None) ∧
      appInv gs' c' None ∧ sameButFlags gs gs').
  { destruct (deselectPiece_inv gs c Hwf Hanim) as [Hs Hinv'].
    destruct (PlayerController.deselectPiece gs c) as [gs' c'] eqn:Hd.
    exists gs', c'. done. }
  assert (Htargets : ∀ m, m ∈ PlayerController.validMoves c →
                          onBoard gs (targetPos m)).
  { intros m Hm. unfold selectionOk in Hsel.
    destruct (PlayerController.selectedPiece c) as [loc|].
    - destruct Hsel as (piece & _ & _ & Hmoves).
      destruct (findValidMoves_sound gs loc) as (moves & Hrun & Hall).
      assert (moves = PlayerController.validMoves c) as -> by congruence.
      by destruct (Hall m Hm) as ((Hon & _) & _).
    - rewrite Hsel in Hm. by apply elem_of_nil in Hm. }
  destruct (GS.isPositionOnBoard gs clickedPos) eqn:Hon; cbn [negb].
  2:{ exists gs, c, None. split; [done|]. split; [done|].
      left. split_and!; [|done|apply sameButFlags_refl].
      intros m Hm%Htargets Heq. rewrite Heq in Hm. unfold onBoard in Hm.
      congruence. }
  cbv zeta.
  destruct (PlayerController.selectedPiece c) as [loc|] eqn:Hloc.
  - destruct (List.find _ (PlayerController.validMoves c)) as [m|] eqn:Hfind.
    + apply find_some in Hfind as [Hm Heq].
      apply list_elem_of_In in Hm. apply equals_true in Heq.
      destruct (requestMove_inv gs c loc m Hinv Hloc Hm)
        as (piece & gs' & c' & cb & Hget & Hcur & Hrun & Hinv' & Hgone
            & Hkind & Hwhat).
      exists gs', c', cb. split; [done|]. split; [done|]. right.
      unfold selectionOk in Hsel. rewrite Hloc in Hsel.
      destruct Hsel as (piece' & Hget' & _ & Hmoves).
      exists loc, piece, m. rewrite <- Heq.
      split_and!; try done; apply Hkind.
    + assert (Hnone : ∀ m, m ∈ PlayerController.validMoves c →
                           targetPos m ≠ clickedPos).
      { intros m Hm. eapply find_none in Hfind;
          [|by apply list_elem_of_In].
        by apply equals_false in Hfind. }
      destruct (GS.getPieceAt gs clickedPos) as [piece|] eqn:Hget.
      * destruct (PlayerController.belongsToCurrent gs (Some piece))
          eqn:Hmine.
        -- destruct (Hselect piece eq_refl Hmine)
             as (gs' & c' & Hrun & Hinv' & Hs).
           exists gs', c', None. split; [done|]. split; [done|].
           left. done.
        -- destruct Hdeselect as (gs' & c' & Hrun & Hinv' & Hs).
           exists gs', c', None. split; [done|]. split; [done|].
           left. done.
      * destruct Hdeselect as (gs' & c' & Hrun & Hinv' & Hs).
        exists gs', c', None. split; [done|]. split; [done|].
        left. done.
  - assert (Hnone : ∀ m, m ∈ PlayerController.validMoves c →
                         targetPos m ≠ clickedPos).
    { intros m Hm. unfold selectionOk in Hsel. rewrite Hloc in Hsel.
      rewrite Hsel in Hm. by apply elem_of_nil in Hm. }
    destruct (GS.getPieceAt gs clickedPos) as [piece|] eqn:Hget.
    + destruct (PlayerController.belongsToCurrent gs (Some piece))
        eqn:Hmine.
      * destruct (Hselect piece eq_refl Hmine)
          as (gs' & c' & Hrun & Hinv' & Hs).
        exists gs', c', None. split; [done|]. split; [done|].
        left. done.
      * exists gs, c, None. split; [done|]. split; [done|].
        left. split_and!; [done|done|apply sameButFlags_refl].
    + exists gs, c, None. split; [done|]. split; [done|].
      left. split_and!; [done|done|apply sameButFlags_refl].
Qed.

Lemma running_inv gs c callback : running gs c callback → appInv gs c callback.
Proof.
  induction 1 as [gs Hinit | gs c pos gs' c' cb _ IH Hclick
                  | gs c cb pos gs' c' started _ IH Hclick
                  | gs c cb gs' c' _ IH Hdone
                  | gs c gs' _ IH Hreset | gs c n gs' _ IH Hcount].
  - split_and!; [|done|done].
    by apply (initGame_wellFormed GS.new 2).
  - destruct (click_inv gs c pos IH) as (g & c0 & cb0 & Hrun & Hinv & _).
    rewrite Hrun in Hclick. by injection Hclick as <- <- <-.
  - destruct cb as [[fromPos toPos] piece].
    pose proof IH as (Hanim & _).
    unfold PlayerController._handleClick in Hclick. rewrite Hanim in Hclick.
    by injection Hclick as <- <- <-.
  - destruct cb as [[fromPos toPos] piece].
    destruct (animationDone_inv gs c fromPos toPos piece IH)
      as (g & c0 & Hrun & Hinv & _).
    rewrite Hrun in Hdone. by injection Hdone as <- <-.
  - destruct IH as (Hwf & _).
    split_and!; [|done|done].
    unfold GameMode.resetGame in Hreset.
    eapply initGame_wellFormed; [|exact Hreset]. apply Hwf.
  - destruct IH as (Hwf & _).
    split_and!; [|done|done].
    unfold GameMode.setPlayerCount in Hcount.
    eapply initGame_wellFormed; [|exact Hcount]. apply Hwf.
Qed.

Lemma afterSelect_click :
  PlayerController._handleClick (setupFor 2) PlayerController.new
    (mkHex (-2) 6) = Some afterSelect.
Proof.
  apply (bool_decide_eq_true_1 _). vm_compute. reflexivity.
Qed.

Lemma afterJumpClick_click :
  PlayerController._handleClick afterSelect.1.1 afterSelect.1.2
    (mkHex (-2) 4) = Some afterJumpClick.
Proof.
  apply (bool_decide_eq_true_1 _). vm_compute. reflexivity.
Qed.

Lemma afterJumpClick_callback :
  afterJumpClick.2 =
  Some (mkHex (-2) 6, mkHex (-2) 4, Piece.new (mkHex (-2) 6) 3).
Proof.
  apply (bool_decide_eq_true_1 _). vm_compute. reflexivity.
Qed.

Lemma running_setup : running (setupFor 2) PlayerController.new None.
Proof. apply running_start, setupFor_init. Qed.

Lemma running_afterSelect :
  running afterSelect.1.1 afterSelect.1.2 None.
Proof.
  assert (Hnone : afterSelect.2 = None).
  { apply (bool_decide_eq_true_1 _). vm_compute. reflexivity. }
  rewrite <- Hnone.
  apply (running_click (setupFor 2) PlayerController.new (mkHex (-2) 6));
    [apply running_setup|].
  rewrite afterSelect_click. by destruct afterSelect as [[g c] cb].
Qed.

Lemma running_afterJumpClick :
  running afterJumpClick.1.1 afterJumpClick.1.2
    (Some (mkHex (-2) 6, mkHex (-2) 4, Piece.new (mkHex (-2) 6) 3)).
Proof.
  rewrite <- afterJumpClick_callback.
  apply (running_click afterSelect.1.1 afterSelect.1.2 (mkHex (-2) 4));
    [apply running_afterSelect|].
  rewrite afterJumpClick_click. by destruct afterJumpClick as [[g c] cb].
Qed.

(** X28. While the application runs (clicks, completions of animations,
    and resets and changes of the player count while no animation runs),
    the controller and the game state fit: an animation is in flight
    exactly when [isAnimating] is set; when none is, the game state
    satisfies what every state of a game in play does; a selected piece is
    always on the board, belongs to the player to move, and the valid
    moves held are exactly its valid moves in the position as it is; with
    nothing selected no moves are held, and nothing is selected while an
    animation runs. *)
Theorem X28_application_invariant (gs : GameState) (c : PlayerController.t)
    (callback : option PlayerController.Callback) :
  running gs c callback →
  (PlayerController.isAnimating c = true ↔ is_Some callback) ∧
  (callback = None → wellFormed gs) ∧
  (∀ loc, PlayerController.selectedPiece c = Some loc →
     callback = None ∧
     ∃ piece, GS.getPieceAt gs loc = Some piece ∧
       GS.currentPlayerIndex gs = Some (Piece.ownerPlayerIndex piece) ∧
       findValidMoves gs loc = Some (PlayerController.validMoves c)) ∧
  (PlayerController.selectedPiece c = None →
   PlayerController.validMoves c = []).
Proof.
  intros Hinv%running_inv. destruct callback as [[[fromPos toPos] piece]|].
  - destruct Hinv as (Hanim & Hsel & Hvm & _).
    split_and!; [by split; eauto | done | | done].
    intros loc Hloc. congruence.
  - destruct Hinv as (Hwf & Hanim & Hsel).
    split_and!; [| done | |].
    + rewrite Hanim. split; [done|]. by intros [? ?].
    + intros loc Hloc. unfold selectionOk in Hsel. by rewrite Hloc in Hsel.
    + intros Hloc. unfold selectionOk in Hsel. by rewrite Hloc in Hsel.
Qed.

Lemma X28_application_invariant_witness :
  running afterSelect.1.1 afterSelect.1.2 None ∧
  ∀ loc, PlayerController.selectedPiece afterSelect.1.2 = Some loc →
    @None PlayerController.Callback = None ∧
    ∃ piece, GS.getPieceAt afterSelect.1.1 loc = Some piece ∧
      GS.currentPlayerIndex afterSelect.1.1
        = Some (Piece.ownerPlayerIndex piece) ∧
      findValidMoves afterSelect.1.1 loc
        = Some (PlayerController.validMoves afterSelect.1.2).
Proof.
  split; [apply running_afterSelect|].
  apply (X28_application_invariant afterSelect.1.1 afterSelect.1.2 None).
  apply running_afterSelect.
Defined.

(** X29. A click on the canvas while no animation runs always has a
    result, and it moves a piece exactly when the clicked position is the
    target of one of the valid moves held: then the piece moved is the
    selected one, which belongs to the player to move, and the move is one
    of its valid moves; a step is carried out at once and passes the turn,
    a jump takes the piece off its cell and starts the animation. Any other
    click changes at most what is selected: no piece moves, no owner
    changes and the turn stays. *)
Theorem X29_click_moves_own_piece (gs : GameState) (c : PlayerController.t)
    (clickedPos : HexPosition) :
  running gs c None →
  ∃ gs' c' callback,
    PlayerController._handleClick gs c clickedPos
      = Some (gs', c', callback) ∧
    running gs' c' callback ∧
    (((∀ m, m ∈ PlayerController.validMoves c → targetPos m ≠ clickedPos) ∧
      callback = None ∧ sameButFlags gs gs') ∨
     (∃ loc piece m,
        PlayerController.selectedPiece c = Some loc ∧
        GS.getPieceAt gs loc = Some piece ∧
        GS.currentPlayerIndex gs = Some (Piece.ownerPlayerIndex piece) ∧
        findValidMoves gs loc = Some (PlayerController.validMoves c) ∧
        m ∈ PlayerController.validMoves c ∧ targetPos m = clickedPos ∧
        ownerAt gs' loc = None ∧
        (callback = None ↔ type m = move) ∧
        match callback with
        | None =>
            ownerAt gs' clickedPos = Some (Piece.ownerPlayerIndex piece) ∧
            (∀ p, p ≠ loc → p ≠ clickedPos → ownerAt gs' p = ownerAt gs p) ∧
            turnIndex gs' =
              (turnIndex gs + 1) `mod` Z.of_nat (length (turnOrder gs))
        | Some (fromPos, toPos, moving) =>
            fromPos = loc ∧ toPos = clickedPos ∧
            Piece.ownerPlayerIndex moving = Piece.ownerPlayerIndex piece ∧
            (∀ p, p ≠ loc → ownerAt gs' p = ownerAt gs p) ∧
            turnIndex gs' = turnIndex gs
        end)).
Proof.
  intros Hrun.
  destruct (click_inv gs c clickedPos (running_inv gs c None Hrun))
    as (gs' & c' & cb & Hclick & _ & Hwhat).
  exists gs', c', cb. split; [done|]. split; [|done].
  by eapply running_click.
Qed.

Lemma X29_click_moves_own_piece_witness :
  running afterSelect.1.1 afterSelect.1.2 None ∧
  ∃ gs' c' callback,
    PlayerController._handleClick afterSelect.1.1 afterSelect.1.2
      (mkHex (-2) 4) = Some (gs', c', callback) ∧
    running gs' c' callback.
Proof.
  split; [apply running_afterSelect|].
  destruct (X29_click_moves_own_piece afterSelect.1.1 afterSelect.1.2
              (mkHex (-2) 4) running_afterSelect)
    as (gs' & c' & cb & Hclick & Hrun & _).
  exists gs', c', cb. by split.
Defined.

(** X30. While a jump is animated the start cell of the piece is empty
    and clicks on the canvas are ignored. The completion of the animation
    always has a result: the piece stands on the target of the jump, its
    old cell is empty, no other cell has changed its owner, nothing is
    selected, and the turn has passed to the next player of the turn
    order. *)
Theorem X30_animation_completes (gs : GameState) (c : PlayerController.t)
    (fromPos toPos : HexPosition) (piece : Piece.t) :
  running gs c (Some (fromPos, toPos, piece)) →
  (∀ clickedPos,
     PlayerController._handleClick gs c clickedPos = Some (gs, c, None)) ∧
  ∃ gs' c',
    PlayerController.animationDone gs c (fromPos, toPos, piece)
      = Some (gs', c') ∧
    running gs' c' None ∧
    PlayerController.isAnimating c' = false ∧
    PlayerController.selectedPiece c' = None ∧
    ownerAt gs fromPos = None ∧
    ownerAt gs' fromPos = None ∧
    ownerAt gs' toPos = Some (Piece.ownerPlayerIndex piece) ∧
    (∀ p, p ≠ fromPos → p ≠ toPos → ownerAt gs' p = ownerAt gs p) ∧
    turnOrder gs' = turnOrder gs ∧
    turnIndex gs' =
      (turnIndex gs + 1) `mod` Z.of_nat (length (turnOrder gs)).
Proof.
  intros Hrun. pose proof (running_inv _ _ _ Hrun) as Hinv.
  split.
  - intros clickedPos. destruct Hinv as (Hanim & _).
    unfold PlayerController._handleClick. by rewrite Hanim.
  - destruct (animationDone_inv gs c fromPos toPos piece Hinv)
      as (gs' & c' & Hdone & Hinv' & Hsel & Hrest).
    exists gs', c'. split; [done|].
    split; [by eapply running_landed|].
    split; [apply Hinv'|]. done.
Qed.

Lemma X30_animation_completes_witness :
  running afterJumpClick.1.1 afterJumpClick.1.2
    (Some (mkHex (-2) 6, mkHex (-2) 4, Piece.new (mkHex (-2) 6) 3)) ∧
  ∃ gs' c',
    PlayerController.animationDone afterJumpClick.1.1 afterJumpClick.1.2
      (mkHex (-2) 6, mkHex (-2) 4, Piece.new (mkHex (-2) 6) 3)
      = Some (gs', c') ∧
    running gs' c' None ∧
    ownerAt gs' (mkHex (-2) 4)
      = Some (Piece.ownerPlayerIndex (Piece.new (mkHex (-2) 6) 3)).
Proof.
  split; [apply running_afterJumpClick|].
  destruct (X30_animation_completes afterJumpClick.1.1 afterJumpClick.1.2
              (mkHex (-2) 6) (mkHex (-2) 4) (Piece.new (mkHex (-2) 6) 3)
              running_afterJumpClick)
    as (_ & gs' & c' & Hdone & Hrun & _ & _ & _ & _ & Hto & _).
  exists gs', c'. by split_and!.
Defined.
